(** * Part 7 sonnet search: a shallow embedding of [part7/app.py]

    The query engine of the command line tool: [find_spans],
    [ansi_highlight], [search_sonnet], [combine_results] and the query
    evaluation block of [main]; the output of [print_results]; the
    configuration ([Configuration] of [part7/models.py], [load_config],
    [save_config]) and the command loop of [main]. Reading the sonnets
    from the cache file or the network is not modelled: the engine takes
    the list of sonnets as it is decoded.

    Python values are represented as follows.
    - [str] is a sequence of Unicode code points: [list N].
    - a span [(start, end)] is a pair of naturals.
    - a [list] of spans that is stored in a [LineMatch] is a mutable
      object: [LineMatch.copy], [SearchResult.copy] and the dictionary of
      [combine_results] share it, and [list.extend] changes it in place.
      Such lists live in a store and a [LineMatch] holds a location.
    - every other list of the engine is built once and never changed in
      place, and is a plain Rocq list. *)

From Stdlib Require Import String Ascii.
From stdpp Require Import base numbers list sorting gmap.

Local Open Scope nat_scope.

(** ** Strings *)

Definition pystr : Type := list N.

(** A string literal of the Basic Latin block as a Python string. *)
Definition py (s : string) : pystr := N_of_ascii <$> list_ascii_of_string s.

(** [s[i:j]] for indices [0 <= i], [0 <= j]: Python clips a slice to the
    string, and a slice whose end is not after its start is empty. *)
Definition slice (s : pystr) (i j : nat) : pystr := take (j - i) (drop i s).

(** [s[i:]]. *)
Definition slice_from (s : pystr) (i : nat) : pystr := drop i s.

(** [range(n)] for an integer [n]: empty when [n <= 0]. *)
Definition py_range (n : Z) : list nat := seq 0 (Z.to_nat n).

(** [str.lower] on the code points used in the examples below. Capital
    letters of Basic Latin go to their small letters; U+0130 (capital I
    with dot above) goes to the two code points U+0069 U+0307, as in
    Unicode's SpecialCasing table, which Python's [str.lower] follows;
    other code points are kept. The general results never unfold this
    table: they hold for any lowering function. *)
Definition lower_char (c : N) : list N :=
  if bool_decide (65 ≤ c ≤ 90)%N then [(c + 32)%N]
  else if bool_decide (c = 304%N) then [105%N; 775%N]
  else [c].

Definition str_lower (s : pystr) : pystr := s ≫= lower_char.

(** ** Spans *)

Definition span : Type := nat * nat.

(** [a < b] on tuples of two integers: lexicographic. *)
Definition span_ltb (a b : span) : bool :=
  (a.1 <? b.1) || ((a.1 =? b.1) && (a.2 <? b.2)).

(** ** [sorted]

    Python's [sorted] is a stable sort that compares with [<] only. An
    element goes in front of the first element that is not smaller than
    it, and the elements are inserted from the last one to the first, so
    equal elements keep their order. *)
Fixpoint insert_sorted {A} (ltb : A → A → bool) (x : A) (l : list A) : list A :=
  match l with
  | [] => [x]
  | y :: l' => if ltb y x then y :: insert_sorted ltb x l' else x :: y :: l'
  end.

Definition sorted {A} (ltb : A → A → bool) (l : list A) : list A :=
  foldr (insert_sorted ltb) [] l.

(** ** [find_spans] *)

Definition find_spans (text pattern : pystr) : list span :=
  match pattern with
  | [] => []
  | _ :: _ =>
      (λ i, (i, i + length pattern)) <$>
        filter (λ i, slice text i (i + length pattern) = pattern)
               (py_range (Z.of_nat (length text) - Z.of_nat (length pattern) + 1))
  end.

(** ** [ansi_highlight] *)

(** The loop that merges overlapping spans, with the loop variables
    [current_start] and [current_end]; the last line of the block,
    [merged.append((current_start, current_end))], is the base case. *)
Fixpoint merge_from (current_start current_end : nat) (rest : list span) : list span :=
  match rest with
  | [] => [(current_start, current_end)]
  | (s, e) :: rest' =>
      if s <=? current_end
      then merge_from current_start (current_end `max` e) rest'
      else (current_start, current_end) :: merge_from s e rest'
  end.

(** The value of [merged]. [ansi_highlight] returns before this block
    when [spans] is empty; [merged] is then the empty list. *)
Definition merge_spans (spans : list span) : list span :=
  match sorted span_ltb spans with
  | [] => []
  | (s0, e0) :: rest => merge_from s0 e0 rest
  end.

(** yellow background, black text: ESC[43m ESC[30m *)
Definition HL_START : pystr := [27; 91; 52; 51; 109; 27; 91; 51; 48; 109]%N.
(** reset: ESC[0m *)
Definition HL_RESET : pystr := [27; 91; 48; 109]%N.

(** An element of the list [out]: a slice of the text, or an escape
    code that the function inserts. *)
Inductive piece : Type :=
  | Text (s : pystr)
  | Marker (m : pystr).

(** The loop that builds [out], with the loop variable [i]. *)
Fixpoint highlight_out (text : pystr) (i : nat) (merged : list span) : list piece :=
  match merged with
  | [] => [Text (slice_from text i)]
  | (s, e) :: merged' =>
      Text (slice text i s) :: Marker HL_START :: Text (slice text s e) ::
      Marker HL_RESET :: highlight_out text e merged'
  end.

Definition render (p : piece) : pystr :=
  match p with Text s => s | Marker m => m end.

(** A piece with the inserted escape codes deleted. *)
Definition erase (p : piece) : pystr :=
  match p with Text s => s | Marker _ => [] end.

Definition ansi_highlight_out (text : pystr) (spans : list span) : list piece :=
  match spans with
  | [] => [Text text]
  | _ :: _ => highlight_out text 0 (merge_spans spans)
  end.

Definition ansi_highlight (text : pystr) (spans : list span) : pystr :=
  concat (render <$> ansi_highlight_out text spans).

(** [ansi_highlight] with the inserted escape codes deleted. *)
Definition ansi_highlight_erased (text : pystr) (spans : list span) : pystr :=
  concat (erase <$> ansi_highlight_out text spans).

(** ** Records of [part7/models.py] *)

Inductive search_mode : Type := AND | OR.

(** A sonnet is the dictionary decoded from JSON; the engine reads the
    keys [title] and [lines]. *)
Record Sonnet : Type := new_Sonnet {
  sonnet_title : pystr;
  sonnet_lines : list pystr
}.

(** A location of a list of spans in the store. *)
Abbreviation loc := nat (only parsing).

Record LineMatch : Type := new_LineMatch {
  line_no : nat;
  text : pystr;
  spans : loc
}.

Record SearchResult : Type := new_SearchResult {
  title : pystr;
  title_spans : list span;
  line_matches : list LineMatch;
  matches : nat
}.

(** [LineMatch.copy]: a new object that shares the list of spans. *)
Definition LineMatch_copy (lm : LineMatch) : LineMatch :=
  new_LineMatch (line_no lm) (text lm) (spans lm).

(** [SearchResult.copy]. *)
Definition SearchResult_copy (r : SearchResult) : SearchResult :=
  new_SearchResult (title r) (title_spans r) (line_matches r) (matches r).

(** Attribute assignments [r.matches = n], [r.title_spans = ts] and
    [r.line_matches = lms]. *)
Definition set_matches (n : nat) (r : SearchResult) : SearchResult :=
  new_SearchResult (title r) (title_spans r) (line_matches r) n.

Definition set_title_spans (ts : list span) (r : SearchResult) : SearchResult :=
  new_SearchResult (title r) ts (line_matches r) (matches r).

Definition set_line_matches (lms : list LineMatch) (r : SearchResult) : SearchResult :=
  new_SearchResult (title r) (title_spans r) lms (matches r).

(** ** The store and its monad *)

Abbreviation store := (list (list span)) (only parsing).

(** The list that a location refers to. A reference of the program is
    never dangling; a location outside the store reads as empty. *)
Definition deref (σ : store) (l : loc) : list span := default [] (σ !! l).

Definition M (A : Type) : Type := store → A * store.

#[global] Instance M_ret : MRet M := λ A a σ, (a, σ).
#[global] Instance M_bind : MBind M :=
  λ A B f m σ, let '(a, σ') := m σ in f a σ'.

(** A new list object with the given elements. *)
Definition new_list (v : list span) : M loc :=
  λ σ, (length σ, σ ++ [v]).

(** [l.extend(l')], in place. *)
Definition list_extend (l l' : loc) : M unit :=
  λ σ, (tt, <[l := deref σ l ++ deref σ l']> σ).

(** [len(lm.spans)] *)
Definition spans_len (σ : store) (lm : LineMatch) : nat :=
  length (deref σ (spans lm)).

(** [sum(len(lm.spans) for lm in line_matches)] *)
Definition sum_spans_len (lms : list LineMatch) : M nat :=
  λ σ, (sum_list_with (spans_len σ) lms, σ).

(** ** [search_sonnet] *)

Section search.
(** [str.lower] *)
Variable lower : pystr → pystr.

(** The loop over [enumerate(lines_raw, start=1)], from line number
    [idx] on. The list that [find_spans] returns becomes an object of
    the store when a [LineMatch] keeps it. *)
Fixpoint search_lines (idx : nat) (lines_raw : list pystr) (q : pystr)
    : M (list LineMatch) :=
  match lines_raw with
  | [] => mret []
  | line_raw :: lines_raw' =>
      match find_spans (lower line_raw) q with
      | [] => search_lines (S idx) lines_raw' q
      | found =>
          l ← new_list found;
          line_matches ← search_lines (S idx) lines_raw' q;
          mret (new_LineMatch idx line_raw l :: line_matches)
      end
  end.

Definition search_sonnet (sonnet : Sonnet) (query : pystr) : M SearchResult :=
  let title_raw := sonnet_title sonnet in
  let lines_raw := sonnet_lines sonnet in
  let q := lower query in
  let title_spans := find_spans (lower title_raw) q in
  line_matches ← search_lines 1 lines_raw q;
  n ← sum_spans_len line_matches;
  mret (new_SearchResult title_raw title_spans line_matches
                         (length title_spans + n)).
End search.

(** ** [combine_results] *)

(** A Python dictionary from line numbers to line matches: the keys in
    insertion order, each key once. *)
Definition dict : Type := list (nat * LineMatch).

(** [d.get(k)]; [k in d] is [is_Some (dict_get k d)]. *)
Fixpoint dict_get (k : nat) (d : dict) : option LineMatch :=
  match d with
  | [] => None
  | (k', v) :: d' => if decide (k' = k) then Some v else dict_get k d'
  end.

(** [d[k] = v]: a present key keeps its place, a new key goes last. *)
Fixpoint dict_set (k : nat) (v : LineMatch) (d : dict) : dict :=
  match d with
  | [] => [(k, v)]
  | (k', v') :: d' =>
      if decide (k' = k) then (k, v) :: d' else (k', v') :: dict_set k v d'
  end.

(** [d.values()] *)
Definition dict_values (d : dict) : list LineMatch := d.*2.

(** [{lm.line_no: lm for lm in line_matches}] *)
Definition dict_by_line_no (lms : list LineMatch) : dict :=
  foldl (λ d lm, dict_set (line_no lm) lm d) [] lms.

(** The loop [for lm in result2.line_matches]. *)
Fixpoint merge_line_matches (lms2 : list LineMatch) (lines_by_no : dict) : M dict :=
  match lms2 with
  | [] => mret lines_by_no
  | lm :: lms2' =>
      let ln := line_no lm in
      match dict_get ln lines_by_no with
      | Some held =>
          _ ← list_extend (spans held) (spans lm);
          merge_line_matches lms2' lines_by_no
      | None =>
          merge_line_matches lms2' (dict_set ln (LineMatch_copy lm) lines_by_no)
      end
  end.

(** The key of [sorted(..., key=lambda lm: lm.line_no)]. *)
Definition line_no_ltb (x y : LineMatch) : bool := line_no x <? line_no y.

Definition combine_results (result1 result2 : SearchResult) : M SearchResult :=
  let combined := SearchResult_copy result1 in
  let combined := set_matches (matches result1 + matches result2) combined in
  let combined :=
    set_title_spans (sorted span_ltb (title_spans result1 ++ title_spans result2))
                    combined in
  let lines_by_no := dict_by_line_no (line_matches combined) in
  lines_by_no ← merge_line_matches (line_matches result2) lines_by_no;
  mret (set_line_matches (sorted line_no_ltb (dict_values lines_by_no)) combined).

(** ** The query evaluation block of [main] *)

(** A loop [for i in ...] whose body may raise: [None] is the exception. *)
Fixpoint for_each {I S} (body : I → S → option S) (items : list I) (st : S) : option S :=
  match items with
  | [] => Some st
  | i :: items' => st' ← body i st; for_each body items' st'
  end.

Section engine.
(** [str.lower] *)
Variable lower : pystr → pystr.

(** [[search_sonnet(s, word) for s in sonnets]] *)
Fixpoint search_all (sonnets : list Sonnet) (word : pystr) : M (list SearchResult) :=
  match sonnets with
  | [] => mret []
  | s :: sonnets' =>
      r ← search_sonnet lower s word;
      rs ← search_all sonnets' word;
      mret (r :: rs)
  end.

(** The body of [for i in range(len(combined_results))]. The state is
    the list [combined_results] and the store. An index outside
    [results] raises [IndexError]. The assignment
    [combined_result.matches = 0] changes the object that the list
    holds at [i], and nothing else refers to that object. *)
Definition merge_at (mode : search_mode) (results : list SearchResult) (i : nat)
    (st : list SearchResult * store) : option (list SearchResult * store) :=
  let '(combined_results, σ) := st in
  combined_result ← combined_results !! i;
  result ← results !! i;
  match mode with
  | AND =>
      if (0 <? matches combined_result) && (0 <? matches result) then
        let '(c, σ') := combine_results combined_result result σ in
        Some (<[i := c]> combined_results, σ')
      else
        Some (<[i := set_matches 0 combined_result]> combined_results, σ)
  | OR =>
      let '(c, σ') := combine_results combined_result result σ in
      Some (<[i := c]> combined_results, σ')
  end.

(** The body of [for word in words]. *)
Definition query_word (mode : search_mode) (sonnets : list Sonnet) (word : pystr)
    (st : list SearchResult * store) : option (list SearchResult * store) :=
  let '(combined_results, σ) := st in
  let '(results, σ) := search_all sonnets word σ in
  match combined_results with
  | [] => Some (results, σ)
  | _ :: _ =>
      for_each (merge_at mode results)
               (py_range (Z.of_nat (length combined_results)))
               (combined_results, σ)
  end.

(** From [combined_results = []] to the end of the loop over [words]. *)
Definition query_evaluation (mode : search_mode) (sonnets : list Sonnet)
    (words : list pystr) (σ : store) : option (list SearchResult * store) :=
  for_each (query_word mode sonnets) words ([], σ).
End engine.

(** The loop body without the indices, for lists of the same length: the
    accumulators and the results of the word are taken in pairs. *)
Definition merge_one (mode : search_mode) (combined_result result : SearchResult)
    : M SearchResult :=
  match mode with
  | AND =>
      if (0 <? matches combined_result) && (0 <? matches result)
      then combine_results combined_result result
      else mret (set_matches 0 combined_result)
  | OR => combine_results combined_result result
  end.

Fixpoint merge_zip (mode : search_mode) (combined_results results : list SearchResult)
    : M (list SearchResult) :=
  match combined_results, results with
  | c :: cs, r :: rs =>
      c' ← merge_one mode c r;
      cs' ← merge_zip mode cs rs;
      mret (c' :: cs')
  | _, _ => mret []
  end.

(** ** Example data *)

(** The document of the end-to-end example of the specification. *)
Definition sonnet_test : Sonnet :=
  new_Sonnet (py "Test") [py "a cat sat"; py "a bat ran"].

Definition sonnet_a : Sonnet := new_Sonnet (py "a") [].

(** A document whose title and line are the capital I with dot above
    (U+0130) followed by the letter s. *)
Definition sonnet_dotted : Sonnet := new_Sonnet [304; 115]%N [[304; 115]%N].

(** ** Vocabulary of the properties *)

(** [0 <= start < end <= len(s)] *)
Definition valid_span (s : pystr) (sp : span) : Prop :=
  sp.1 < sp.2 ∧ sp.2 ≤ length s.

(** The character position [p] lies in one of the spans. *)
Definition covers (l : list span) (p : nat) : Prop :=
  ∃ sp, sp ∈ l ∧ sp.1 ≤ p < sp.2.

(** Every span is non-empty and ends strictly before every later span
    starts: ascending, non-overlapping, and no two spans touch. *)
Definition apart (l : list span) : Prop :=
  Forall (λ sp, sp.1 < sp.2) l ∧ StronglySorted (λ a b : span, a.2 < b.1) l.

(** The locations of the span lists and the line numbers that a list of
    line matches, or a result, holds. *)
Definition lm_locs (lms : list LineMatch) : list loc := spans <$> lms.
Definition lm_line_nos (lms : list LineMatch) : list nat := line_no <$> lms.
Definition locs_of (r : SearchResult) : list loc := lm_locs (line_matches r).
Definition line_nos (r : SearchResult) : list nat := lm_line_nos (line_matches r).

(** [sum(len(lm.spans) for lm in lms)], read in the store [σ]. *)
Definition total_spans (σ : store) (lms : list LineMatch) : nat :=
  sum_list_with (spans_len σ) lms.

(** The spans that the line matches hold for line [n], read in [σ]. *)
Definition line_spans (σ : store) (lms : list LineMatch) (n : nat) : list span :=
  lms ≫= λ lm, if decide (line_no lm = n) then deref σ (spans lm) else [].

Definition spans_at (σ : store) (r : SearchResult) (n : nat) : list span :=
  line_spans σ (line_matches r) n.

(** [matches == len(title_spans) + sum(len(lm.spans) for lm in line_matches)] *)
Definition count_ok (σ : store) (r : SearchResult) : Prop :=
  matches r = length (title_spans r) + total_spans σ (line_matches r).

(** The results own their span lists: no list object is held twice, all
    of them are in the store, and no result has a line number twice. *)
Definition owned (σ : store) (rs : list SearchResult) : Prop :=
  NoDup (rs ≫= locs_of) ∧
  Forall (λ l, l < length σ) (rs ≫= locs_of) ∧
  Forall (λ r, NoDup (line_nos r)) rs.

(** Two results, each read in its store, have the same numbers: the same
    count, the same title spans and the same spans on every line, as
    multisets. *)
Definition same_numbers (σ1 : store) (r1 : SearchResult)
    (σ2 : store) (r2 : SearchResult) : Prop :=
  matches r1 = matches r2 ∧
  title_spans r1 ≡ₚ title_spans r2 ∧
  ∀ n, spans_at σ1 r1 n ≡ₚ spans_at σ2 r2 n.

(** A dictionary of [combine_results] is keyed by the line numbers of
    its values, and holds each key once. *)
Definition dict_ok (d : dict) : Prop :=
  NoDup d.*1 ∧ Forall (λ kv, line_no kv.2 = kv.1) d.

(** [combine_results] folded over the results of further terms. *)
Fixpoint combine_all (acc : SearchResult) (rs : list SearchResult) : M SearchResult :=
  match rs with
  | [] => mret acc
  | r :: rs' => acc' ← combine_results acc r; combine_all acc' rs'
  end.

(** What [search_sonnet] stores in a line match for a document with the
    lines [lines], numbered from [idx], and the lowered query [q]: the
    text of its line, and the spans found in the lowered line, of which
    there is at least one. *)
Definition line_match_of (lower : pystr → pystr) (idx : nat) (lines : list pystr)
    (q : pystr) (σ : store) (lm : LineMatch) : Prop :=
  idx ≤ line_no lm ∧
  lines !! (line_no lm - idx) = Some (text lm) ∧
  deref σ (spans lm) = find_spans (lower (text lm)) q ∧
  find_spans (lower (text lm)) q ≠ [].

(** An accumulator of the query loop is in order: under OR the count is
    the number of spans held; under AND it is, or the count is zero. *)
Definition acc_ok (mode : search_mode) (σ : store) (r : SearchResult) : Prop :=
  match mode with
  | OR => count_ok σ r
  | AND => count_ok σ r ∨ matches r = 0
  end.

(** The test of the loop body: under OR the results are always combined,
    under AND only when both have matches. *)
Definition combines (mode : search_mode) (c r : SearchResult) : bool :=
  match mode with
  | OR => true
  | AND => (0 <? matches c) && (0 <? matches r)
  end.

(** One step of the loop for one document, from the accumulator [c] and
    the result [r] of the word, read in [σ], to [c'], read in [σ']. *)
Definition merged (mode : search_mode) (σ : store) (c r : SearchResult)
    (σ' : store) (c' : SearchResult) : Prop :=
  if combines mode c r then
    title c' = title c ∧
    matches c' = matches c + matches r ∧
    title_spans c' = sorted span_ltb (title_spans c ++ title_spans r) ∧
    ∀ n, spans_at σ' c' n ≡ₚ spans_at σ c n ++ spans_at σ r n
  else
    c' = set_matches 0 c ∧ ∀ l, l ∈ locs_of c → deref σ' l = deref σ l.

(** The state of the query loop after a word is in order: one
    accumulator per document, each owning its span lists. *)
Definition engine_inv (mode : search_mode) (sonnets : list Sonnet)
    (σ : store) (accs : list SearchResult) : Prop :=
  length accs = length sonnets ∧ owned σ accs ∧ Forall (acc_ok mode σ) accs.

(** What a document holds for a word, read off the document: the spans
    of the lowered word in the lowered line [n], and the number of all
    its spans in the lowered title and lines. *)
Definition doc_line_spans (lower : pystr → pystr) (sonnet : Sonnet) (q : pystr)
    (n : nat) : list span :=
  match n with
  | 0 => []
  | S j =>
      match sonnet_lines sonnet !! j with
      | Some line => find_spans (lower line) q
      | None => []
      end
  end.

Definition doc_matches (lower : pystr → pystr) (sonnet : Sonnet) (word : pystr) : nat :=
  length (find_spans (lower (sonnet_title sonnet)) (lower word)) +
  sum_list_with (λ line, length (find_spans (lower line) (lower word)))
                (sonnet_lines sonnet).

(** The result [r], read in [σ], is what the document holds for the
    word. *)
Definition found_in (lower : pystr → pystr) (sonnet : Sonnet) (word : pystr)
    (σ : store) (r : SearchResult) : Prop :=
  title r = sonnet_title sonnet ∧
  title_spans r = find_spans (lower (sonnet_title sonnet)) (lower word) ∧
  matches r = doc_matches lower sonnet word ∧
  ∀ n, spans_at σ r n = doc_line_spans lower sonnet (lower word) n.

(** The accumulator [acc], read in [σ], has the numbers of the document
    for the words: the sum of the counts, and the spans of all the words
    in the title and in every line, as multisets. *)
Definition holds_words (lower : pystr → pystr) (sonnet : Sonnet) (words : list pystr)
    (σ : store) (acc : SearchResult) : Prop :=
  title acc = sonnet_title sonnet ∧
  matches acc = sum_list_with (doc_matches lower sonnet) words ∧
  title_spans acc ≡ₚ
    words ≫= (λ w, find_spans (lower (sonnet_title sonnet)) (lower w)) ∧
  ∀ n, spans_at σ acc n ≡ₚ words ≫= (λ w, doc_line_spans lower sonnet (lower w) n).

(** A string with every occurrence of the two escape codes removed, from
    left to right; [skip] code points of an occurrence are still to be
    dropped. *)
Fixpoint strip_markers_from (skip : nat) (s : pystr) : pystr :=
  match s with
  | [] => []
  | c :: s' =>
      match skip with
      | S k => strip_markers_from k s'
      | 0 =>
          if bool_decide (take (length HL_START) s = HL_START)
          then strip_markers_from (length HL_START - 1) s'
          else if bool_decide (take (length HL_RESET) s = HL_RESET)
          then strip_markers_from (length HL_RESET - 1) s'
          else c :: strip_markers_from 0 s'
      end
  end.

Definition strip_markers (s : pystr) : pystr := strip_markers_from 0 s.

(** The code point of the escape character, with which both escape codes
    start. *)
Definition ESC : N := 27%N.

(** [a <= b] on tuples of two integers. *)
Definition span_le (a b : span) : Prop :=
  a.1 < b.1 ∨ (a.1 = b.1 ∧ a.2 ≤ b.2).

(** The accumulator [acc] of a document, read in [σ], was set aside
    under AND: some word of [words] does not occur in the document, the
    count is zero, and the accumulator still holds the spans of the words
    before the first such word. *)
Definition gated_after (lower : pystr → pystr) (sonnet : Sonnet) (words : list pystr)
    (σ : store) (acc : SearchResult) : Prop :=
  ∃ ws1 w ws2, words = ws1 ++ w :: ws2 ∧
    Forall (λ w, 0 < doc_matches lower sonnet w) ws1 ∧
    doc_matches lower sonnet w = 0 ∧
    matches acc = 0 ∧
    holds_words lower sonnet ws1 σ
      (set_matches (sum_list_with (doc_matches lower sonnet) ws1) acc).

(** [pattern in text] for strings *)
Definition occurs_in (pattern text : pystr) : Prop :=
  ∃ pre post, text = pre ++ pattern ++ post.

(** The state of one accumulator under AND after the words [ws]: it
    holds all of them, which all occur, or it was set aside. *)
Definition and_state (lower : pystr → pystr) (s : Sonnet) (ws : list pystr) (σ : store) (acc : SearchResult) : Prop :=
  title acc = sonnet_title s ∧
  (Forall (λ w, 0 < doc_matches lower s w) ws ∧ holds_words lower s ws σ acc ∨
   gated_after lower s ws σ acc).

(** ** [print_results]

    The output is the list of the strings given to [print], one per
    call, in the order of the calls. *)

(** [str(n)] for an integer [n >= 0]: the decimal digits, as [f'{n}']
    writes them. *)
Fixpoint uint_codes (u : Decimal.uint) : pystr :=
  match u with
  | Decimal.Nil => []
  | Decimal.D0 u' => 48%N :: uint_codes u'
  | Decimal.D1 u' => 49%N :: uint_codes u'
  | Decimal.D2 u' => 50%N :: uint_codes u'
  | Decimal.D3 u' => 51%N :: uint_codes u'
  | Decimal.D4 u' => 52%N :: uint_codes u'
  | Decimal.D5 u' => 53%N :: uint_codes u'
  | Decimal.D6 u' => 54%N :: uint_codes u'
  | Decimal.D7 u' => 55%N :: uint_codes u'
  | Decimal.D8 u' => 56%N :: uint_codes u'
  | Decimal.D9 u' => 57%N :: uint_codes u'
  end.

Definition str_of_nat (n : nat) : pystr := uint_codes (Nat.to_uint n).

(** [f'{n:2}'] for an integer [n >= 0]: the digits, with spaces in front
    up to the width. *)
Definition rjust (width : nat) (s : pystr) : pystr :=
  replicate (width - length s) 32%N ++ s.

(** [[r for r in results if r.matches > 0]] *)
Definition matched (results : list SearchResult) : list SearchResult :=
  filter (λ r, 0 < matches r) results.

(** [ansi_highlight(r.title, r.title_spans) if highlight else r.title] *)
Definition title_line (highlight : bool) (r : SearchResult) : pystr :=
  if highlight then ansi_highlight (title r) (title_spans r) else title r.

(** [ansi_highlight(lm.text, lm.spans) if highlight else lm.text] *)
Definition line_out (highlight : bool) (σ : store) (lm : LineMatch) : pystr :=
  if highlight then ansi_highlight (text lm) (deref σ (spans lm)) else text lm.

(** The strings printed for one result: the title line, which starts
    with a line feed, and one line per line match. *)
Definition print_result (highlight : bool) (σ : store) (total_docs idx : nat)
    (r : SearchResult) : list pystr :=
  ([10%N] ++ py "[" ++ str_of_nat idx ++ py "/" ++ str_of_nat total_docs ++ py "] "
     ++ title_line highlight r) ::
  ((λ lm, py "  [" ++ rjust 2 (str_of_nat (line_no lm)) ++ py "] "
            ++ line_out highlight σ lm) <$> line_matches r).

Section print_results.
(** Python's [float], and [f'{x:.2f}']. *)
Variable Float : Type.
Variable format_2f : Float → pystr.

(** The first line: the quotation marks around the query are the code
    point 34. *)
Definition header_line (query : pystr) (n_matched total_docs : nat)
    (query_time_ms : option Float) : pystr :=
  let line := str_of_nat n_matched ++ py " out of " ++ str_of_nat total_docs ++
              py " sonnets contain " ++ [34%N] ++ query ++ [34%N] ++ py "." in
  match query_time_ms with
  | None => line
  | Some t => line ++ py " Your query took " ++ format_2f t ++ py "ms."
  end.

Definition print_results (query : pystr) (results : list SearchResult)
    (highlight : bool) (query_time_ms : option Float) (σ : store) : list pystr :=
  let total_docs := length results in
  header_line query (length (matched results)) total_docs query_time_ms ::
  concat (imap (λ i r, print_result highlight σ total_docs (S i) r) (matched results)).
End print_results.

(** A result that [print_results] can print and that can be read back:
    its title and the texts of its line matches hold no escape
    character, and none of its spans is empty. *)
Definition printable (σ : store) (r : SearchResult) : Prop :=
  (ESC ∉ title r) ∧
  Forall (λ sp : span, sp.1 < sp.2) (title_spans r) ∧
  Forall (λ lm, (ESC ∉ text lm) ∧ Forall (λ sp : span, sp.1 < sp.2) (deref σ (spans lm)))
         (line_matches r).

(** ** [Configuration] of [part7/models.py], and the configuration file *)

Record Configuration : Type := new_Configuration {
  cfg_highlight : bool;
  cfg_search_mode : pystr
}.

(** [Configuration()], the value of [DEFAULT_CONFIG] *)
Definition DEFAULT_CONFIG : Configuration := new_Configuration true (py "AND").

Definition Configuration_copy (self : Configuration) : Configuration :=
  new_Configuration (cfg_highlight self) (cfg_search_mode self).

(** [config.highlight = b] and [config.search_mode = m] *)
Definition set_highlight (b : bool) (c : Configuration) : Configuration :=
  new_Configuration b (cfg_search_mode c).
Definition set_search_mode (m : pystr) (c : Configuration) : Configuration :=
  new_Configuration (cfg_highlight c) m.

(** [pattern in text] for strings, as a test *)
Fixpoint str_in (pattern text : pystr) : bool :=
  bool_decide (take (length pattern) text = pattern) ||
  match text with
  | [] => false
  | _ :: text' => str_in pattern text'
  end.

Section config.
(** The numbers of JSON, which the code never looks into. *)
Variable number : Type.

(** What [json.load] gives. The members of an object are in the order of
    the file. *)
#[warnings="-register-all"] Inductive json : Type :=
  | JNull
  | JBool (b : bool)
  | JNum (n : number)
  | JStr (s : pystr)
  | JList (l : list json)
  | JObject (members : list (pystr * json)).

(** The dictionary that Python builds for an object: of two members with
    the same name, the later one is kept. *)
Definition dict_of (members : list (pystr * json)) : gmap pystr json :=
  list_to_map (reverse members).

(** [Configuration.update] for a dictionary. *)
Definition update (self : Configuration) (other : gmap pystr json) : Configuration :=
  let self :=
    match other !! py "highlight" with
    | Some (JBool b) => set_highlight b self
    | _ => self
    end in
  match other !! py "search_mode" with
  | Some (JStr s) =>
      if bool_decide (s ∈ [py "AND"; py "OR"]) then set_search_mode s self else self
  | _ => self
  end.

(** [x == s] for a decoded value [x] and a string [s] *)
Definition is_str (s : pystr) (x : json) : bool :=
  match x with
  | JStr s' => bool_decide (s' = s)
  | _ => false
  end.

(** [key in other] followed, when it holds, by [other[key]], for a
    decoded value that is not a dictionary: [Some false] when the key is
    not in it, and [None] for the [TypeError] that is raised otherwise,
    by [in] for a value that is not a container and by the subscript for
    a string or a list. *)
Definition key_in (key : pystr) (other : json) : option bool :=
  match other with
  | JStr s => if str_in key s then None else Some false
  | JList l => if existsb (is_str key) l then None else Some false
  | _ => None
  end.

(** [cfg.update(json.load(config_file))], for any decoded value. [None]
    is a [TypeError]. *)
Definition update_decoded (self : Configuration) (other : json) : option Configuration :=
  match other with
  | JObject members => Some (update self (dict_of members))
  | _ =>
      _ ← key_in (py "highlight") other;
      _ ← key_in (py "search_mode") other;
      Some self
  end.

(** The file [config.json] as [load_config] finds it: not there, not
    readable ([OSError]), not text in the encoding of the locale
    ([UnicodeDecodeError]), not JSON ([JSONDecodeError]), or decoded. *)
Inductive config_file : Type :=
  | NoFile
  | Unreadable
  | NotText
  | NotJSON
  | Decoded (content : json).

(** [load_config]: the configuration that is returned, or [None] for a
    [TypeError] or a [UnicodeDecodeError], which no [except] clause of
    the function takes. *)
Definition load_config (file : config_file) : option Configuration :=
  let cfg := Configuration_copy DEFAULT_CONFIG in
  match file with
  | NoFile | Unreadable | NotJSON => Some cfg
  | NotText => None
  | Decoded content => update_decoded cfg content
  end.

(** What [save_config] writes: [cfg.__dict__] as JSON. *)
Definition save_config (cfg : Configuration) : json :=
  JObject [(py "highlight", JBool (cfg_highlight cfg));
           (py "search_mode", JStr (cfg_search_mode cfg))].
End config.

(** ** The command loop of [main] *)

Section main.
(** [str.lower], [str.upper], and whether a code point is white space
    for [str.strip] and [str.split]. *)
Variable lower upper : pystr → pystr.
Variable is_space : N → bool.
(** [HELP] of [part7/constants.py] *)
Variable HELP : pystr.

Fixpoint lstrip (s : pystr) : pystr :=
  match s with
  | [] => []
  | c :: s' => if is_space c then lstrip s' else s
  end.

(** [s.strip()] *)
Definition strip (s : pystr) : pystr := reverse (lstrip (reverse (lstrip s))).

(** [s.split()]: the runs of code points that are not white space.
    [word] is the run that is being read. *)
Fixpoint split_from (word : pystr) (s : pystr) : list pystr :=
  match s with
  | [] => match word with [] => [] | _ :: _ => [word] end
  | c :: s' =>
      if is_space c then
        match word with
        | [] => split_from [] s'
        | _ :: _ => word :: split_from [] s'
        end
      else split_from (word ++ [c]) s'
  end.

Definition split (s : pystr) : list pystr := split_from [] s.

(** [s.startswith(prefix)] *)
Definition startswith (s prefix : pystr) : bool :=
  bool_decide (take (length prefix) s = prefix).

(** What one pass of the [while] loop does after the line is read:
    [break], with what was printed; [continue], with the configuration,
    whether [save_config] was called, and what was printed; or the
    evaluation of a query with its words. *)
Inductive step : Type :=
  | Break (out : list pystr)
  | Continue (config : Configuration) (saved : bool) (out : list pystr)
  | Evaluate (words : list pystr).

(** The line that [save_config] prints when the file cannot be written. *)
Definition save_out (write_ok : bool) : list pystr :=
  if write_ok then [] else [py "Writing config.json failed."].

(** One pass of the loop. [line] is what [input] returns, or [None]
    for [EOFError] and [KeyboardInterrupt]; [write_ok] tells whether
    [config.json] can be written. *)
Definition main_step (config : Configuration) (write_ok : bool)
    (line : option pystr) : step :=
  match line with
  | None => Break [[10%N] ++ py "Bye."]
  | Some line =>
      let raw := strip line in
      if bool_decide (raw = []) then Continue config false []
      else if startswith raw (py ":") then
        if bool_decide (raw = py ":quit") then Break [py "Bye."]
        else if bool_decide (raw = py ":help") then Continue config false [HELP]
        else if startswith raw (py ":highlight") then
          match split raw with
          | [_; arg] =>
              if bool_decide (lower arg ∈ [py "on"; py "off"]) then
                let config := set_highlight (bool_decide (lower arg = py "on")) config in
                Continue config true
                  ((py "Highlighting " ++ (if cfg_highlight config then py "ON" else py "OFF"))
                   :: save_out write_ok)
              else Continue config false [py "Usage: :highlight on|off"]
          | _ => Continue config false [py "Usage: :highlight on|off"]
          end
        else if startswith raw (py ":search-mode") then
          match split raw with
          | [_; arg] =>
              if bool_decide (upper arg ∈ [py "AND"; py "OR"]) then
                let config := set_search_mode (upper arg) config in
                Continue config true
                  ((py "Search mode set to " ++ cfg_search_mode config) :: save_out write_ok)
              else Continue config false [py "Usage: :search-mode AND|OR"]
          | _ => Continue config false [py "Usage: :search-mode AND|OR"]
          end
        else Continue config false [py "Unknown command. Type :help for commands."]
      else
        match split raw with
        | [] => Continue config false []
        | words => Evaluate words
        end
  end.

(** The configuration after the lines that were read; a [break] ends
    the loop, and the evaluation of a query leaves the configuration as
    it is. *)
Fixpoint config_after (config : Configuration) (lines : list (bool * option pystr))
    : Configuration :=
  match lines with
  | [] => config
  | (write_ok, line) :: lines' =>
      match main_step config write_ok line with
      | Break _ => config
      | Continue config' _ _ => config_after config' lines'
      | Evaluate _ => config_after config lines'
      end
  end.
End main.

(** The search mode that the query loop of [main] tests for. *)
Definition mode_of (config : Configuration) : option search_mode :=
  if bool_decide (cfg_search_mode config = py "AND") then Some AND
  else if bool_decide (cfg_search_mode config = py "OR") then Some OR
  else None.

(** The line match holds the number and the raw text of a line of the
    sonnet. *)
Definition line_of (sonnet : Sonnet) (lm : LineMatch) : Prop :=
  1 ≤ line_no lm ∧ sonnet_lines sonnet !! (line_no lm - 1) = Some (text lm).

(** The result is one of the sonnet: it has its title, and its line
    matches are lines of the sonnet. *)
Definition result_of (sonnet : Sonnet) (r : SearchResult) : Prop :=
  title r = sonnet_title sonnet ∧ Forall (line_of sonnet) (line_matches r).

(** No span that the result holds, read in [σ], is empty. *)
Definition spans_nonempty (σ : store) (r : SearchResult) : Prop :=
  Forall (λ sp : span, sp.1 < sp.2) (title_spans r) ∧
  ∀ n, Forall (λ sp : span, sp.1 < sp.2) (spans_at σ r n).

(** The title and the lines of the sonnet hold no escape character. *)
Definition plain_sonnet (sonnet : Sonnet) : Prop :=
  (ESC ∉ sonnet_title sonnet) ∧ Forall (λ line, ESC ∉ line) (sonnet_lines sonnet).

(** * Properties *)

(** ** [sorted] *)

Section sorted.
Context {A : Type} (ltb : A → A → bool).

Lemma insert_sorted_Permutation x l : insert_sorted ltb x l ≡ₚ x :: l.
Proof.
  induction l as [|y l IH]; simpl; [done|].
  destruct (ltb y x); [|done].
  by rewrite IH, Permutation_swap.
Qed.

Lemma sorted_Permutation l : sorted ltb l ≡ₚ l.
Proof.
  induction l as [|x l IH]; simpl; [done|].
  unfold sorted in *; simpl.
  by rewrite insert_sorted_Permutation, IH.
Qed.

Lemma sorted_length l : length (sorted ltb l) = length l.
Proof. by rewrite sorted_Permutation. Qed.

Section order.
Context (R : relation A) `{!Transitive R}.
Hypothesis ltb_true : ∀ x y, ltb y x = true → R y x.
Hypothesis ltb_false : ∀ x y, ltb y x = false → R x y.

Lemma insert_sorted_StronglySorted x l :
  StronglySorted R l → StronglySorted R (insert_sorted ltb x l).
Proof using All.
  induction 1 as [|y l Hl IH Hy]; simpl.
  - repeat constructor.
  - destruct (ltb y x) eqn:E.
    + constructor; [done|].
      rewrite insert_sorted_Permutation. constructor; auto.
    + constructor; [by constructor|].
      constructor; [auto|].
      eapply Forall_impl; [done|]. intros z Hz. by trans y; auto.
Qed.

Lemma sorted_StronglySorted l : StronglySorted R (sorted ltb l).
Proof using All.
  induction l as [|x l IH]; simpl; [constructor|].
  by apply insert_sorted_StronglySorted.
Qed.
End order.
End sorted.

Lemma sorted_span_fst l : StronglySorted (λ a b : span, a.1 ≤ b.1) (sorted span_ltb l).
Proof.
  apply sorted_StronglySorted.
  - intros x y z ??. lia.
  - intros [??] [??]. unfold span_ltb. simpl. intros.
    destruct (Nat.ltb_spec n1 n); destruct (Nat.eqb_spec n1 n); simpl in *; lia.
  - intros [??] [??]. unfold span_ltb. simpl. intros.
    destruct (Nat.ltb_spec n1 n); destruct (Nat.eqb_spec n1 n); simpl in *; lia.
Qed.

(** ** [find_spans] *)


Lemma elem_of_py_range i n : i ∈ py_range n ↔ (Z.of_nat i < n)%Z.
Proof. unfold py_range. rewrite elem_of_seq. lia. Qed.

Lemma elem_of_find_spans text pattern s e :
  pattern ≠ [] →
  (s, e) ∈ find_spans text pattern ↔
    e = s + length pattern ∧ s + length pattern ≤ length text ∧
    slice text s (s + length pattern) = pattern.
Proof.
  intros Hne. unfold find_spans.
  destruct pattern as [|c pattern']; [done|].
  set (pattern := c :: pattern').
  rewrite list_elem_of_fmap. split.
  - intros (i & [= -> ->] & Hi).
    apply list_elem_of_filter in Hi as [Heq Hi].
    apply elem_of_py_range in Hi. split; [done|]. split; [lia|done].
  - intros (-> & Hle & Heq). exists s. split; [done|].
    apply list_elem_of_filter. split; [done|].
    apply elem_of_py_range. lia.
Qed.

Lemma fmap_pair_fst {A B} (g : A → B) (l : list A) : ((λ i, (i, g i)) <$> l).*1 = l.
Proof. induction l; simpl; by f_equal. Qed.

Lemma StronglySorted_filter {A} (R : relation A) (P : A → Prop) `{!∀ x, Decision (P x)} l :
  StronglySorted R l → StronglySorted R (filter P l).
Proof.
  induction 1 as [|x l Hl IH Hx]; [constructor|].
  rewrite filter_cons. destruct (decide (P x)); [|done].
  constructor; [done|]. rewrite Forall_forall in *.
  intros y [_ Hy]%list_elem_of_filter. auto.
Qed.

Lemma find_spans_starts_sorted text pattern :
  StronglySorted lt (find_spans text pattern).*1.
Proof.
  unfold find_spans. destruct pattern as [|c pattern']; [constructor|].
  rewrite fmap_pair_fst.
  apply StronglySorted_filter. unfold py_range.
  generalize (Z.to_nat (Z.of_nat (length text) - Z.of_nat (length (c :: pattern')) + 1)).
  generalize 0. intros a n. revert a.
  induction n as [|n IH]; intros a; simpl; constructor; [apply IH|].
  apply Forall_forall. intros x Hx%elem_of_seq. lia.
Qed.

Lemma find_spans_valid text pattern sp :
  sp ∈ find_spans text pattern → valid_span text sp.
Proof.
  destruct sp as [s e]. destruct pattern as [|c p]; [by intros ?%elem_of_nil|].
  intros (-> & Hle & _)%elem_of_find_spans; [|done].
  unfold valid_span; simpl in *. lia.
Qed.

(** ** The merge of [ansi_highlight] *)

Lemma covers_Permutation l1 l2 p : l1 ≡ₚ l2 → covers l1 p ↔ covers l2 p.
Proof. intros H. unfold covers. by setoid_rewrite H. Qed.

Lemma covers_cons sp l p : covers (sp :: l) p ↔ sp.1 ≤ p < sp.2 ∨ covers l p.
Proof.
  unfold covers. setoid_rewrite elem_of_cons. split.
  - intros (x & [->|Hx] & Hp); [by left|right; eauto].
  - intros [Hp|(x & Hx & Hp)]; eauto.
Qed.


Lemma merge_from_covers rest cs ce p :
  Forall (λ sp : span, cs ≤ sp.1) rest →
  StronglySorted (λ a b : span, a.1 ≤ b.1) rest →
  covers (merge_from cs ce rest) p ↔ covers ((cs, ce) :: rest) p.
Proof.
  revert cs ce. induction rest as [|[s e] rest IH]; intros cs ce Hcs Hs; [done|].
  apply Forall_cons in Hcs as [Hcs1 Hcs]. apply StronglySorted_inv in Hs as [Hs Hs1].
  simpl in *. destruct (Nat.leb_spec s ce).
  - rewrite IH by done. rewrite !covers_cons. simpl. intuition lia.
  - rewrite covers_cons, IH by done. by rewrite !covers_cons.
Qed.

Lemma merge_spans_covers spans p : covers (merge_spans spans) p ↔ covers spans p.
Proof.
  unfold merge_spans. rewrite <-(covers_Permutation _ _ p (sorted_Permutation span_ltb spans)).
  pose proof (sorted_span_fst spans) as Hs.
  destruct (sorted span_ltb spans) as [|[s0 e0] rest]; [done|].
  apply StronglySorted_inv in Hs as [Hs Hs1]. by apply merge_from_covers.
Qed.

(** The first merged span starts at [current_start] and ends at or after
    [current_end]; the merged spans are apart. *)
Lemma merge_from_apart rest cs ce :
  cs < ce →
  Forall (λ sp : span, sp.1 < sp.2) rest →
  Forall (λ sp : span, cs ≤ sp.1) rest →
  StronglySorted (λ a b : span, a.1 ≤ b.1) rest →
  ∃ ce' tl, merge_from cs ce rest = (cs, ce') :: tl ∧ ce ≤ ce' ∧
            Forall (λ sp : span, ce' < sp.1) tl ∧ apart ((cs, ce') :: tl).
Proof.
  revert cs ce. induction rest as [|[s e] rest IH]; intros cs ce Hlt Hv Hcs Hs.
  - exists ce, []. repeat split; repeat constructor. done.
  - apply Forall_cons in Hv as [Hv1 Hv]. apply Forall_cons in Hcs as [Hcs1 Hcs].
    apply StronglySorted_inv in Hs as [Hs Hs1]. simpl in *.
    destruct (Nat.leb_spec s ce).
    + destruct (IH cs (ce `max` e)) as (ce' & tl & -> & Hle & Htl & Hap); try done; [lia|].
      exists ce', tl. repeat split; try done; try apply Hap. lia.
    + destruct (IH s e) as (e' & tl & -> & Hle & Htl & [Hap1 Hap2]); try done.
      exists ce, ((s, e') :: tl). split; [done|]. split; [done|].
      assert (Forall (λ sp : span, ce < sp.1) ((s, e') :: tl)) as Hall.
      { constructor; [done|]. eapply Forall_impl; [done|]. simpl. intros; lia. }
      split; [done|]. split; constructor; done.
Qed.

Lemma merge_spans_apart spans :
  Forall (λ sp : span, sp.1 < sp.2) spans → apart (merge_spans spans).
Proof.
  intros Hv. unfold merge_spans.
  rewrite <-(sorted_Permutation span_ltb spans) in Hv.
  pose proof (sorted_span_fst spans) as Hs.
  destruct (sorted span_ltb spans) as [|[s0 e0] rest]; [by split; constructor|].
  apply Forall_cons in Hv as [Hv1 Hv]. apply StronglySorted_inv in Hs as [Hs Hs1].
  destruct (merge_from_apart rest s0 e0) as (ce' & tl & -> & _ & _ & Hap); done.
Qed.

Lemma apart_end_uncovered l sp : apart l → sp ∈ l → ¬ covers l sp.2.
Proof.
  intros [Hv Hs] Hsp (x & Hx & Hp).
  apply list_elem_of_split in Hsp as (l1 & l2 & ->).
  apply StronglySorted_app in Hs as (H12 & Hs1 & Hs2).
  apply StronglySorted_inv in Hs2 as [Hs2 Hsp2].
  rewrite Forall_forall in Hv, Hsp2.
  apply elem_of_app in Hx as [Hx|Hx%elem_of_cons].
  - specialize (H12 x sp Hx). rewrite elem_of_cons in H12.
    specialize (H12 (or_introl eq_refl)). specialize (Hv sp).
    rewrite elem_of_app, elem_of_cons in Hv.
    specialize (Hv (or_intror (or_introl eq_refl))). lia.
  - destruct Hx as [->|Hx]; [lia|]. specialize (Hsp2 x Hx). lia.
Qed.

(** Any list of spans that covers the starts of spans that are apart, and
    none of their ends, has at least as many spans. *)
Lemma apart_minimal out l :
  apart out →
  (∀ sp, sp ∈ out → covers l sp.1) →
  (∀ sp, sp ∈ out → ¬ covers l sp.2) →
  length out ≤ length l.
Proof.
  revert l. induction out as [|sp out IH]; intros l [Hv Hs] Hin Hout; simpl; [lia|].
  apply Forall_cons in Hv as [Hv1 Hv]. apply StronglySorted_inv in Hs as [Hs Hsp].
  destruct (Hin sp) as (x & Hx & Hpx); [left|].
  apply elem_of_Permutation in Hx as [l' Hl'].
  rewrite Hl'; simpl. apply le_n_S, IH; [done|..].
  - intros sp' Hsp'. destruct (Hin sp') as (y & Hy & Hpy); [by right|].
    rewrite Hl' in Hy. apply elem_of_cons in Hy as [->|Hy]; [|by exists y].
    exfalso. apply (Hout sp); [left|]. exists x. split; [rewrite Hl'; left|].
    rewrite Forall_forall in Hsp. specialize (Hsp sp' Hsp'). lia.
  - intros sp' Hsp' (y & Hy & Hpy). apply (Hout sp'); [by right|].
    exists y. split; [rewrite Hl'; by right|done].
Qed.

Lemma merge_spans_minimal spans other :
  Forall (λ sp : span, sp.1 < sp.2) spans →
  (∀ p, covers other p ↔ covers spans p) →
  length (merge_spans spans) ≤ length other.
Proof.
  intros Hv Hcov. pose proof (merge_spans_apart spans Hv) as Hap.
  apply apart_minimal; [done|..].
  - intros sp Hsp. rewrite Hcov, <-merge_spans_covers. exists sp. split; [done|].
    destruct Hap as [Hap _]. rewrite Forall_forall in Hap. specialize (Hap sp Hsp). lia.
  - intros sp Hsp. rewrite Hcov, <-merge_spans_covers. by apply apart_end_uncovered.
Qed.

(** ** The output of [ansi_highlight] *)

Lemma slice_slice_drop (s : pystr) i j k :
  i ≤ j → j ≤ k → slice s i j ++ slice s j k ++ drop k s = drop i s.
Proof.
  intros Hij Hjk. unfold slice.
  assert (∀ a b, a ≤ b → take (b - a) (drop a s) ++ drop b s = drop a s) as Hcut.
  { intros a b Hab. rewrite <-(take_drop (b - a) (drop a s)) at 2.
    rewrite drop_drop. do 2 f_equal. lia. }
  by rewrite (Hcut j k), (Hcut i j).
Qed.

Lemma highlight_out_erase text merged i :
  apart merged → Forall (λ sp : span, i ≤ sp.1) merged →
  concat (erase <$> highlight_out text i merged) = drop i text.
Proof.
  revert i. induction merged as [|[s e] merged IH]; intros i [Hv Hs] Hi; simpl.
  - by rewrite app_nil_r.
  - apply Forall_cons in Hv as [Hv1 Hv]. apply Forall_cons in Hi as [Hi1 Hi].
    apply StronglySorted_inv in Hs as [Hs Hse]. simpl in *.
    rewrite IH.
    + apply slice_slice_drop; lia.
    + done.
    + eapply Forall_impl; [exact Hse|]. simpl. intros; lia.
Qed.

(** ** Removing the escape codes from the output string *)

Lemma strip_markers_start rest : strip_markers (HL_START ++ rest) = strip_markers rest.
Proof. reflexivity. Qed.

Lemma strip_markers_reset rest : strip_markers (HL_RESET ++ rest) = strip_markers rest.
Proof. reflexivity. Qed.

Lemma strip_markers_text t rest :
  ESC ∉ t → strip_markers (t ++ rest) = t ++ strip_markers rest.
Proof.
  unfold strip_markers. induction t as [|c t IH]; intros Hesc; [done|].
  apply not_elem_of_cons in Hesc as [Hc Hesc]. unfold ESC in Hc.
  cbn [app strip_markers_from]. rewrite !bool_decide_false.
  - by rewrite IH.
  - simpl. intros [= ? _]. done.
  - simpl. intros [= ? _]. done.
Qed.

Lemma not_elem_of_drop (s : pystr) c i : c ∉ s → c ∉ drop i s.
Proof.
  intros Hc Hin. apply Hc. eapply elem_of_submseteq; [done|apply submseteq_drop].
Qed.

Lemma not_elem_of_slice (s : pystr) c i j : c ∉ s → c ∉ slice s i j.
Proof.
  intros Hc Hin. apply (not_elem_of_drop s c i Hc). unfold slice in Hin.
  eapply elem_of_submseteq; [done|apply submseteq_take].
Qed.

Lemma strip_markers_highlight_out text merged i :
  ESC ∉ text →
  strip_markers (concat (render <$> highlight_out text i merged)) =
  concat (erase <$> highlight_out text i merged).
Proof.
  intros Hesc. revert i. induction merged as [|[s e] merged IH]; intros i.
  - simpl. rewrite !app_nil_r. rewrite <-(app_nil_r (slice_from text i)) at 1.
    rewrite strip_markers_text; [by rewrite app_nil_r|].
    by apply not_elem_of_drop.
  - cbn [highlight_out fmap list_fmap concat render erase].
    rewrite strip_markers_text by by apply not_elem_of_slice.
    rewrite strip_markers_start.
    rewrite strip_markers_text by by apply not_elem_of_slice.
    by rewrite strip_markers_reset, IH.
Qed.

(** C5: [find_spans] returns nothing for the empty pattern; for a non-empty
    pattern it returns the pair [(i, i + len(pattern))] exactly for the
    start indices [i] with [i + len(pattern) <= len(text)] at which the
    slice of the text equals the pattern, each once and in increasing
    order of [i], so overlapping occurrences are all there; on the two
    inputs of the specification it returns the two lists given there. *)
Theorem find_spans_spec :
  (∀ text, find_spans text [] = []) ∧
  (∀ text pattern s e, pattern ≠ [] →
     (s, e) ∈ find_spans text pattern ↔
       e = s + length pattern ∧ s + length pattern ≤ length text ∧
       slice text s (s + length pattern) = pattern) ∧
  (∀ text pattern, StronglySorted lt (find_spans text pattern).*1) ∧
  find_spans (py "aaa") (py "aa") = [(0, 2); (1, 3)] ∧
  find_spans (py "abc") (py "") = [].
Proof.
  split; [done|]. split; [apply elem_of_find_spans|].
  split; [apply find_spans_starts_sorted|]. split; reflexivity.
Qed.

Lemma find_spans_spec_witness :
  (0, 2) ∈ find_spans (py "aaa") (py "aa") ∧ (1, 3) ∈ find_spans (py "aaa") (py "aa").
Proof.
  destruct find_spans_spec as (_ & H & _).
  split; apply H; vm_compute; repeat split; done || lia.
Defined.

(** C6: The merge loop of [ansi_highlight] joins the next span to the current
    merged span exactly when its start is at most the current end, and
    otherwise closes the current span. For non-empty input spans the
    merged spans are ascending, pairwise non-overlapping and not touching;
    they cover exactly the character positions that the input covers; and
    no list of spans that covers the same positions is shorter. The merge
    of [(0,2),(2,4),(5,6)] is [(0,4),(5,6)], and of nothing is nothing. *)
Theorem merge_spans_spec :
  (∀ cs ce s e rest, s ≤ ce →
     merge_from cs ce ((s, e) :: rest) = merge_from cs (ce `max` e) rest) ∧
  (∀ cs ce s e rest, ce < s →
     merge_from cs ce ((s, e) :: rest) = (cs, ce) :: merge_from s e rest) ∧
  (∀ spans p, covers (merge_spans spans) p ↔ covers spans p) ∧
  (∀ spans, Forall (λ sp : span, sp.1 < sp.2) spans →
     apart (merge_spans spans) ∧
     ∀ other, (∀ p, covers other p ↔ covers spans p) →
              length (merge_spans spans) ≤ length other) ∧
  merge_spans [(0, 2); (2, 4); (5, 6)] = [(0, 4); (5, 6)] ∧
  merge_spans [] = [].
Proof.
  split; [|split; [|split; [|split; [|split; reflexivity]]]].
  - intros cs ce s e rest H. simpl. by destruct (Nat.leb_spec s ce); [|lia].
  - intros cs ce s e rest H. simpl. by destruct (Nat.leb_spec s ce); [lia|].
  - apply merge_spans_covers.
  - intros spans Hv. split; [by apply merge_spans_apart|].
    intros other. by apply merge_spans_minimal.
Qed.

Lemma merge_spans_spec_witness :
  merge_from 0 2 [(2, 4); (5, 6)] = merge_from 0 4 [(5, 6)] ∧
  merge_from 0 4 [(5, 6)] = [(0, 4); (5, 6)] ∧
  apart (merge_spans [(0, 2); (2, 4); (5, 6)]) ∧
  length (merge_spans [(0, 2); (2, 4); (5, 6)]) ≤ length [(5, 6); (0, 4)].
Proof.
  destruct merge_spans_spec as (H1 & H2 & H3 & H4 & _).
  assert (Forall (λ sp : span, sp.1 < sp.2) [(0, 2); (2, 4); (5, 6)]) as Hv.
  { repeat constructor. }
  split; [apply (H1 0 2 2 4 [(5, 6)]); lia|].
  split; [apply (H2 0 4 5 6 []); lia|].
  split; [apply (H4 _ Hv)|].
  apply (H4 _ Hv). intros p. rewrite <-(H3 [(0, 2); (2, 4); (5, 6)] p).
  change (merge_spans _) with [(0, 4); (5, 6)].
  apply covers_Permutation, Permutation_swap.
Defined.

(** C7: for spans that are valid for the text, overlapping or not, the
    output of [ansi_highlight] with the inserted escape codes deleted is
    the text; when the text itself has no escape character, removing the
    two escape codes from the output string gives the text; and without
    spans [ansi_highlight] returns the text. *)
Theorem ansi_highlight_round_trip :
  (∀ text spans, Forall (valid_span text) spans →
     ansi_highlight_erased text spans = text) ∧
  (∀ text spans, Forall (valid_span text) spans → ESC ∉ text →
     strip_markers (ansi_highlight text spans) = text) ∧
  (∀ text, ansi_highlight text [] = text).
Proof.
  assert (∀ text spans, Forall (valid_span text) spans →
            ansi_highlight_erased text spans = text) as Herased.
  { intros text spans Hv. unfold ansi_highlight_erased, ansi_highlight_out.
    destruct spans as [|sp spans]; [simpl; by rewrite app_nil_r|].
    rewrite highlight_out_erase; [done|..].
    - apply merge_spans_apart. eapply Forall_impl; [done|]. by intros ? [??].
    - apply Forall_forall. intros; lia. }
  split; [done|]. split.
  - intros text spans Hv Hesc. rewrite <-(Herased text spans Hv) at 2.
    unfold ansi_highlight, ansi_highlight_erased, ansi_highlight_out.
    destruct spans as [|sp spans]; [|by apply strip_markers_highlight_out].
    simpl. rewrite app_nil_r. rewrite <-(app_nil_r text) at 1.
    rewrite strip_markers_text by done. by rewrite app_nil_r.
  - intros text. unfold ansi_highlight. simpl. by rewrite app_nil_r.
Qed.

Lemma ansi_highlight_round_trip_witness :
  ansi_highlight_erased (py "abcdef") [(2, 5); (1, 3)] = py "abcdef" ∧
  strip_markers (ansi_highlight (py "abcdef") [(2, 5); (1, 3)]) = py "abcdef".
Proof.
  destruct ansi_highlight_round_trip as (H1 & H2 & _).
  assert (Forall (valid_span (py "abcdef")) [(2, 5); (1, 3)]) as Hv.
  { repeat constructor; vm_compute; lia. }
  split; [by apply H1|]. apply H2; [done|].
  apply (bool_decide_unpack _). vm_compute. exact I.
Defined.

(** ** The store *)

Lemma deref_insert_eq σ l v : l < length σ → deref (<[l := v]> σ) l = v.
Proof. intros Hl. unfold deref. by rewrite list_lookup_insert_eq. Qed.

Lemma deref_insert_ne σ l l' v : l ≠ l' → deref (<[l := v]> σ) l' = deref σ l'.
Proof. intros Hl. unfold deref. by rewrite list_lookup_insert_ne. Qed.

Lemma deref_app_l σ σ2 l : l < length σ → deref (σ ++ σ2) l = deref σ l.
Proof. intros Hl. unfold deref. by rewrite lookup_app_l. Qed.

Lemma deref_app_new σ v : deref (σ ++ [v]) (length σ) = v.
Proof. unfold deref. by rewrite list_lookup_middle. Qed.

(** Readings that only depend on the lists of the line matches. *)
Lemma total_spans_agree σ σ' lms :
  (∀ l, l ∈ lm_locs lms → deref σ' l = deref σ l) →
  total_spans σ' lms = total_spans σ lms.
Proof.
  unfold total_spans, lm_locs. induction lms as [|lm lms IH]; intros H; simpl; [done|].
  unfold spans_len at 1 3. rewrite H by (simpl; left). f_equal.
  apply IH. intros l Hl. apply H. simpl. by right.
Qed.

Lemma line_spans_agree σ σ' lms n :
  (∀ l, l ∈ lm_locs lms → deref σ' l = deref σ l) →
  line_spans σ' lms n = line_spans σ lms n.
Proof.
  unfold line_spans, lm_locs. induction lms as [|lm lms IH]; intros H; simpl; [done|].
  rewrite H by (simpl; left). f_equal.
  apply IH. intros l Hl. apply H. simpl. by right.
Qed.

Lemma count_ok_agree σ σ' r :
  (∀ l, l ∈ locs_of r → deref σ' l = deref σ l) → count_ok σ r → count_ok σ' r.
Proof. unfold count_ok, locs_of. intros H ->. by rewrite (total_spans_agree σ σ'). Qed.

Lemma total_spans_app σ l1 l2 :
  total_spans σ (l1 ++ l2) = total_spans σ l1 + total_spans σ l2.
Proof. unfold total_spans. apply sum_list_with_app. Qed.

Lemma line_spans_app σ l1 l2 n :
  line_spans σ (l1 ++ l2) n = line_spans σ l1 n ++ line_spans σ l2 n.
Proof. unfold line_spans. apply bind_app. Qed.

Lemma total_spans_Permutation σ l1 l2 :
  l1 ≡ₚ l2 → total_spans σ l1 = total_spans σ l2.
Proof. unfold total_spans. by intros ->. Qed.

Lemma line_spans_Permutation σ l1 l2 n :
  l1 ≡ₚ l2 → line_spans σ l1 n ≡ₚ line_spans σ l2 n.
Proof. unfold line_spans. by intros ->. Qed.

Lemma total_spans_cons σ lm lms :
  total_spans σ (lm :: lms) = length (deref σ (spans lm)) + total_spans σ lms.
Proof. done. Qed.

Lemma line_spans_cons σ lm lms n :
  line_spans σ (lm :: lms) n =
  (if decide (line_no lm = n) then deref σ (spans lm) else []) ++ line_spans σ lms n.
Proof. done. Qed.

(** [held.spans.extend(extra)] for one of the line matches, none of
    which shares its list with another. *)
Lemma extend_one σ lms held extra :
  NoDup (lm_locs lms) → held ∈ lms → spans held < length σ →
  let σ' := <[spans held := deref σ (spans held) ++ extra]> σ in
  total_spans σ' lms = total_spans σ lms + length extra ∧
  ∀ n, line_spans σ' lms n ≡ₚ
       line_spans σ lms n ++ (if decide (line_no held = n) then extra else []).
Proof.
  intros Hnd Hin Hlt σ'. induction lms as [|lm lms IH]; [by apply elem_of_nil in Hin|].
  unfold lm_locs in *. simpl in Hnd. apply NoDup_cons in Hnd as [Hlm Hnd].
  apply elem_of_cons in Hin as [->|Hin].
  - assert (∀ l, l ∈ lm_locs lms → deref σ' l = deref σ l) as Hag.
    { intros l Hl. apply deref_insert_ne. intros <-. done. }
    split.
    + rewrite !total_spans_cons, (total_spans_agree σ σ') by done.
      unfold σ'. rewrite deref_insert_eq by done. rewrite length_app. lia.
    + intros n. rewrite !line_spans_cons, (line_spans_agree σ σ') by done.
      unfold σ'. rewrite deref_insert_eq by done.
      destruct (decide (line_no lm = n)); simpl; [|by rewrite app_nil_r].
      rewrite <-!app_assoc. f_equiv. apply Permutation_app_comm.
  - destruct (IH Hnd Hin) as [IH1 IH2].
    assert (deref σ' (spans lm) = deref σ (spans lm)) as Hag.
    { apply deref_insert_ne. intros Heq. apply Hlm. rewrite <-Heq.
      by apply list_elem_of_fmap_2. }
    split.
    + rewrite !total_spans_cons, IH1, Hag. lia.
    + intros n. by rewrite !line_spans_cons, IH2, Hag, app_assoc.
Qed.

(** ** The dictionary of [combine_results] *)

Lemma dict_get_Some k d v : dict_get k d = Some v → (k, v) ∈ d.
Proof.
  induction d as [|[k' v'] d IH]; simpl; [done|].
  destruct (decide (k' = k)) as [->|]; [intros [= ->]; left|right; auto].
Qed.

Lemma dict_get_None k d : dict_get k d = None ↔ k ∉ d.*1.
Proof.
  induction d as [|[k' v'] d IH]; simpl; [by split; [intros _ ?%elem_of_nil|]|].
  rewrite not_elem_of_cons. destruct (decide (k' = k)) as [->|]; [by split; [|intros []]|].
  rewrite IH. by split; [|intros []].
Qed.

Lemma dict_set_new k v d : k ∉ d.*1 → dict_set k v d = d ++ [(k, v)].
Proof.
  induction d as [|[k' v'] d IH]; simpl; [done|].
  rewrite not_elem_of_cons. intros [Hne Hk].
  destruct (decide (k' = k)); [done|]. by rewrite IH.
Qed.

Lemma dict_ok_snoc d lm :
  dict_ok d → line_no lm ∉ d.*1 → dict_ok (d ++ [(line_no lm, lm)]).
Proof.
  intros [Hnd Hkv] Hk. split.
  - rewrite fmap_app. apply NoDup_app. split; [done|]. split; [|apply NoDup_singleton].
    simpl. intros k Hkd ->%list_elem_of_singleton. done.
  - apply Forall_app. split; [done|]. by repeat constructor.
Qed.

Lemma dict_ok_held d k held : dict_ok d → dict_get k d = Some held → line_no held = k.
Proof.
  intros [_ Hkv] Hg%dict_get_Some. rewrite Forall_forall in Hkv. apply (Hkv _ Hg).
Qed.

Lemma dict_by_line_no_from d lms :
  NoDup (d.*1 ++ lm_line_nos lms) →
  foldl (λ d lm, dict_set (line_no lm) lm d) d lms = d ++ ((λ lm, (line_no lm, lm)) <$> lms).
Proof.
  revert d. induction lms as [|lm lms IH]; intros d Hnd; simpl; [by rewrite app_nil_r|].
  unfold lm_line_nos in *. simpl in Hnd.
  apply NoDup_app in Hnd as (Hd & Hdl & Hl). apply NoDup_cons in Hl as [Hlm Hl].
  rewrite dict_set_new by (intros Hk; apply (Hdl _ Hk); left).
  rewrite IH; [by rewrite <-app_assoc|].
  rewrite fmap_app. simpl. apply NoDup_app. split; [|split; [|done]].
  - apply NoDup_app. split; [done|]. split; [|apply NoDup_singleton].
    intros k Hk ->%list_elem_of_singleton. apply (Hdl _ Hk). left.
  - intros k [Hk|Hk]%elem_of_app Hin.
    + apply (Hdl _ Hk). by right.
    + apply list_elem_of_singleton in Hk as ->. done.
Qed.

Lemma dict_by_line_no_NoDup lms :
  NoDup (lm_line_nos lms) →
  dict_by_line_no lms = (λ lm, (line_no lm, lm)) <$> lms.
Proof. intros Hnd. unfold dict_by_line_no. by rewrite dict_by_line_no_from. Qed.

Lemma dict_by_line_no_values lms :
  NoDup (lm_line_nos lms) → dict_values (dict_by_line_no lms) = lms.
Proof.
  intros Hnd. rewrite dict_by_line_no_NoDup by done. unfold dict_values.
  rewrite <-list_fmap_compose. induction lms; simpl; [done|].
  f_equal. apply IHlms. by apply NoDup_cons in Hnd as [??].
Qed.

Lemma dict_by_line_no_ok lms :
  NoDup (lm_line_nos lms) → dict_ok (dict_by_line_no lms).
Proof.
  intros Hnd. rewrite dict_by_line_no_NoDup by done. split.
  - rewrite <-list_fmap_compose. done.
  - apply Forall_fmap, Forall_forall. done.
Qed.

(** ** The loop over the line matches of the second result *)

Lemma merge_line_matches_cons lm lms2 d σ :
  merge_line_matches (lm :: lms2) d σ =
  match dict_get (line_no lm) d with
  | Some held =>
      merge_line_matches lms2 d (<[spans held := deref σ (spans held) ++ deref σ (spans lm)]> σ)
  | None => merge_line_matches lms2 (dict_set (line_no lm) (LineMatch_copy lm) d) σ
  end.
Proof. simpl. by destruct (dict_get (line_no lm) d). Qed.

Lemma merge_line_matches_spec lms2 d σ :
  dict_ok d →
  NoDup (lm_locs (dict_values d) ++ lm_locs lms2) →
  Forall (λ l, l < length σ) (lm_locs (dict_values d) ++ lm_locs lms2) →
  ∃ d' σ', merge_line_matches lms2 d σ = (d', σ') ∧
    dict_ok d' ∧
    length σ' = length σ ∧
    (∀ l, l ∉ lm_locs (dict_values d) ++ lm_locs lms2 → deref σ' l = deref σ l) ∧
    lm_locs (dict_values d') ⊆ lm_locs (dict_values d) ++ lm_locs lms2 ∧
    NoDup (lm_locs (dict_values d')) ∧
    text <$> dict_values d' ⊆ (text <$> dict_values d) ++ (text <$> lms2) ∧
    total_spans σ' (dict_values d') = total_spans σ (dict_values d) + total_spans σ lms2 ∧
    ∀ n, line_spans σ' (dict_values d') n ≡ₚ
         line_spans σ (dict_values d) n ++ line_spans σ lms2 n.
Proof.
  revert d σ. induction lms2 as [|lm lms2 IH]; intros d σ Hok Hnd Hlt.
  { exists d, σ. simpl. rewrite !app_nil_r.
    split; [done|]. split; [done|]. split; [done|]. split; [done|].
    split; [done|]. split; [by apply NoDup_app in Hnd as [??]|].
    split; [done|]. split; [change (total_spans σ []) with 0; lia|].
    intros n. change (line_spans σ [] n) with (@nil span). by rewrite app_nil_r. }
  unfold lm_locs in Hnd, Hlt. simpl in Hnd, Hlt.
  pose proof Hnd as Hnd0.
  apply NoDup_app in Hnd as (Hndd & Hdl & Hndl).
  apply NoDup_cons in Hndl as [Hlm Hndl].
  apply Forall_app in Hlt as [Hltd Hltl]. apply Forall_cons in Hltl as [Hltlm Hltl].
  rewrite merge_line_matches_cons.
  change (lm_locs (lm :: lms2)) with (spans lm :: lm_locs lms2).
  change (text <$> lm :: lms2) with (text lm :: (text <$> lms2)).
  destruct (dict_get (line_no lm) d) as [held|] eqn:Hget.
  - (* the line is there: its list is extended in place *)
    pose proof (dict_ok_held _ _ _ Hok Hget) as Hline.
    assert (held ∈ dict_values d) as Hheld.
    { apply dict_get_Some in Hget. unfold dict_values.
      apply list_elem_of_fmap. by exists (line_no lm, held). }
    assert (spans held ∈ lm_locs (dict_values d)) as Hloc
      by (by apply list_elem_of_fmap_2).
    assert (spans held < length σ) as Hhlt
      by (rewrite Forall_forall in Hltd; by apply Hltd).
    set (σ1 := <[spans held := deref σ (spans held) ++ deref σ (spans lm)]> σ).
    destruct (extend_one σ (dict_values d) held (deref σ (spans lm)) Hndd Hheld Hhlt)
      as [Htot Hls]. fold σ1 in Htot, Hls.
    assert (∀ l, l ∈ lm_locs lms2 → deref σ1 l = deref σ l) as Hag.
    { intros l Hl. apply deref_insert_ne. intros <-. apply (Hdl _ Hloc). by right. }
    destruct (IH d σ1) as (d' & σ' & Heq & Hok' & Hlen & Hfr & Hsub & Hnd' & Htx & Htot' & Hls').
    { done. }
    { apply NoDup_app. split; [done|]. split; [|done].
      intros l Hl Hl2. apply (Hdl _ Hl). by right. }
    { unfold σ1. rewrite length_insert. apply Forall_app. done. }
    exists d', σ'. split; [done|]. split; [done|].
    split; [by rewrite Hlen; unfold σ1; rewrite length_insert|].
    split; [|split; [|split; [done|split; [|split]]]].
    + intros l Hl. rewrite Hfr.
      * apply deref_insert_ne. intros <-. apply Hl. apply elem_of_app. by left.
      * intros Hl'. apply Hl. unfold lm_locs. simpl.
        apply elem_of_app in Hl' as [?|?]; apply elem_of_app; [by left|right; by right].
    + intros l Hl. apply Hsub in Hl. unfold lm_locs. simpl.
      apply elem_of_app in Hl as [?|?]; apply elem_of_app; [by left|right; by right].
    + intros t Ht. apply Htx in Ht. simpl.
      apply elem_of_app in Ht as [?|?]; apply elem_of_app; [by left|right; by right].
    + rewrite Htot', Htot, (total_spans_agree σ σ1 lms2), total_spans_cons by done. lia.
    + intros n. rewrite Hls', Hls, (line_spans_agree σ σ1 lms2), line_spans_cons by done.
      rewrite Hline. by rewrite <-!app_assoc.
  - (* a new line: a copy that shares the list is carried over *)
    apply dict_get_None in Hget.
    rewrite dict_set_new by done.
    set (d1 := d ++ [(line_no lm, LineMatch_copy lm)]).
    assert (dict_values d1 = dict_values d ++ [LineMatch_copy lm]) as Hval.
    { unfold d1, dict_values. by rewrite fmap_app. }
    assert (lm_locs (dict_values d1) = lm_locs (dict_values d) ++ [spans lm]) as Hlocs.
    { rewrite Hval. unfold lm_locs. by rewrite fmap_app. }
    destruct (IH d1 σ) as (d' & σ' & Heq & Hok' & Hlen & Hfr & Hsub & Hnd' & Htx & Htot' & Hls').
    { by apply (dict_ok_snoc d (LineMatch_copy lm)). }
    { rewrite Hlocs, <-app_assoc. done. }
    { rewrite Hlocs, <-app_assoc. apply Forall_app. split; [done|]. by constructor. }
    exists d', σ'. split; [done|]. split; [done|]. split; [done|].
    split; [|split; [|split; [done|split; [|split]]]].
    + intros l Hl. apply Hfr. by rewrite Hlocs, <-app_assoc.
    + intros l Hl. apply Hsub in Hl. by rewrite Hlocs, <-app_assoc in Hl.
    + intros t Ht. apply Htx in Ht. rewrite Hval, fmap_app, <-app_assoc in Ht. done.
    + rewrite Htot', Hval, total_spans_app, !total_spans_cons. simpl. lia.
    + intros n. rewrite Hls', Hval, line_spans_app, !line_spans_cons. simpl.
      change (line_spans σ [] n) with (@nil span). by rewrite app_nil_r, <-app_assoc.
Qed.

(** ** [combine_results] *)

Lemma dict_ok_line_nos d : dict_ok d → lm_line_nos (dict_values d) = d.*1.
Proof.
  intros [_ Hkv]. unfold lm_line_nos, dict_values.
  induction d as [|[k v] d IH]; [done|].
  apply Forall_cons in Hkv as [Hk Hd]. rewrite !fmap_cons. simpl in *.
  rewrite Hk. f_equal. by apply IH.
Qed.

Lemma strictly_sorted_line_nos lms :
  NoDup (lm_line_nos lms) → StronglySorted lt (lm_line_nos (sorted line_no_ltb lms)).
Proof.
  intros Hnd.
  assert (StronglySorted (λ x y, line_no x ≤ line_no y) (sorted line_no_ltb lms)) as Hs.
  { apply sorted_StronglySorted.
    - intros x y z ??. lia.
    - intros x y. unfold line_no_ltb. intros ?%Nat.ltb_lt. lia.
    - intros x y. unfold line_no_ltb. intros ?%Nat.ltb_ge. lia. }
  assert (NoDup (lm_line_nos (sorted line_no_ltb lms))) as Hnd'.
  { unfold lm_line_nos in *. by rewrite sorted_Permutation. }
  clear Hnd. unfold lm_line_nos in *.
  induction Hs as [|x l Hl IH Hx]; simpl in *; [constructor|].
  apply NoDup_cons in Hnd' as [Hx' Hnd']. constructor; [by apply IH|].
  apply Forall_fmap, Forall_forall. intros y Hy.
  rewrite Forall_forall in Hx. specialize (Hx y Hy). simpl.
  assert (line_no x ≠ line_no y); [|lia].
  intros Heq. apply Hx'. rewrite Heq. by apply list_elem_of_fmap_2.
Qed.

Lemma StronglySorted_lt_NoDup (l : list nat) : StronglySorted lt l → NoDup l.
Proof.
  induction 1 as [|x l Hl IH Hx]; constructor; [|done].
  intros Hin. rewrite Forall_forall in Hx. specialize (Hx x Hin). lia.
Qed.

Lemma owned_pair σ a b :
  owned σ [a; b] ↔
  NoDup (locs_of a ++ locs_of b) ∧ Forall (λ l, l < length σ) (locs_of a ++ locs_of b) ∧
  NoDup (line_nos a) ∧ NoDup (line_nos b).
Proof.
  unfold owned. simpl. rewrite !app_nil_r, !Forall_cons, Forall_nil. tauto.
Qed.

Lemma combine_results_eq a b σ :
  combine_results a b σ =
  let '(d, σ') := merge_line_matches (line_matches b) (dict_by_line_no (line_matches a)) σ in
  (new_SearchResult (title a) (sorted span_ltb (title_spans a ++ title_spans b))
                    (sorted line_no_ltb (dict_values d)) (matches a + matches b), σ').
Proof.
  unfold combine_results, mbind, M_bind, mret, M_ret. simpl.
  by destruct (merge_line_matches _ _ σ).
Qed.

Lemma combine_results_spec a b σ :
  owned σ [a; b] →
  ∃ c σ', combine_results a b σ = (c, σ') ∧
    title c = title a ∧
    matches c = matches a + matches b ∧
    title_spans c = sorted span_ltb (title_spans a ++ title_spans b) ∧
    length σ' = length σ ∧
    (∀ l, l ∉ locs_of a ++ locs_of b → deref σ' l = deref σ l) ∧
    locs_of c ⊆ locs_of a ++ locs_of b ∧
    NoDup (locs_of c) ∧
    StronglySorted lt (line_nos c) ∧
    total_spans σ' (line_matches c) =
      total_spans σ (line_matches a) + total_spans σ (line_matches b) ∧
    ∀ n, spans_at σ' c n ≡ₚ spans_at σ a n ++ spans_at σ b n.
Proof.
  intros (Hnd & Hlt & Hla & Hlb)%owned_pair. unfold locs_of, line_nos in *.
  rewrite combine_results_eq.
  destruct (merge_line_matches_spec (line_matches b) (dict_by_line_no (line_matches a)) σ)
    as (d' & σ' & -> & Hok' & Hlen & Hfr & Hsub & Hnd' & _ & Htot & Hls).
  { by apply dict_by_line_no_ok. }
  { by rewrite dict_by_line_no_values. }
  { by rewrite dict_by_line_no_values. }
  rewrite dict_by_line_no_values in Hfr, Hsub, Htot, Hls by done.
  eexists _, σ'. split; [done|]. simpl.
  split; [done|]. split; [done|]. split; [done|]. split; [done|]. split; [done|].
  unfold spans_at. simpl.
  split; [|split; [|split; [|split]]].
  - intros l Hl. apply Hsub. unfold lm_locs in *. by rewrite sorted_Permutation in Hl.
  - unfold lm_locs in *. by rewrite sorted_Permutation.
  - apply strictly_sorted_line_nos. rewrite dict_ok_line_nos by done. apply Hok'.
  - rewrite <-Htot. apply total_spans_Permutation, sorted_Permutation.
  - intros n. rewrite <-Hls. apply line_spans_Permutation, sorted_Permutation.
Qed.

Lemma combine_results_count_ok a b σ :
  owned σ [a; b] → count_ok σ a → count_ok σ b →
  count_ok (combine_results a b σ).2 (combine_results a b σ).1.
Proof.
  intros Hown Ha Hb.
  destruct (combine_results_spec a b σ Hown)
    as (c & σ' & -> & _ & Hm & Hts & _ & _ & _ & _ & _ & Htot & _).
  unfold count_ok in *. simpl. rewrite Hm, Hts, Htot, sorted_length, length_app, Ha, Hb. lia.
Qed.

(** ** [search_sonnet] *)

Section search_facts.
Variable lower : pystr → pystr.

Lemma search_lines_spec q lines idx σ :
  ∃ lms news, search_lines lower idx lines q σ = (lms, σ ++ news) ∧
    lm_locs lms = seq (length σ) (length news) ∧
    StronglySorted lt (lm_line_nos lms) ∧
    Forall (line_match_of lower idx lines q (σ ++ news)) lms.
Proof.
  revert idx σ. induction lines as [|line lines IH]; intros idx σ.
  { exists [], []. rewrite app_nil_r. repeat split; constructor. }
  simpl. destruct (find_spans (lower line) q) as [|sp found] eqn:Hfound.
  - destruct (IH (S idx) σ) as (lms & news & -> & Hlocs & Hs & Hall).
    exists lms, news. repeat split; try done.
    eapply Forall_impl; [done|]. intros lm (Hle & Hlk & Hd & Hne).
    split; [lia|]. split; [|done].
    replace (line_no lm - idx) with (S (line_no lm - S idx)) by lia. done.
  - unfold mbind, M_bind, new_list, mret, M_ret.
    destruct (IH (S idx) (σ ++ [sp :: found])) as (lms & news & -> & Hlocs & Hs & Hall).
    exists (new_LineMatch idx line (length σ) :: lms), ((sp :: found) :: news).
    rewrite length_app in Hlocs. simpl in Hlocs.
    split; [by rewrite <-app_assoc|]. split; [|split].
    + change (length σ :: lm_locs lms = seq (length σ) (S (length news))).
      rewrite Hlocs. simpl. do 2 f_equal. lia.
    + unfold lm_line_nos in *. simpl. constructor; [done|].
      apply Forall_fmap. eapply Forall_impl; [done|]. intros lm (Hle & _). simpl. lia.
    + rewrite <-app_assoc in Hall. simpl in Hall. constructor.
      * split; [simpl; lia|]. simpl. rewrite Nat.sub_diag. split; [done|].
        unfold deref. rewrite list_lookup_middle by done. simpl.
        rewrite Hfound. done.
      * eapply Forall_impl; [done|]. intros lm (Hle & Hlk & Hd & Hne).
        split; [lia|]. split; [|done].
        replace (line_no lm - idx) with (S (line_no lm - S idx)) by lia. done.
Qed.

Lemma search_sonnet_spec sonnet query σ :
  ∃ r news, search_sonnet lower sonnet query σ = (r, σ ++ news) ∧
    title r = sonnet_title sonnet ∧
    title_spans r = find_spans (lower (sonnet_title sonnet)) (lower query) ∧
    locs_of r = seq (length σ) (length news) ∧
    StronglySorted lt (line_nos r) ∧
    Forall (line_match_of lower 1 (sonnet_lines sonnet) (lower query) (σ ++ news))
           (line_matches r) ∧
    count_ok (σ ++ news) r.
Proof.
  unfold search_sonnet, mbind, M_bind, mret, M_ret, sum_spans_len.
  destruct (search_lines_spec (lower query) (sonnet_lines sonnet) 1 σ)
    as (lms & news & -> & Hlocs & Hs & Hall).
  eexists _, news. split; [done|]. repeat split; done.
Qed.

End search_facts.

(** ** Ownership of the span lists *)

Lemma owned_Permutation σ rs rs' : rs ≡ₚ rs' → owned σ rs → owned σ rs'.
Proof. unfold owned. by intros ->. Qed.

Lemma owned_app σ l1 l2 :
  owned σ (l1 ++ l2) ↔
  owned σ l1 ∧ owned σ l2 ∧ ∀ l, l ∈ l1 ≫= locs_of → l ∉ l2 ≫= locs_of.
Proof.
  unfold owned. rewrite bind_app, NoDup_app, !Forall_app. tauto.
Qed.

Lemma owned_length σ σ' rs : length σ' = length σ → owned σ rs → owned σ' rs.
Proof. unfold owned. by intros ->. Qed.

Lemma owned_single σ r :
  owned σ [r] ↔
  NoDup (locs_of r) ∧ Forall (λ l, l < length σ) (locs_of r) ∧ NoDup (line_nos r).
Proof.
  unfold owned. simpl. rewrite !app_nil_r, Forall_cons, Forall_nil. tauto.
Qed.

Lemma elem_of_locs_bind (rs : list SearchResult) r l :
  r ∈ rs → l ∈ locs_of r → l ∈ rs ≫= locs_of.
Proof. intros Hr Hl. apply list_elem_of_bind. by exists r. Qed.

Lemma acc_ok_agree mode σ σ' r :
  (∀ l, l ∈ locs_of r → deref σ' l = deref σ l) → acc_ok mode σ r → acc_ok mode σ' r.
Proof.
  intros Hag. destruct mode; simpl; [intros [?|?]; [left|by right]|];
    by apply (count_ok_agree σ σ').
Qed.

Lemma spans_at_agree σ σ' r n :
  (∀ l, l ∈ locs_of r → deref σ' l = deref σ l) → spans_at σ' r n = spans_at σ r n.
Proof. intros Hag. unfold spans_at. by apply line_spans_agree. Qed.

Lemma set_matches_same r : set_matches (matches r) r = r.
Proof. by destruct r. Qed.

(** ** One step of the query loop for one document *)

Lemma merge_one_spec mode c r σ :
  owned σ [c; r] → acc_ok mode σ c → count_ok σ r →
  ∃ c' σ', merge_one mode c r σ = (c', σ') ∧
    length σ' = length σ ∧
    (∀ l, l ∉ locs_of c ++ locs_of r → deref σ' l = deref σ l) ∧
    locs_of c' ⊆ locs_of c ++ locs_of r ∧
    owned σ' [c'] ∧
    acc_ok mode σ' c' ∧
    merged mode σ c r σ' c'.
Proof.
  intros Hown Hc Hr.
  assert (combines mode c r = true →
    ∃ c' σ', combine_results c r σ = (c', σ') ∧
      length σ' = length σ ∧
      (∀ l, l ∉ locs_of c ++ locs_of r → deref σ' l = deref σ l) ∧
      locs_of c' ⊆ locs_of c ++ locs_of r ∧
      owned σ' [c'] ∧ acc_ok mode σ' c' ∧ merged mode σ c r σ' c') as Hcomb.
  { intros Hgate.
    assert (count_ok σ c) as Hc'.
    { destruct mode; [|done]. destruct Hc as [?|Hz]; [done|].
      simpl in Hgate. rewrite Hz in Hgate. done. }
    pose proof (combine_results_count_ok c r σ Hown Hc' Hr) as Hcnt.
    destruct (combine_results_spec c r σ Hown)
      as (c' & σ' & Heq & Ht & Hm & Hts & Hlen & Hfr & Hsub & Hnd & Hs & Htot & Hls).
    rewrite Heq in Hcnt. simpl in Hcnt.
    exists c', σ'. split; [done|]. split; [done|]. split; [done|]. split; [done|].
    split; [|split].
    - apply owned_single. split; [done|]. split; [|by apply StronglySorted_lt_NoDup].
      apply owned_pair in Hown as (_ & Hlt & _). rewrite Hlen.
      rewrite Forall_forall in *. auto.
    - destruct mode; simpl; [by left|done].
    - unfold merged. rewrite Hgate. done. }
  destruct mode; simpl in *; [|by apply Hcomb].
  destruct ((0 <? matches c) && (0 <? matches r)) eqn:Hgate; [by apply Hcomb|].
  exists (set_matches 0 c), σ. split; [done|]. split; [done|]. split; [done|].
  apply owned_pair in Hown as (Hnd & Hlt & Hlc & Hlr).
  split; [|split; [|split]].
  - intros l Hl. apply elem_of_app. by left.
  - apply owned_single. apply NoDup_app in Hnd as (? & _). apply Forall_app in Hlt as [? _]. done.
  - by right.
  - unfold merged. simpl. rewrite Hgate. done.
Qed.

Lemma merged_post mode σ c r σ1 σ' c' :
  merged mode σ c r σ1 c' →
  (∀ l, l ∈ locs_of c' ++ locs_of c → deref σ' l = deref σ1 l) →
  merged mode σ c r σ' c'.
Proof.
  unfold merged. intros Hm Hag. destruct (combines mode c r).
  - destruct Hm as (Ht & Hmt & Hts & Hls). repeat split; try done.
    intros n. rewrite <-Hls. rewrite (spans_at_agree σ1 σ'); [done|].
    intros l Hl. apply Hag, elem_of_app. by left.
  - destruct Hm as [-> Hsame]. split; [done|].
    intros l Hl. rewrite <-Hsame by done. apply Hag, elem_of_app. by right.
Qed.

Lemma merged_pre mode σ σ1 c r σ' c' :
  merged mode σ1 c r σ' c' →
  (∀ l, l ∈ locs_of c ++ locs_of r → deref σ1 l = deref σ l) →
  merged mode σ c r σ' c'.
Proof.
  unfold merged. intros Hm Hag. destruct (combines mode c r).
  - destruct Hm as (Ht & Hmt & Hts & Hls). repeat split; try done.
    intros n. rewrite Hls. f_equiv.
    + rewrite (spans_at_agree σ σ1); [done|]. intros l Hl. apply Hag, elem_of_app. by left.
    + rewrite (spans_at_agree σ σ1); [done|]. intros l Hl. apply Hag, elem_of_app. by right.
  - destruct Hm as [-> Hsame]. split; [done|].
    intros l Hl. rewrite Hsame by done. apply Hag, elem_of_app. by left.
Qed.

(** ** One word of the query loop, for all documents *)

Lemma merge_zip_cons mode c cs r rs σ :
  merge_zip mode (c :: cs) (r :: rs) σ =
  let '(c', σ1) := merge_one mode c r σ in
  let '(cs', σ') := merge_zip mode cs rs σ1 in
  (c' :: cs', σ').
Proof.
  simpl. unfold mbind, M_bind, mret, M_ret.
  destruct (merge_one mode c r σ) as [c' σ1]. by destruct (merge_zip mode cs rs σ1).
Qed.

Lemma merge_zip_spec mode cs rs σ :
  length cs = length rs →
  owned σ (cs ++ rs) →
  Forall (acc_ok mode σ) cs →
  Forall (count_ok σ) rs →
  ∃ cs' σ', merge_zip mode cs rs σ = (cs', σ') ∧
    length cs' = length cs ∧
    length σ' = length σ ∧
    (∀ l, l ∉ (cs ++ rs) ≫= locs_of → deref σ' l = deref σ l) ∧
    (cs' ≫= locs_of) ⊆ (cs ++ rs) ≫= locs_of ∧
    owned σ' cs' ∧
    Forall (acc_ok mode σ') cs' ∧
    ∀ i c r, cs !! i = Some c → rs !! i = Some r →
             ∃ c', cs' !! i = Some c' ∧ merged mode σ c r σ' c'.
Proof.
  revert rs σ. induction cs as [|c cs IH]; intros [|r rs] σ Hlen Hown Hcs Hrs; try done.
  { exists [], σ. repeat split; try done; try constructor. }
  simpl in Hlen. apply Nat.succ_inj in Hlen.
  apply Forall_cons in Hcs as [Hc Hcs]. apply Forall_cons in Hrs as [Hr Hrs].
  assert ((c :: cs) ++ r :: rs ≡ₚ [c; r] ++ (cs ++ rs)) as Hperm.
  { simpl. by rewrite <-Permutation_middle. }
  assert (∀ l, l ∈ ((c :: cs) ++ r :: rs) ≫= locs_of ↔
               l ∈ locs_of c ++ locs_of r ∨ l ∈ (cs ++ rs) ≫= locs_of) as Hmem.
  { intros l. rewrite Hperm, bind_app, elem_of_app. simpl. by rewrite app_nil_r. }
  apply (owned_Permutation _ _ _ Hperm) in Hown.
  apply owned_app in Hown as (Hown1 & Hown2 & Hdis).
  assert (∀ l, l ∈ locs_of c ++ locs_of r → l ∉ (cs ++ rs) ≫= locs_of) as Hdis1.
  { intros l Hl. apply Hdis. simpl. by rewrite app_nil_r. }
  assert (∀ l, l ∈ (cs ++ rs) ≫= locs_of → l ∉ locs_of c ++ locs_of r) as Hdis2.
  { intros l Hl Hl'. by apply (Hdis1 l). }
  destruct (merge_one_spec mode c r σ Hown1 Hc Hr)
    as (c1 & σ1 & Heq1 & Hlen1 & Hfr1 & Hsub1 & Hown1' & Hok1 & Hm1).
  assert (∀ x l, x ∈ cs ++ rs → l ∈ locs_of x → deref σ1 l = deref σ l) as Hag1.
  { intros x l Hx Hl. apply Hfr1, Hdis2. by apply (elem_of_locs_bind _ x). }
  destruct (IH rs σ1) as (cs' & σ' & Heq & Hlen' & Hlens & Hfr & Hsub & Hown' & Hok' & Hpt).
  { done. }
  { by apply (owned_length σ). }
  { rewrite Forall_forall in *. intros x Hx. apply (acc_ok_agree mode σ); [|by apply Hcs].
    intros l Hl. apply (Hag1 x); [|done]. apply elem_of_app. by left. }
  { rewrite Forall_forall in *. intros x Hx. apply (count_ok_agree σ); [|by apply Hrs].
    intros l Hl. apply (Hag1 x); [|done]. apply elem_of_app. by right. }
  assert (∀ l, l ∈ locs_of c ++ locs_of r → deref σ' l = deref σ1 l) as Hag'.
  { intros l Hl. by apply Hfr, Hdis1. }
  exists (c1 :: cs'), σ'. rewrite merge_zip_cons, Heq1, Heq.
  split; [done|]. split; [by simpl; rewrite Hlen'|]. split; [by rewrite Hlens|].
  split; [|split; [|split; [|split]]].
  - intros l Hl. rewrite Hmem in Hl. rewrite Hfr by tauto. apply Hfr1. tauto.
  - intros l Hl. rewrite Hmem. simpl in Hl. apply elem_of_app in Hl as [Hl|Hl]; [left|right]; auto.
  - change (c1 :: cs') with ([c1] ++ cs'). apply owned_app.
    split; [by apply (owned_length σ1)|]. split; [done|].
    simpl. intros l Hl Hl'. rewrite app_nil_r in Hl.
    by apply (Hdis1 l); [apply Hsub1|apply Hsub].
  - constructor; [|done]. apply (acc_ok_agree mode σ1); [|done].
    intros l Hl. by apply Hag', Hsub1.
  - intros [|i] c0 r0 Hc0 Hr0; simpl in *.
    + injection Hc0 as <-. injection Hr0 as <-. exists c1. split; [done|].
      apply (merged_post _ _ _ _ σ1); [done|].
      intros l [Hl|Hl]%elem_of_app; apply Hag'; [by apply Hsub1|].
      apply elem_of_app. by left.
    + destruct (Hpt i c0 r0 Hc0 Hr0) as (c' & Hc' & Hm). exists c'. split; [done|].
      apply (merged_pre _ _ σ1); [done|].
      intros l [Hl|Hl]%elem_of_app.
      * apply (Hag1 c0); [|done]. apply elem_of_app. left. by eapply list_elem_of_lookup_2.
      * apply (Hag1 r0); [|done]. apply elem_of_app. right. by eapply list_elem_of_lookup_2.
Qed.

(** ** The loop over the indices is the loop over the pairs *)

Lemma for_each_app {I S} (body : I → S → option S) l1 l2 st :
  for_each body (l1 ++ l2) st = for_each body l1 st ≫= for_each body l2.
Proof.
  revert st. induction l1 as [|i l1 IH]; intros st; simpl; [done|].
  destruct (body i st); simpl; [apply IH|done].
Qed.

Lemma merge_at_eq mode results i cs σ c r :
  cs !! i = Some c → results !! i = Some r →
  merge_at mode results i (cs, σ) =
  Some (<[i := (merge_one mode c r σ).1]> cs, (merge_one mode c r σ).2).
Proof.
  intros Hc Hr. unfold merge_at. rewrite Hc, Hr. simpl.
  destruct mode; simpl.
  - destruct ((0 <? matches c) && (0 <? matches r)); [|done].
    by destruct (combine_results c r σ).
  - by destruct (combine_results c r σ).
Qed.

Lemma merge_loop_zip_from mode suf : ∀ pre rpre rsuf σ,
  length pre = length rpre → length suf = length rsuf →
  for_each (merge_at mode (rpre ++ rsuf)) (seq (length pre) (length suf)) (pre ++ suf, σ) =
  Some (pre ++ (merge_zip mode suf rsuf σ).1, (merge_zip mode suf rsuf σ).2).
Proof.
  induction suf as [|c suf IH]; intros pre rpre [|r rsuf] σ Hpre Hsuf; try done.
  simpl in Hsuf. apply Nat.succ_inj in Hsuf.
  cbn [length seq for_each].
  rewrite (merge_at_eq _ _ _ _ _ c r).
  - rewrite merge_zip_cons.
    destruct (merge_one mode c r σ) as [c' σ1] eqn:Hone.
    cbn [mbind option_bind fst snd].
    replace (<[length pre := c']> (pre ++ c :: suf)) with (pre ++ c' :: suf).
    2:{ by rewrite <-(Nat.add_0_r (length pre)), insert_app_r. }
    specialize (IH (pre ++ [c']) (rpre ++ [r]) rsuf σ1).
    rewrite !length_app, <-!app_assoc in IH. simpl in IH.
    rewrite Nat.add_1_r in IH. rewrite IH by (done || lia).
    by destruct (merge_zip mode suf rsuf σ1).
  - by apply list_lookup_middle.
  - by apply list_lookup_middle.
Qed.

Lemma merge_loop_zip mode results cs σ :
  length cs = length results →
  for_each (merge_at mode results) (py_range (Z.of_nat (length cs))) (cs, σ) =
  Some (merge_zip mode cs results σ).
Proof.
  intros Hlen. unfold py_range. rewrite Nat2Z.id.
  pose proof (merge_loop_zip_from mode cs [] [] results σ eq_refl Hlen) as H.
  simpl in H. rewrite H. by destruct (merge_zip mode cs results σ).
Qed.

(** ** The results of one word *)

Section engine_facts.
Variable lower : pystr → pystr.

Lemma search_all_spec sonnets word σ :
  ∃ rs news, search_all lower sonnets word σ = (rs, σ ++ news) ∧
    length rs = length sonnets ∧
    rs ≫= locs_of = seq (length σ) (length news) ∧
    Forall (λ r, StronglySorted lt (line_nos r)) rs ∧
    Forall (count_ok (σ ++ news)) rs.
Proof.
  revert σ. induction sonnets as [|s sonnets IH]; intros σ.
  { exists [], []. rewrite app_nil_r. repeat split; constructor. }
  simpl. unfold mbind, M_bind, mret, M_ret.
  destruct (search_sonnet_spec lower s word σ)
    as (r & news1 & -> & _ & _ & Hlocs1 & Hs1 & _ & Hcnt1).
  destruct (IH (σ ++ news1)) as (rs & news2 & -> & Hlen & Hlocs & Hs & Hcnt).
  exists (r :: rs), (news1 ++ news2). rewrite <-app_assoc.
  split; [done|]. split; [by simpl; rewrite Hlen|]. rewrite length_app in Hlocs.
  split; [|split].
  - by rewrite bind_cons, Hlocs1, Hlocs, length_app, seq_app.
  - by constructor.
  - rewrite <-app_assoc in Hcnt. constructor; [|done].
    apply (count_ok_agree (σ ++ news1)); [|done].
    intros l Hl. rewrite Hlocs1 in Hl. apply elem_of_seq in Hl.
    rewrite (app_assoc σ news1 news2). apply deref_app_l. rewrite length_app. lia.
Qed.

Lemma owned_fresh σ accs rs news :
  owned σ accs →
  rs ≫= locs_of = seq (length σ) (length news) →
  Forall (λ r, StronglySorted lt (line_nos r)) rs →
  owned (σ ++ news) (accs ++ rs).
Proof.
  intros (Hnd & Hlt & Hln) Hlocs Hs. apply owned_app. split; [|split].
  - split; [done|]. split; [|done]. eapply Forall_impl; [done|].
    simpl. intros l ?. rewrite length_app. lia.
  - split; [rewrite Hlocs; apply NoDup_seq|]. split.
    + rewrite Hlocs. apply Forall_forall. intros l Hl%elem_of_seq. rewrite length_app. lia.
    + eapply Forall_impl; [done|]. intros r. apply StronglySorted_lt_NoDup.
  - intros l Hl. rewrite Hlocs. intros Hl'%elem_of_seq.
    rewrite Forall_forall in Hlt. specialize (Hlt l Hl). lia.
Qed.
End engine_facts.

(** ** What a search holds, read off the document *)

Lemma deref_new (σ : store) v news : deref ((σ ++ [v]) ++ news) (length σ) = v.
Proof.
  rewrite deref_app_l by (rewrite length_app; simpl; lia). apply deref_app_new.
Qed.

Section search_view.
Variable lower : pystr → pystr.

Lemma search_lines_view q lines idx σ n :
  line_spans (search_lines lower idx lines q σ).2 (search_lines lower idx lines q σ).1 n =
  if decide (idx ≤ n) then
    match lines !! (n - idx) with
    | Some line => find_spans (lower line) q
    | None => []
    end
  else [].
Proof.
  revert idx σ. induction lines as [|line lines IH]; intros idx σ.
  { simpl. by destruct (decide (idx ≤ n)). }
  specialize (IH (S idx)).
  assert (∀ rest : list span,
    (if decide (idx = n) then find_spans (lower line) q else []) ++
    (if decide (S idx ≤ n) then
       match lines !! (n - S idx) with
       | Some line' => find_spans (lower line') q
       | None => []
       end
     else []) =
    if decide (idx ≤ n) then
      match (line :: lines) !! (n - idx) with
      | Some line' => find_spans (lower line') q
      | None => []
      end
    else []) as Hcase.
  { intros _. destruct (decide (idx = n)) as [->|Hne].
    - rewrite decide_False by lia. rewrite decide_True by lia.
      rewrite Nat.sub_diag. simpl. by rewrite app_nil_r.
    - destruct (decide (S idx ≤ n)).
      + rewrite decide_True by lia.
        by replace (n - idx) with (S (n - S idx)) by lia.
      + by rewrite decide_False by lia. }
  simpl. destruct (find_spans (lower line) q) as [|sp found] eqn:Hfound.
  - rewrite IH. rewrite <-(Hcase []). by destruct (decide (idx = n)).
  - unfold mbind, M_bind, new_list, mret, M_ret.
    specialize (IH (σ ++ [sp :: found])).
    destruct (search_lines_spec lower q lines (S idx) (σ ++ [sp :: found]))
      as (lms & news & Heq & _). rewrite Heq in IH |- *. cbn [fst snd] in IH |- *.
    rewrite line_spans_cons, IH. cbn [line_no spans].
    rewrite <-(Hcase []). f_equal.
    destruct (decide (idx = n)); [|done]. apply deref_new.
Qed.

Lemma search_lines_total q lines idx σ :
  total_spans (search_lines lower idx lines q σ).2 (search_lines lower idx lines q σ).1 =
  sum_list_with (λ line, length (find_spans (lower line) q)) lines.
Proof.
  revert idx σ. induction lines as [|line lines IH]; intros idx σ; [done|].
  simpl. destruct (find_spans (lower line) q) as [|sp found] eqn:Hfound.
  - by rewrite IH.
  - unfold mbind, M_bind, new_list, mret, M_ret.
    specialize (IH (S idx) (σ ++ [sp :: found])).
    destruct (search_lines_spec lower q lines (S idx) (σ ++ [sp :: found]))
      as (lms & news & Heq & _). rewrite Heq in IH |- *. cbn [fst snd] in IH |- *.
    rewrite total_spans_cons, IH. cbn [spans]. simpl sum_list_with. f_equal.
    by rewrite deref_new.
Qed.

Lemma search_sonnet_view sonnet word σ :
  found_in lower sonnet word (search_sonnet lower sonnet word σ).2
           (search_sonnet lower sonnet word σ).1.
Proof.
  pose proof (search_lines_view (lower word) (sonnet_lines sonnet) 1 σ) as Hview.
  pose proof (search_lines_total (lower word) (sonnet_lines sonnet) 1 σ) as Htot.
  unfold search_sonnet, mbind, M_bind, mret, M_ret, sum_spans_len.
  destruct (search_lines lower 1 (sonnet_lines sonnet) (lower word) σ) as [lms σ'].
  simpl in *. split; [done|]. split; [done|]. split.
  - unfold doc_matches. by rewrite <-Htot.
  - intros n. unfold spans_at. simpl. rewrite Hview. unfold doc_line_spans.
    destruct n as [|j]; [done|]. rewrite decide_True by lia.
    by rewrite Nat.sub_succ, Nat.sub_0_r.
Qed.

Lemma found_in_agree sonnet word σ σ' r :
  (∀ l, l ∈ locs_of r → deref σ' l = deref σ l) →
  found_in lower sonnet word σ r → found_in lower sonnet word σ' r.
Proof.
  intros Hag (Ht & Hts & Hm & Hls). repeat split; try done.
  intros n. by rewrite (spans_at_agree σ σ').
Qed.

Lemma search_all_view sonnets word σ i s :
  sonnets !! i = Some s →
  ∃ r, (search_all lower sonnets word σ).1 !! i = Some r ∧
       found_in lower s word (search_all lower sonnets word σ).2 r.
Proof.
  revert σ i. induction sonnets as [|s0 sonnets IH]; intros σ i Hi; [done|].
  simpl. unfold mbind, M_bind, mret, M_ret.
  pose proof (search_sonnet_view s0 word σ) as Hv0.
  destruct (search_sonnet_spec lower s0 word σ) as (r0 & news1 & Heq0 & _ & _ & Hlocs0 & _).
  rewrite Heq0 in Hv0 |- *. simpl in Hv0.
  destruct (search_all_spec lower sonnets word (σ ++ news1)) as (rs & news2 & Heq & _).
  specialize (IH (σ ++ news1)). rewrite Heq in IH |- *. simpl in IH |- *.
  destruct i as [|i]; simpl in *.
  - injection Hi as <-. exists r0. split; [done|].
    apply (found_in_agree _ _ (σ ++ news1)); [|done].
    intros l Hl. rewrite Hlocs0 in Hl. apply elem_of_seq in Hl.
    apply deref_app_l. rewrite length_app. lia.
  - by apply IH.
Qed.
End search_view.

(** ** The query loop *)

Lemma count_ok_acc_ok mode σ r : count_ok σ r → acc_ok mode σ r.
Proof. destruct mode; simpl; [by left|done]. Qed.

Lemma owned_nil σ : owned σ [].
Proof. repeat split; constructor. Qed.

Lemma owned_deref_app σ news accs c l :
  owned σ accs → c ∈ accs → l ∈ locs_of c → deref (σ ++ news) l = deref σ l.
Proof.
  intros (_ & Hlt & _) Hc Hl. apply deref_app_l.
  rewrite Forall_forall in Hlt. apply Hlt. by apply (elem_of_locs_bind _ c).
Qed.

Section query_facts.
Variable lower : pystr → pystr.

Lemma query_word_spec mode sonnets word accs σ :
  accs = [] ∨ engine_inv mode sonnets σ accs →
  ∃ accs' σ', query_word lower mode sonnets word (accs, σ) = Some (accs', σ') ∧
    engine_inv mode sonnets σ' accs' ∧
    (accs = [] → ∀ i s, sonnets !! i = Some s →
       ∃ r, accs' !! i = Some r ∧ found_in lower s word σ' r) ∧
    ∀ i c, accs !! i = Some c →
      ∃ r σm c', (∀ l, l ∈ locs_of c → deref σm l = deref σ l) ∧
                 (∀ s, sonnets !! i = Some s → found_in lower s word σm r) ∧
                 accs' !! i = Some c' ∧ merged mode σm c r σ' c'.
Proof.
  intros Hinv. unfold query_word.
  pose proof (search_all_view lower sonnets word σ) as Hview.
  destruct (search_all_spec lower sonnets word σ)
    as (rs & news & Heqs & Hlen & Hlocs & Hs & Hcnt).
  rewrite Heqs in Hview |- *. cbn [fst snd] in Hview.
  destruct accs as [|a accs0].
  { exists rs, (σ ++ news). split; [done|]. split; [|done].
    split; [done|]. split.
    - apply (owned_fresh σ [] rs news); [apply owned_nil|done..].
    - eapply Forall_impl; [done|]. apply count_ok_acc_ok. }
  destruct Hinv as [|(Hla & Hown & Hok)]; [done|].
  set (accs := a :: accs0) in *.
  rewrite merge_loop_zip by congruence.
  destruct (merge_zip_spec mode accs rs (σ ++ news))
    as (cs' & σ' & -> & Hlen' & Hlens & Hfr & Hsub & Hown' & Hok' & Hpt).
  { congruence. }
  { by apply owned_fresh. }
  { rewrite Forall_forall in *. intros c Hc.
    apply (acc_ok_agree mode σ); [|by apply Hok].
    intros l Hl. by apply (owned_deref_app _ _ accs c). }
  { done. }
  exists cs', σ'. split; [done|]. split; [split; [congruence|done]|].
  split; [done|]. intros i c Hc.
  destruct (lookup_lt_is_Some_2 rs i) as [r Hr].
  { rewrite Hlen, <-Hla. by eapply lookup_lt_Some. }
  destruct (Hpt i c r Hc Hr) as (c' & Hc' & Hm).
  exists r, (σ ++ news), c'. split; [|split; [|done]].
  - intros l Hl. apply (owned_deref_app _ _ accs c); [done| |done].
    by eapply list_elem_of_lookup_2.
  - intros s Hsi. destruct (Hview i s Hsi) as (r' & Hr' & Hf). congruence.
Qed.

(** The loop over the words runs to the end, and keeps the state in
    order. *)
Lemma query_words_spec mode sonnets words accs σ :
  accs = [] ∨ engine_inv mode sonnets σ accs →
  ∃ accs' σ', for_each (query_word lower mode sonnets) words (accs, σ) = Some (accs', σ') ∧
    (words = [] ∧ accs' = accs ∧ σ' = σ ∨ engine_inv mode sonnets σ' accs').
Proof.
  revert accs σ. induction words as [|w words IH]; intros accs σ Hinv.
  { exists accs, σ. split; [done|]. by left. }
  destruct (query_word_spec mode sonnets w accs σ Hinv) as (accs1 & σ1 & Heq & Hinv1 & _).
  destruct (IH accs1 σ1 (or_intror Hinv1)) as (accs' & σ' & Heq' & Hinv').
  exists accs', σ'. cbn [for_each]. rewrite Heq. split; [done|]. right.
  by destruct Hinv' as [(-> & -> & ->)|?].
Qed.

(** Under AND, an accumulator with no matches stays as it is, and so
    do its span lists. *)
Lemma query_words_gated sonnets words accs σ i c :
  engine_inv AND sonnets σ accs → accs !! i = Some c → matches c = 0 →
  ∃ accs' σ', for_each (query_word lower AND sonnets) words (accs, σ) = Some (accs', σ') ∧
    accs' !! i = Some c ∧ ∀ l, l ∈ locs_of c → deref σ' l = deref σ l.
Proof.
  revert accs σ. induction words as [|w words IH]; intros accs σ Hinv Hc Hz.
  { by exists accs, σ. }
  destruct (query_word_spec AND sonnets w accs σ (or_intror Hinv))
    as (accs1 & σ1 & Heq & Hinv1 & _ & Hpt).
  destruct (Hpt i c Hc) as (r & σm & c' & Hpre & _ & Hc' & Hm).
  unfold merged in Hm. simpl in Hm. rewrite Hz in Hm. simpl in Hm.
  destruct Hm as [-> Hsame]. rewrite <-Hz, set_matches_same in Hc'.
  destruct (IH accs1 σ1 Hinv1 Hc' Hz) as (accs' & σ' & Heq' & Hc'' & Hsame').
  exists accs', σ'. cbn [for_each]. rewrite Heq. split; [done|]. split; [done|].
  intros l Hl. by rewrite Hsame', Hsame, Hpre.
Qed.
End query_facts.

(** * The invariant of the match count *)

Lemma query_evaluation_inv lower mode sonnets words σ0 :
  ∃ accs σ, query_evaluation lower mode sonnets words σ0 = Some (accs, σ) ∧
    (accs = [] ∨ engine_inv mode sonnets σ accs).
Proof.
  unfold query_evaluation.
  destruct (query_words_spec lower mode sonnets words [] σ0 (or_introl eq_refl))
    as (accs & σ & -> & Hinv).
  exists accs, σ. split; [done|]. destruct Hinv as [(_ & -> & _)|Hinv]; auto.
Qed.

(** C1: The match count equals the number of title spans plus the number of
    spans of all line matches: in the result of [search_sonnet]; in the
    result of [combine_results] for two results that satisfy it and own
    their span lists; and, under OR, in every accumulator after every word
    of the query loop. Under AND it holds in every accumulator that has
    matches; the other accumulators have the count zero. *)
Theorem count_invariant (lower : pystr → pystr) :
  (∀ sonnet query σ,
     count_ok (search_sonnet lower sonnet query σ).2
              (search_sonnet lower sonnet query σ).1) ∧
  (∀ a b σ, owned σ [a; b] → count_ok σ a → count_ok σ b →
     count_ok (combine_results a b σ).2 (combine_results a b σ).1) ∧
  (∀ sonnets words σ0, ∃ accs σ,
     query_evaluation lower OR sonnets words σ0 = Some (accs, σ) ∧
     Forall (count_ok σ) accs) ∧
  (∀ sonnets words σ0, ∃ accs σ,
     query_evaluation lower AND sonnets words σ0 = Some (accs, σ) ∧
     Forall (λ r, count_ok σ r ∨ matches r = 0) accs).
Proof.
  split; [|split; [|split]].
  - intros sonnet query σ.
    by destruct (search_sonnet_spec lower sonnet query σ)
      as (r & news & -> & _ & _ & _ & _ & _ & ?).
  - apply combine_results_count_ok.
  - intros sonnets words σ0.
    destruct (query_evaluation_inv lower OR sonnets words σ0)
      as (accs & σ & -> & [->|(_ & _ & Hok)]); by eexists _, _.
  - intros sonnets words σ0.
    destruct (query_evaluation_inv lower AND sonnets words σ0)
      as (accs & σ & -> & [->|(_ & _ & Hok)]); by eexists _, _.
Qed.

Lemma count_invariant_witness :
  let '(a, σ1) := search_sonnet str_lower sonnet_test (py "at") [] in
  let '(b, σ2) := search_sonnet str_lower sonnet_test (py "cat") σ1 in
  count_ok (combine_results a b σ2).2 (combine_results a b σ2).1.
Proof.
  destruct (count_invariant str_lower) as (Hs & Hc & _).
  pose proof (Hs sonnet_test (py "at") []) as Ha.
  destruct (search_sonnet str_lower sonnet_test (py "at") []) as [a σ1] eqn:Ea.
  pose proof (Hs sonnet_test (py "cat") σ1) as Hb.
  destruct (search_sonnet str_lower sonnet_test (py "cat") σ1) as [b σ2] eqn:Eb.
  vm_compute in Ea. injection Ea as <- <-. vm_compute in Eb. injection Eb as <- <-.
  apply Hc; [|by vm_compute|exact Hb].
  apply owned_pair. repeat split; apply (bool_decide_unpack _); vm_compute; exact I.
Defined.

(** The invariant as the specification has it, for both modes, fails
    under AND: for the one-title corpus ["a"] and the query "a b" the
    accumulator ends with the count zero and one title span. *)
Lemma count_invariant_fails_under_AND :
  ¬ ∀ mode sonnets words accs σ,
      query_evaluation str_lower mode sonnets words [] = Some (accs, σ) →
      Forall (count_ok σ) accs.
Proof.
  intros H.
  specialize (H AND [sonnet_a] [py "a"; py "b"] _ _ eq_refl).
  apply Forall_cons in H as [H _]. vm_compute in H. discriminate.
Qed.

(** * The AND gate *)

(** C2: under AND, when the accumulator of a document or the result of
    the word for that document has no matches, the word sets the count of
    the accumulator to zero and changes nothing else in it: its title
    spans, its line matches and their span lists are as before. This is
    the only way to a zero count. After any further words the accumulator
    is the same, with the count zero and the same span lists, whatever
    those words match. *)
Theorem and_gate_is_permanent (lower : pystr → pystr) (sonnets : list Sonnet) :
  (∀ ws w σ0 accs1 σ1 i c1 s σx,
     query_evaluation lower AND sonnets ws σ0 = Some (accs1, σ1) →
     accs1 !! i = Some c1 → sonnets !! i = Some s →
     matches c1 = 0 ∨ matches (search_sonnet lower s w σx).1 = 0 →
     ∃ accs2 σ2,
       query_evaluation lower AND sonnets (ws ++ [w]) σ0 = Some (accs2, σ2) ∧
       accs2 !! i = Some (set_matches 0 c1) ∧
       ∀ lm, lm ∈ line_matches c1 → deref σ2 (spans lm) = deref σ1 (spans lm)) ∧
  (∀ ws w σ0 accs1 σ1 accs2 σ2 i c1 c2,
     query_evaluation lower AND sonnets ws σ0 = Some (accs1, σ1) →
     query_evaluation lower AND sonnets (ws ++ [w]) σ0 = Some (accs2, σ2) →
     accs1 !! i = Some c1 → accs2 !! i = Some c2 → matches c2 = 0 →
     c2 = set_matches 0 c1 ∧
     ∀ lm, lm ∈ line_matches c1 → deref σ2 (spans lm) = deref σ1 (spans lm)) ∧
  (∀ ws ws' σ0 accs σ i c,
     query_evaluation lower AND sonnets ws σ0 = Some (accs, σ) →
     accs !! i = Some c → matches c = 0 →
     ∃ accs' σ',
       query_evaluation lower AND sonnets (ws ++ ws') σ0 = Some (accs', σ') ∧
       accs' !! i = Some c ∧
       ∀ lm, lm ∈ line_matches c → deref σ' (spans lm) = deref σ (spans lm)).
Proof.
  assert (∀ ws σ0 accs σ i c,
    query_evaluation lower AND sonnets ws σ0 = Some (accs, σ) → accs !! i = Some c →
    engine_inv AND sonnets σ accs) as Hinv.
  { intros ws σ0 accs σ i c Heq Hc.
    destruct (query_evaluation_inv lower AND sonnets ws σ0) as (accs0 & σ' & Heq' & Hinv).
    rewrite Heq in Heq'. injection Heq' as <- <-.
    destruct Hinv as [->|?]; done. }
  split; [|split].
  - intros ws w σ0 accs1 σ1 i c1 s σx Heq1 Hc1 Hs Hzero.
    pose proof (Hinv _ _ _ _ _ _ Heq1 Hc1) as Hinv1.
    unfold query_evaluation in *. rewrite for_each_app, Heq1.
    cbn [mbind option_bind for_each].
    destruct (query_word_spec lower AND sonnets w accs1 σ1 (or_intror Hinv1))
      as (accs2 & σ2 & -> & _ & _ & Hpt).
    destruct (Hpt i c1 Hc1) as (r & σm & c' & Hpre & Hfound & Hc' & Hm).
    exists accs2, σ2. split; [done|].
    destruct (Hfound s Hs) as (_ & _ & Hmr & _).
    destruct (search_sonnet_view lower s w σx) as (_ & _ & Hmx & _).
    unfold merged in Hm. simpl in Hm.
    replace ((0 <? matches c1) && (0 <? matches r)) with false in Hm.
    2:{ symmetry. apply andb_false_iff.
        destruct Hzero as [->|Hz]; [by left|right]. by rewrite Hmr, <-Hmx, Hz. }
    destruct Hm as [-> Hsame]. split; [done|].
    intros lm Hlm. rewrite Hsame, Hpre; [done|..]; by apply list_elem_of_fmap_2.
  - intros ws w σ0 accs1 σ1 accs2 σ2 i c1 c2 Heq1 Heq2 Hc1 Hc2 Hz.
    pose proof (Hinv _ _ _ _ _ _ Heq1 Hc1) as Hinv1.
    unfold query_evaluation in *. rewrite for_each_app, Heq1 in Heq2.
    cbn [mbind option_bind for_each] in Heq2.
    destruct (query_word_spec lower AND sonnets w accs1 σ1 (or_intror Hinv1))
      as (accs' & σ' & Heq & _ & _ & Hpt).
    rewrite Heq in Heq2. injection Heq2 as <- <-.
    destruct (Hpt i c1 Hc1) as (r & σm & c' & Hpre & _ & Hc' & Hm).
    rewrite Hc2 in Hc'. injection Hc' as <-.
    unfold merged in Hm. simpl in Hm.
    destruct ((0 <? matches c1) && (0 <? matches r)) eqn:Hgate.
    + destruct Hm as (_ & Hm & _).
      apply andb_true_iff in Hgate as [?%Nat.ltb_lt ?%Nat.ltb_lt]. lia.
    + destruct Hm as [-> Hsame]. split; [done|].
      intros lm Hlm. rewrite Hsame, Hpre; [done|..]; by apply list_elem_of_fmap_2.
  - intros ws ws' σ0 accs σ i c Heq Hc Hz.
    pose proof (Hinv _ _ _ _ _ _ Heq Hc) as Hinv1.
    destruct (query_words_gated lower sonnets ws' accs σ i c Hinv1 Hc Hz)
      as (accs' & σ' & Heq' & Hc' & Hsame).
    exists accs', σ'. unfold query_evaluation in *. rewrite for_each_app, Heq.
    split; [done|]. split; [done|].
    intros lm Hlm. apply Hsame. by apply list_elem_of_fmap_2.
Qed.

Lemma and_gate_is_permanent_witness :
  ∃ c1 c2 accs2 σ2 accs' σ',
    matches c1 = 3 ∧ c2 = set_matches 0 c1 ∧
    query_evaluation str_lower AND [sonnet_test] ([py "at"] ++ [py "dog"]) []
      = Some (accs2, σ2) ∧
    accs2 !! 0 = Some c2 ∧
    query_evaluation str_lower AND [sonnet_test]
      (([py "at"] ++ [py "dog"]) ++ [py "cat"]) [] = Some (accs', σ') ∧
    accs' !! 0 = Some c2.
Proof.
  destruct (and_gate_is_permanent str_lower [sonnet_test]) as (Hgate & Hzero & Hperm).
  destruct (query_evaluation str_lower AND [sonnet_test] [py "at"] [])
    as [[accs1 σ1]|] eqn:E1; [|by vm_compute in E1].
  pose proof E1 as E1'. vm_compute in E1'. injection E1' as <- <-.
  destruct (Hgate _ (py "dog") _ _ _ 0 _ sonnet_test [] E1 eq_refl eq_refl)
    as (accs2 & σ2 & E2 & Hc2 & _); [by right|].
  destruct (Hzero _ _ _ _ _ _ _ 0 _ _ E1 E2 eq_refl Hc2 eq_refl) as [_ _].
  destruct (Hperm _ [py "cat"] _ _ _ 0 _ E2 Hc2 eq_refl) as (accs' & σ' & E3 & Hc' & _).
  eexists _, _, accs2, σ2, accs', σ'.
  split; [|split; [reflexivity|split; [exact E2|split; [exact Hc2|split; [exact E3|exact Hc']]]]].
  reflexivity.
Defined.

(** * [combine_results] *)

(** C3: The count of the combination of two results is the sum of their
    counts, whatever the results are; the search mode is not an input of
    [combine_results]. *)
Theorem combine_results_matches (a b : SearchResult) (σ : store) :
  matches (combine_results a b σ).1 = matches a + matches b.
Proof.
  rewrite combine_results_eq. by destruct (merge_line_matches _ _ σ).
Qed.

(** * [search_sonnet] *)

(** C9: No line match of a result of [search_sonnet] has an empty list of
    spans, and a line in which the lowered query is not found has no line
    match. *)
Theorem search_sonnet_sparse (lower : pystr → pystr) (sonnet : Sonnet)
    (query : pystr) (σ : store) :
  let r := (search_sonnet lower sonnet query σ).1 in
  let σ' := (search_sonnet lower sonnet query σ).2 in
  (∀ lm, lm ∈ line_matches r → deref σ' (spans lm) ≠ []) ∧
  (∀ j line, sonnet_lines sonnet !! j = Some line →
             find_spans (lower line) (lower query) = [] → S j ∉ line_nos r).
Proof.
  destruct (search_sonnet_spec lower sonnet query σ)
    as (r & news & -> & _ & _ & _ & _ & Hall & _).
  simpl. rewrite Forall_forall in Hall. split.
  - intros lm Hlm. destruct (Hall lm Hlm) as (_ & _ & -> & Hne). done.
  - intros j line Hj Hnone (lm & Hno & Hlm)%list_elem_of_fmap.
    destruct (Hall lm Hlm) as (_ & Hlk & _ & Hne).
    rewrite <-Hno in Hlk. simpl in Hlk. rewrite Nat.sub_0_r, Hj in Hlk.
    injection Hlk as ->. done.
Qed.

Lemma search_sonnet_sparse_witness :
  2 ∉ line_nos (search_sonnet str_lower sonnet_test (py "cat") []).1.
Proof.
  destruct (search_sonnet_sparse str_lower sonnet_test (py "cat") []) as [_ H].
  apply (H 1 (py "a bat ran")); reflexivity.
Defined.

(** C10: The line numbers of the line matches of a result of [search_sonnet]
    are strictly increasing, and each lies between 1 and the number of
    lines of the document. *)
Theorem search_sonnet_line_nos (lower : pystr → pystr) (sonnet : Sonnet)
    (query : pystr) (σ : store) :
  let r := (search_sonnet lower sonnet query σ).1 in
  StronglySorted lt (line_nos r) ∧
  Forall (λ n, 1 ≤ n ≤ length (sonnet_lines sonnet)) (line_nos r).
Proof.
  destruct (search_sonnet_spec lower sonnet query σ)
    as (r & news & -> & _ & _ & _ & Hs & Hall & _).
  simpl. split; [done|]. apply Forall_fmap. eapply Forall_impl; [done|].
  intros lm (Hle & Hlk%lookup_lt_Some & _). simpl. lia.
Qed.

(** * The spans and the original text *)

(** The spans of a result index the lowered title and the lowered lines;
    they fit the stored original text when lowering keeps the length. *)
Lemma search_sonnet_spans_valid (lower : pystr → pystr) sonnet query σ :
  let r := (search_sonnet lower sonnet query σ).1 in
  let σ' := (search_sonnet lower sonnet query σ).2 in
  Forall (valid_span (lower (title r))) (title_spans r) ∧
  ∀ lm, lm ∈ line_matches r →
        Forall (valid_span (lower (text lm))) (deref σ' (spans lm)).
Proof.
  destruct (search_sonnet_spec lower sonnet query σ)
    as (r & news & -> & Ht & Hts & _ & _ & Hall & _).
  simpl. split.
  - rewrite Hts, Ht. apply Forall_forall. intros sp. apply find_spans_valid.
  - intros lm Hlm. rewrite Forall_forall in Hall.
    destruct (Hall lm Hlm) as (_ & _ & -> & _).
    apply Forall_forall. intros sp. apply find_spans_valid.
Qed.

Lemma search_sonnet_spans_valid_raw (lower : pystr → pystr) sonnet query σ :
  (∀ s, length (lower s) = length s) →
  let r := (search_sonnet lower sonnet query σ).1 in
  let σ' := (search_sonnet lower sonnet query σ).2 in
  Forall (valid_span (title r)) (title_spans r) ∧
  ∀ lm, lm ∈ line_matches r → Forall (valid_span (text lm)) (deref σ' (spans lm)).
Proof.
  intros Hlen. destruct (search_sonnet_spans_valid lower sonnet query σ) as [Ht Hl].
  unfold valid_span in *. simpl. split.
  - eapply Forall_impl; [exact Ht|]. intros sp. by rewrite Hlen.
  - intros lm Hlm. eapply Forall_impl; [exact (Hl lm Hlm)|]. intros sp. by rewrite Hlen.
Qed.

(** C8: for the title and line "İs" (U+0130, s) and the query "s", the
    lowered text has three code points and the span found is (2, 3),
    which is stored with the original text of two code points: the span
    is not a valid interval of the stored title, nor of the stored line,
    and highlighting the stored title with it marks no character. *)
Theorem search_sonnet_span_outside_text :
  let r := (search_sonnet str_lower sonnet_dotted (py "s") []).1 in
  let σ' := (search_sonnet str_lower sonnet_dotted (py "s") []).2 in
  length (title r) = 2 ∧ title_spans r = [(2, 3)] ∧
  ¬ Forall (valid_span (title r)) (title_spans r) ∧
  ansi_highlight (title r) (title_spans r) = title r ++ HL_START ++ HL_RESET ∧
  ∃ lm, line_matches r = [lm] ∧ length (text lm) = 2 ∧
        deref σ' (spans lm) = [(2, 3)] ∧
        ¬ Forall (valid_span (text lm)) (deref σ' (spans lm)).
Proof.
  vm_compute. split; [done|]. split; [done|]. split; [|split; [done|]].
  - intros [[_ H] _]%Forall_cons. simpl in H. lia.
  - eexists. split; [done|]. split; [done|]. split; [done|].
    intros [[_ H] _]%Forall_cons. simpl in H. lia.
Qed.

(** * The order of combination *)

Lemma combine_step σ a b rest :
  owned σ (a :: b :: rest) →
  ∃ ab σ1, combine_results a b σ = (ab, σ1) ∧
    owned σ1 (ab :: rest) ∧
    matches ab = matches a + matches b ∧
    title_spans ab ≡ₚ title_spans a ++ title_spans b ∧
    (∀ n, spans_at σ1 ab n ≡ₚ spans_at σ a n ++ spans_at σ b n) ∧
    (∀ r n, r ∈ rest → spans_at σ1 r n = spans_at σ r n).
Proof.
  change (a :: b :: rest) with ([a; b] ++ rest).
  intros (Hab & Hrest & Hdis)%owned_app.
  destruct (combine_results_spec a b σ Hab)
    as (ab & σ1 & Heq & _ & Hm & Hts & Hlen & Hfr & Hsub & Hnd & Hs & _ & Hls).
  assert (∀ l, l ∈ locs_of a ++ locs_of b → l ∉ rest ≫= locs_of) as Hdis1.
  { intros l Hl. apply Hdis. simpl. by rewrite app_nil_r. }
  exists ab, σ1. split; [done|]. split; [|split; [done|split; [|split; [done|]]]].
  - change (ab :: rest) with ([ab] ++ rest). apply owned_app.
    split; [|split; [by apply (owned_length σ)|]].
    + apply owned_single. split; [done|]. split; [|by apply StronglySorted_lt_NoDup].
      apply owned_pair in Hab as (_ & Hlt & _). rewrite Hlen.
      rewrite Forall_forall in *. auto.
    + simpl. intros l Hl. rewrite app_nil_r in Hl. by apply Hdis1, Hsub.
  - by rewrite Hts, sorted_Permutation.
  - intros r n Hr. apply spans_at_agree. intros l Hl. apply Hfr.
    intros Hl'. apply (Hdis1 l Hl'). by apply (elem_of_locs_bind _ r).
Qed.

Lemma combine_all_cons acc r rs σ :
  combine_all acc (r :: rs) σ =
  combine_all (combine_results acc r σ).1 rs (combine_results acc r σ).2.
Proof.
  simpl. unfold mbind, M_bind. by destruct (combine_results acc r σ).
Qed.

(** The numbers of a fold of [combine_results] are the sums of the
    numbers of the results. *)
Lemma combine_all_numbers rs : ∀ acc σ,
  owned σ (acc :: rs) →
  matches (combine_all acc rs σ).1 = sum_list_with matches (acc :: rs) ∧
  title_spans (combine_all acc rs σ).1 ≡ₚ (acc :: rs) ≫= title_spans ∧
  ∀ n, spans_at (combine_all acc rs σ).2 (combine_all acc rs σ).1 n ≡ₚ
       (acc :: rs) ≫= λ r, spans_at σ r n.
Proof.
  induction rs as [|r rs IH]; intros acc σ Hown.
  { change (combine_all acc [] σ) with (acc, σ). cbn [fst snd].
    rewrite !bind_cons. change (@nil SearchResult ≫= title_spans) with (@nil span).
    rewrite app_nil_r. simpl. split; [lia|]. split; [done|].
    intros n. by rewrite app_nil_r. }
  rewrite combine_all_cons.
  destruct (combine_step σ acc r rs Hown) as (ab & σ1 & -> & Hown1 & Hm & Hts & Hls & Hfr).
  destruct (IH ab σ1 Hown1) as (IHm & IHts & IHls). simpl fst; simpl snd.
  split; [|split].
  - rewrite IHm. simpl. lia.
  - rewrite IHts, !bind_cons, Hts. by rewrite app_assoc.
  - intros n. rewrite IHls, !bind_cons, Hls, <-app_assoc. do 2 f_equiv.
    clear -Hfr. induction rs as [|x rs IH]; [done|].
    rewrite !bind_cons, Hfr by left. f_equiv. apply IH. intros r' n' Hr'. apply Hfr. by right.
Qed.

Lemma same_numbers_of σ1 r1 σ2 r2 (ms : nat) (ts : list span) (ls : nat → list span) :
  matches r1 = ms → title_spans r1 ≡ₚ ts → (∀ n, spans_at σ1 r1 n ≡ₚ ls n) →
  matches r2 = ms → title_spans r2 ≡ₚ ts → (∀ n, spans_at σ2 r2 n ≡ₚ ls n) →
  same_numbers σ1 r1 σ2 r2.
Proof.
  intros Hm1 Ht1 Hl1 Hm2 Ht2 Hl2. split; [congruence|]. split; [by rewrite Ht1, Ht2|].
  intros n. by rewrite Hl1, Hl2.
Qed.

Lemma combine_all_Permutation σ a rs a' rs' :
  owned σ (a :: rs) → a :: rs ≡ₚ a' :: rs' →
  same_numbers (combine_all a rs σ).2 (combine_all a rs σ).1
               (combine_all a' rs' σ).2 (combine_all a' rs' σ).1.
Proof.
  intros Hown Hperm.
  destruct (combine_all_numbers rs a σ Hown) as (Hm & Hts & Hls).
  destruct (combine_all_numbers rs' a' σ (owned_Permutation _ _ _ Hperm Hown))
    as (Hm' & Hts' & Hls').
  eapply same_numbers_of; [exact Hm|exact Hts|exact Hls|..].
  - by rewrite Hm', Hperm.
  - by rewrite Hts', Hperm.
  - intros n. by rewrite Hls', Hperm.
Qed.

Lemma combine_results_assoc σ a b c :
  owned σ [a; b; c] →
  let left := (ab ← combine_results a b; combine_results ab c) σ in
  let right := (bc ← combine_results b c; combine_results a bc) σ in
  same_numbers left.2 left.1 right.2 right.1.
Proof.
  intros Hown. unfold mbind, M_bind. cbn zeta.
  assert (owned σ (b :: c :: [a])) as Hown'.
  { eapply owned_Permutation; [|done]. by rewrite (Permutation_cons_append [b; c] a). }
  destruct (combine_step σ a b [c] Hown) as (ab & σ1 & -> & Hown1 & Hm1 & Hts1 & Hls1 & Hfr1).
  destruct (combine_step σ1 ab c [] Hown1) as (abc & σ2 & -> & _ & Hm2 & Hts2 & Hls2 & _).
  destruct (combine_step σ b c [a] Hown') as (bc & σ3 & -> & Hown3 & Hm3 & Hts3 & Hls3 & Hfr3).
  assert (owned σ3 [a; bc]) as Hown3'.
  { eapply owned_Permutation; [|done]. apply Permutation_swap. }
  destruct (combine_step σ3 a bc [] Hown3') as (abc' & σ4 & -> & _ & Hm4 & Hts4 & Hls4 & _).
  cbn [fst snd].
  apply (same_numbers_of _ _ _ _ (matches a + matches b + matches c)
           (title_spans a ++ title_spans b ++ title_spans c)
           (λ n, spans_at σ a n ++ spans_at σ b n ++ spans_at σ c n)).
  - lia.
  - by rewrite Hts2, Hts1, <-app_assoc.
  - intros n. rewrite Hls2, Hls1, <-app_assoc. do 2 f_equiv.
    by rewrite Hfr1 by left.
  - lia.
  - by rewrite Hts4, Hts3.
  - intros n. rewrite Hls4, Hls3. f_equiv. by rewrite Hfr3 by left.
Qed.

(** * The result of an OR query, read off the documents *)

Section or_query.
Variable lower : pystr → pystr.

Lemma holds_words_first s w σ r :
  found_in lower s w σ r → holds_words lower s [w] σ r.
Proof.
  intros (Ht & Hts & Hm & Hls). split; [done|]. split; [simpl; lia|].
  split; [by rewrite Hts; simpl; rewrite app_nil_r|].
  intros n. rewrite Hls. simpl. by rewrite app_nil_r.
Qed.

Lemma holds_words_step s ws w σ σm σ' c r c' :
  holds_words lower s ws σ c →
  (∀ l, l ∈ locs_of c → deref σm l = deref σ l) →
  found_in lower s w σm r →
  merged OR σm c r σ' c' →
  holds_words lower s (ws ++ [w]) σ' c'.
Proof.
  intros (Ht & Hm & Hts & Hls) Hag (Ht' & Hts' & Hm' & Hls') (Ht'' & Hm'' & Hts'' & Hls'').
  split; [congruence|]. split; [|split].
  - rewrite Hm'', Hm, Hm', sum_list_with_app. simpl. lia.
  - rewrite Hts'', sorted_Permutation, bind_app, Hts, Hts'. simpl. by rewrite app_nil_r.
  - intros n. rewrite Hls'', bind_app, (spans_at_agree σ σm c) by done.
    rewrite Hls, Hls'. simpl. by rewrite app_nil_r.
Qed.

Lemma holds_words_Permutation s ws ws' σ c :
  ws ≡ₚ ws' → holds_words lower s ws σ c → holds_words lower s ws' σ c.
Proof.
  intros Hperm (Ht & Hm & Hts & Hls). split; [done|]. split; [by rewrite <-Hperm|].
  split; [by rewrite <-Hperm|]. intros n. by rewrite <-Hperm.
Qed.

Lemma holds_words_same_numbers s ws σ c σ' c' :
  holds_words lower s ws σ c → holds_words lower s ws σ' c' → same_numbers σ c σ' c'.
Proof.
  intros (_ & Hm & Hts & Hls) (_ & Hm' & Hts' & Hls').
  eapply same_numbers_of; [exact Hm|exact Hts|exact Hls|exact Hm'|exact Hts'|exact Hls'].
Qed.

Lemma query_words_OR sonnets ws : ∀ ws0 accs σ,
  engine_inv OR sonnets σ accs →
  (∀ i s, sonnets !! i = Some s →
          ∃ acc, accs !! i = Some acc ∧ holds_words lower s ws0 σ acc) →
  ∃ accs' σ', for_each (query_word lower OR sonnets) ws (accs, σ) = Some (accs', σ') ∧
    length accs' = length sonnets ∧
    ∀ i s, sonnets !! i = Some s →
           ∃ acc, accs' !! i = Some acc ∧ holds_words lower s (ws0 ++ ws) σ' acc.
Proof.
  induction ws as [|w ws IH]; intros ws0 accs σ Hinv Hholds.
  { exists accs, σ. rewrite app_nil_r. split; [done|]. split; [apply Hinv|done]. }
  destruct (query_word_spec lower OR sonnets w accs σ (or_intror Hinv))
    as (accs1 & σ1 & Heq & Hinv1 & _ & Hpt).
  destruct (IH (ws0 ++ [w]) accs1 σ1 Hinv1) as (accs' & σ' & Heq' & Hlen & Hholds').
  { intros i s Hs. destruct (Hholds i s Hs) as (acc & Hacc & Hh).
    destruct (Hpt i acc Hacc) as (r & σm & c' & Hag & Hf & Hc' & Hm).
    exists c'. split; [done|]. eapply holds_words_step; eauto. }
  exists accs', σ'. cbn [for_each]. rewrite Heq. split; [done|]. split; [done|].
  intros i s Hs. rewrite (cons_middle w ws0 ws), app_assoc. by apply Hholds'.
Qed.

Lemma query_evaluation_OR sonnets w ws σ0 :
  ∃ accs σ, query_evaluation lower OR sonnets (w :: ws) σ0 = Some (accs, σ) ∧
    length accs = length sonnets ∧
    ∀ i s, sonnets !! i = Some s →
           ∃ acc, accs !! i = Some acc ∧ holds_words lower s (w :: ws) σ acc.
Proof.
  unfold query_evaluation. cbn [for_each].
  destruct (query_word_spec lower OR sonnets w [] σ0 (or_introl eq_refl))
    as (accs1 & σ1 & -> & Hinv1 & Hfirst & _).
  destruct (query_words_OR sonnets ws [w] accs1 σ1 Hinv1) as (accs & σ & Heq & Hlen & Hholds).
  { intros i s Hs. destruct (Hfirst eq_refl i s Hs) as (r & Hr & Hf).
    exists r. split; [done|]. by apply holds_words_first. }
  by exists accs, σ.
Qed.

(** The words of an OR query in another order give, for every document,
    the same numbers. *)
Lemma query_evaluation_OR_Permutation sonnets ws ws' σ0 σ0' :
  ws ≡ₚ ws' →
  ∃ accs σ accs' σ',
    query_evaluation lower OR sonnets ws σ0 = Some (accs, σ) ∧
    query_evaluation lower OR sonnets ws' σ0' = Some (accs', σ') ∧
    Forall2 (λ r r', same_numbers σ r σ' r') accs accs'.
Proof.
  intros Hperm. destruct ws as [|w ws].
  { apply Permutation_nil_l in Hperm as <-. exists [], σ0, [], σ0'.
    split; [done|]. split; [done|]. constructor. }
  destruct ws' as [|w' ws']; [by apply Permutation_nil_r in Hperm|].
  destruct (query_evaluation_OR sonnets w ws σ0) as (accs & σ & Heq & Hlen & Hholds).
  destruct (query_evaluation_OR sonnets w' ws' σ0') as (accs' & σ' & Heq' & Hlen' & Hholds').
  exists accs, σ, accs', σ'. split; [done|]. split; [done|].
  apply Forall2_same_length_lookup. split; [congruence|].
  intros i r r' Hr Hr'.
  destruct (lookup_lt_is_Some_2 sonnets i) as [s Hs].
  { rewrite <-Hlen. by eapply lookup_lt_Some. }
  destruct (Hholds i s Hs) as (acc & Hacc & Hh).
  destruct (Hholds' i s Hs) as (acc' & Hacc' & Hh').
  assert (acc = r) as -> by congruence. assert (acc' = r') as -> by congruence.
  eapply holds_words_same_numbers; [done|].
  by apply (holds_words_Permutation s (w' :: ws')).
Qed.
End or_query.

(** C4: for results that own their span lists, as the results of
    [search_sonnet] do, [combine_results] is commutative and associative
    in its numbers, and a fold of [combine_results] over the results of
    the terms gives the same numbers for every order of the results: the
    same count, the same title spans as a multiset, and on every line the
    same spans as a multiset. So the query loop under OR gives every
    document the same numbers for every order of the words. *)
Theorem combine_results_order :
  (∀ σ a b, owned σ [a; b] →
     same_numbers (combine_results a b σ).2 (combine_results a b σ).1
                  (combine_results b a σ).2 (combine_results b a σ).1) ∧
  (∀ σ a b c, owned σ [a; b; c] →
     let left := (ab ← combine_results a b; combine_results ab c) σ in
     let right := (bc ← combine_results b c; combine_results a bc) σ in
     same_numbers left.2 left.1 right.2 right.1) ∧
  (∀ σ a rs a' rs', owned σ (a :: rs) → a :: rs ≡ₚ a' :: rs' →
     same_numbers (combine_all a rs σ).2 (combine_all a rs σ).1
                  (combine_all a' rs' σ).2 (combine_all a' rs' σ).1) ∧
  (∀ lower sonnets ws ws' σ0 σ0', ws ≡ₚ ws' →
     ∃ accs σ accs' σ',
       query_evaluation lower OR sonnets ws σ0 = Some (accs, σ) ∧
       query_evaluation lower OR sonnets ws' σ0' = Some (accs', σ') ∧
       Forall2 (λ r r', same_numbers σ r σ' r') accs accs').
Proof.
  split; [|split; [|split]].
  - intros σ a b Hown.
    pose proof (combine_all_Permutation σ a [b] b [a] Hown (Permutation_swap _ _ _)) as H.
    rewrite !combine_all_cons in H. done.
  - apply combine_results_assoc.
  - apply combine_all_Permutation.
  - apply query_evaluation_OR_Permutation.
Qed.

Lemma combine_results_order_witness :
  (let '(a, σ1) := search_sonnet str_lower sonnet_test (py "at") [] in
   let '(b, σ2) := search_sonnet str_lower sonnet_test (py "cat") σ1 in
   let '(c, σ) := search_sonnet str_lower sonnet_test (py "a") σ2 in
   same_numbers (combine_results a b σ).2 (combine_results a b σ).1
                (combine_results b a σ).2 (combine_results b a σ).1 ∧
   same_numbers ((ab ← combine_results a b; combine_results ab c) σ).2
                ((ab ← combine_results a b; combine_results ab c) σ).1
                ((bc ← combine_results b c; combine_results a bc) σ).2
                ((bc ← combine_results b c; combine_results a bc) σ).1 ∧
   same_numbers (combine_all a [b; c] σ).2 (combine_all a [b; c] σ).1
                (combine_all c [a; b] σ).2 (combine_all c [a; b] σ).1) ∧
  ∃ accs σ accs' σ',
    query_evaluation str_lower OR [sonnet_test] [py "at"; py "cat"] [] = Some (accs, σ) ∧
    query_evaluation str_lower OR [sonnet_test] [py "cat"; py "at"] [] = Some (accs', σ') ∧
    Forall2 (λ r r', same_numbers σ r σ' r') accs accs'.
Proof.
  destruct combine_results_order as (Hcomm & Hassoc & Hfold & Hquery).
  split; [|apply Hquery, Permutation_swap].
  destruct (search_sonnet str_lower sonnet_test (py "at") []) as [a σ1] eqn:Ea.
  destruct (search_sonnet str_lower sonnet_test (py "cat") σ1) as [b σ2] eqn:Eb.
  destruct (search_sonnet str_lower sonnet_test (py "a") σ2) as [c σ] eqn:Ec.
  vm_compute in Ea. injection Ea as <- <-. vm_compute in Eb. injection Eb as <- <-.
  vm_compute in Ec. injection Ec as <- <-.
  assert (∀ P `{Decision P}, bool_decide P = true → P) as Hdec.
  { intros P ? HP. by apply bool_decide_eq_true in HP. }
  split; [|split].
  - apply Hcomm. apply owned_pair. repeat split; apply (Hdec _ _); vm_compute; reflexivity.
  - apply Hassoc. repeat split; apply (Hdec _ _); vm_compute; reflexivity.
  - apply Hfold.
    + repeat split; apply (Hdec _ _); vm_compute; reflexivity.
    + symmetry. apply (Permutation_cons_append [_; _]).
Defined.

(** [combine_results a b] extends the span lists of [a] in place: after
    the call the count of [a] is no longer the number of its spans, and a
    second combination that takes [a] again reads the spans of [b] in
    them. Line 1 then holds four spans instead of three, and the count of
    the second combination is not the number of its spans. The results
    above compare combinations that start from the same store. *)
Lemma combine_results_reuse :
  let '(a, σ1) := search_sonnet str_lower sonnet_test (py "at") [] in
  let '(b, σ) := search_sonnet str_lower sonnet_test (py "cat") σ1 in
  let '(ab, σ') := combine_results a b σ in
  let '(ba, σ'') := combine_results b a σ' in
  count_ok σ a ∧ ¬ count_ok σ' a ∧
  length (spans_at σ' ab 1) = 3 ∧ length (spans_at σ'' ba 1) = 4 ∧
  matches ab = 4 ∧ matches ba = 4 ∧
  count_ok σ' ab ∧ ¬ count_ok σ'' ba.
Proof. vm_compute. by repeat split. Qed.

(** * Further properties of [find_spans] and [ansi_highlight] *)

Lemma filter_length_le {A} (P : A → Prop) `{!∀ x, Decision (P x)} (l : list A) :
  length (filter P l) ≤ length l.
Proof.
  induction l as [|x l IH]; [done|]. rewrite filter_cons.
  destruct (decide (P x)); simpl; lia.
Qed.

(** X1: [find_spans] returns at most [len(text) - len(pattern) + 1]
    spans, and none when the pattern is longer than the text. *)
Theorem find_spans_count (text pattern : pystr) :
  length (find_spans text pattern) ≤ length text + 1 - length pattern ∧
  (length text < length pattern → find_spans text pattern = []).
Proof.
  assert (length (find_spans text pattern) ≤ length text + 1 - length pattern) as Hle.
  { unfold find_spans. destruct pattern as [|c p]; [simpl; lia|].
    rewrite length_fmap. etrans; [apply filter_length_le|].
    unfold py_range. rewrite length_seq. cbn [length]. lia. }
  split; [done|]. intros Hlt.
  destruct (find_spans text pattern); [done|]. simpl in Hle. lia.
Qed.

Lemma find_spans_count_witness : find_spans (py "ab") (py "abc") = [].
Proof. apply find_spans_count. vm_compute. lia. Defined.

(** X2: a non-empty text is found in itself exactly once, as the span
    of the whole text. *)
Theorem find_spans_self (text : pystr) :
  text ≠ [] → find_spans text text = [(0, length text)].
Proof.
  intros Hne. unfold find_spans. destruct text as [|c t] eqn:E; [done|]. rewrite <-E.
  replace (Z.of_nat (length text) - Z.of_nat (length text) + 1)%Z with 1%Z by lia.
  change (py_range 1) with [0]. rewrite filter_cons, decide_True; [done|].
  unfold slice. rewrite Nat.sub_0_r. simpl. by rewrite firstn_all.
Qed.

Lemma find_spans_self_witness : find_spans (py "Test") (py "Test") = [(0, 4)].
Proof. by apply (find_spans_self (py "Test")). Defined.

(** The lexicographic order of [sorted] on spans. *)
Lemma span_ltb_true x y : span_ltb y x = true → span_le y x.
Proof.
  destruct x as [a b], y as [c d]. unfold span_ltb, span_le. simpl.
  destruct (Nat.ltb_spec c a); destruct (Nat.eqb_spec c a);
    destruct (Nat.ltb_spec d b); simpl; intros; try done; lia.
Qed.

Lemma span_ltb_false x y : span_ltb y x = false → span_le x y.
Proof.
  destruct x as [a b], y as [c d]. unfold span_ltb, span_le. simpl.
  destruct (Nat.ltb_spec c a); destruct (Nat.eqb_spec c a);
    destruct (Nat.ltb_spec d b); simpl; intros; try done; lia.
Qed.

#[local] Instance span_le_trans : Transitive span_le.
Proof. intros [??] [??] [??]. unfold span_le. simpl. lia. Qed.

#[local] Instance span_le_antisymm : AntiSymm (=) span_le.
Proof.
  intros [a b] [c d]. unfold span_le. simpl. intros ??. f_equal; lia.
Qed.

Lemma sorted_span_le l : StronglySorted span_le (sorted span_ltb l).
Proof.
  apply sorted_StronglySorted; [apply _|apply span_ltb_true|apply span_ltb_false].
Qed.

(** [sorted] of spans depends on the spans only, not on their order. *)
Lemma sorted_span_Permutation l l' :
  l ≡ₚ l' → sorted span_ltb l = sorted span_ltb l'.
Proof.
  intros Hperm. apply (StronglySorted_unique span_le); [apply sorted_span_le..|].
  by rewrite !sorted_Permutation.
Qed.

Lemma sorted_span_sorted l : StronglySorted span_le l → sorted span_ltb l = l.
Proof.
  intros Hs. apply (StronglySorted_unique span_le); [apply sorted_span_le|done|].
  apply sorted_Permutation.
Qed.

(** X3: the output of [ansi_highlight] depends on the spans only, not on
    the order in which the list holds them. *)
Theorem ansi_highlight_Permutation (text : pystr) (spans spans' : list span) :
  spans ≡ₚ spans' → ansi_highlight text spans = ansi_highlight text spans'.
Proof.
  intros Hperm. unfold ansi_highlight, ansi_highlight_out, merge_spans.
  destruct spans as [|sp spans].
  { by apply Permutation_nil_l in Hperm as <-. }
  destruct spans' as [|sp' spans']; [by apply Permutation_nil_r in Hperm|].
  by rewrite (sorted_span_Permutation _ _ Hperm).
Qed.

Lemma ansi_highlight_Permutation_witness :
  ansi_highlight (py "abcdef") [(2, 5); (1, 3)] =
  ansi_highlight (py "abcdef") [(1, 3); (2, 5)].
Proof. apply ansi_highlight_Permutation, Permutation_swap. Defined.

Lemma apart_span_le l : apart l → StronglySorted span_le l.
Proof.
  intros [Hv Hs]. induction Hs as [|sp l Hl IH Hsp]; [constructor|].
  apply Forall_cons in Hv as [Hv1 Hv]. constructor; [by apply IH|].
  eapply Forall_impl; [exact Hsp|]. intros x Hx. left. simpl in *. lia.
Qed.

Lemma merge_from_apart_id rest s e :
  apart ((s, e) :: rest) → merge_from s e rest = (s, e) :: rest.
Proof.
  revert s e. induction rest as [|[s' e'] rest IH]; intros s e [Hv Hs]; [done|].
  apply Forall_cons in Hv as [Hv1 Hv]. apply StronglySorted_inv in Hs as [Hs Hse].
  apply Forall_cons in Hse as [Hse1 Hse]. simpl in *.
  destruct (Nat.leb_spec s' e); [lia|]. f_equal. by apply IH.
Qed.

Lemma merge_spans_apart_id l : apart l → merge_spans l = l.
Proof.
  intros Hap. unfold merge_spans. rewrite sorted_span_sorted by by apply apart_span_le.
  destruct l as [|[s e] rest]; [done|]. by apply merge_from_apart_id.
Qed.

Lemma merge_from_ne rest s e : merge_from s e rest ≠ [].
Proof.
  revert s e. induction rest as [|[s' e'] rest IH]; intros s e; [done|].
  simpl. destruct (s' <=? e); [apply IH|done].
Qed.

Lemma merge_spans_ne sp spans : merge_spans (sp :: spans) ≠ [].
Proof.
  unfold merge_spans. pose proof (sorted_length span_ltb (sp :: spans)) as Hlen.
  destruct (sorted span_ltb (sp :: spans)) as [|[s0 e0] rest]; [done|].
  apply merge_from_ne.
Qed.

(** X4: merging is idempotent: for non-empty spans, the merged spans
    merge to themselves, and highlighting with the merged spans gives the
    output of highlighting with the spans. *)
Theorem merge_spans_idempotent (text : pystr) (spans : list span) :
  Forall (λ sp : span, sp.1 < sp.2) spans →
  merge_spans (merge_spans spans) = merge_spans spans ∧
  ansi_highlight text (merge_spans spans) = ansi_highlight text spans.
Proof.
  intros Hv. pose proof (merge_spans_apart spans Hv) as Hap.
  pose proof (merge_spans_apart_id _ Hap) as Hid. split; [done|].
  unfold ansi_highlight, ansi_highlight_out. rewrite Hid.
  destruct spans as [|sp spans]; [done|].
  pose proof (merge_spans_ne sp spans) as Hne.
  by destruct (merge_spans (sp :: spans)).
Qed.

Lemma merge_spans_idempotent_witness :
  merge_spans (merge_spans [(0, 2); (2, 4); (5, 6)]) = merge_spans [(0, 2); (2, 4); (5, 6)].
Proof.
  apply (merge_spans_idempotent (py "abcdef")). repeat constructor.
Defined.

Lemma highlight_out_render_length text merged i :
  length (concat (render <$> highlight_out text i merged)) =
  length (concat (erase <$> highlight_out text i merged)) +
  (length HL_START + length HL_RESET) * length merged.
Proof.
  revert i. induction merged as [|[s e] merged IH]; intros i.
  - simpl. lia.
  - cbn [highlight_out fmap list_fmap concat render erase].
    rewrite !length_app, IH. cbn [length app]. lia.
Qed.

(** X5: for spans that are valid for the text, the output of
    [ansi_highlight] is longer than the text by the fourteen code points
    of the two escape codes for every merged span: nothing of the text is
    lost or repeated. *)
Theorem ansi_highlight_length (text : pystr) (spans : list span) :
  Forall (valid_span text) spans →
  length (ansi_highlight text spans) = length text + 14 * length (merge_spans spans).
Proof.
  intros Hv. unfold ansi_highlight, ansi_highlight_out.
  destruct spans as [|sp spans]; [simpl; rewrite app_nil_r; lia|].
  rewrite highlight_out_render_length, highlight_out_erase.
  - rewrite drop_0. simpl. lia.
  - apply merge_spans_apart. eapply Forall_impl; [done|]. by intros ? [??].
  - apply Forall_forall. intros; lia.
Qed.

Lemma ansi_highlight_length_witness :
  length (ansi_highlight (py "abcdef") [(2, 5); (1, 3)]) = 6 + 14 * 1.
Proof.
  apply (ansi_highlight_length (py "abcdef") [(2, 5); (1, 3)]).
  repeat constructor; vm_compute; lia.
Defined.

(** * Further properties of [search_sonnet] *)

(** X6: the result of [search_sonnet] holds the original title, the spans
    of the lowered query in the lowered title, for every line number the
    spans of the lowered query in that lowered line (none for a number
    that is not a line of the document), and as count the number of all
    these spans. *)
Theorem search_sonnet_result (lower : pystr → pystr) (sonnet : Sonnet)
    (query : pystr) (σ : store) :
  let r := (search_sonnet lower sonnet query σ).1 in
  let σ' := (search_sonnet lower sonnet query σ).2 in
  title r = sonnet_title sonnet ∧
  title_spans r = find_spans (lower (sonnet_title sonnet)) (lower query) ∧
  (∀ n, spans_at σ' r n = doc_line_spans lower sonnet (lower query) n) ∧
  matches r =
    length (find_spans (lower (sonnet_title sonnet)) (lower query)) +
    sum_list_with (λ line, length (find_spans (lower line) (lower query)))
                  (sonnet_lines sonnet).
Proof.
  destruct (search_sonnet_view lower sonnet query σ) as (Ht & Hts & Hm & Hls).
  by repeat split.
Qed.

(** X7: every line match of a result of [search_sonnet] carries the
    original text of the line with its number, not the lowered text, and
    its spans are those of the lowered query in the lowered text. *)
Theorem search_sonnet_line_texts (lower : pystr → pystr) (sonnet : Sonnet)
    (query : pystr) (σ : store) :
  let r := (search_sonnet lower sonnet query σ).1 in
  let σ' := (search_sonnet lower sonnet query σ).2 in
  ∀ lm, lm ∈ line_matches r →
    1 ≤ line_no lm ∧
    sonnet_lines sonnet !! (line_no lm - 1) = Some (text lm) ∧
    deref σ' (spans lm) = find_spans (lower (text lm)) (lower query).
Proof.
  destruct (search_sonnet_spec lower sonnet query σ)
    as (r & news & -> & _ & _ & _ & _ & Hall & _).
  simpl. intros lm Hlm. rewrite Forall_forall in Hall.
  destruct (Hall lm Hlm) as (? & ? & ? & _). done.
Qed.

Lemma search_sonnet_line_texts_witness :
  let lm := new_LineMatch 1 (py "a cat sat") 0 in
  1 ≤ line_no lm ∧
  sonnet_lines sonnet_test !! (line_no lm - 1) = Some (text lm) ∧
  deref (search_sonnet str_lower sonnet_test (py "CAT") []).2 (spans lm) =
    find_spans (str_lower (text lm)) (str_lower (py "CAT")).
Proof.
  apply (search_sonnet_line_texts str_lower sonnet_test (py "CAT") []).
  vm_compute. left.
Defined.

(** X8: [search_sonnet] changes no list of the store: it appends one new
    list for each line match, in the order of the line matches, so the
    result owns its span lists. *)
Theorem search_sonnet_appends (lower : pystr → pystr) (sonnet : Sonnet)
    (query : pystr) (σ : store) :
  let r := (search_sonnet lower sonnet query σ).1 in
  let σ' := (search_sonnet lower sonnet query σ).2 in
  ∃ news, σ' = σ ++ news ∧
    length news = length (line_matches r) ∧
    locs_of r = seq (length σ) (length news) ∧
    owned σ' [r].
Proof.
  destruct (search_sonnet_spec lower sonnet query σ)
    as (r & news & -> & _ & _ & Hlocs & Hs & _ & _).
  simpl. exists news. split; [done|]. split; [|split; [done|]].
  - apply (f_equal length) in Hlocs. unfold locs_of, lm_locs in Hlocs.
    by rewrite length_fmap, length_seq in Hlocs.
  - apply (owned_fresh σ [] [r] news); [apply owned_nil| |by constructor].
    by rewrite bind_cons, app_nil_r.
Qed.

(** X9: a query whose lowered form is empty finds nothing: the result
    has no title span, no line match and the count zero, and the store is
    as before. *)
Theorem search_sonnet_empty_query (lower : pystr → pystr) (sonnet : Sonnet)
    (query : pystr) (σ : store) :
  lower query = [] →
  search_sonnet lower sonnet query σ =
    (new_SearchResult (sonnet_title sonnet) [] [] 0, σ).
Proof.
  intros Hq. unfold search_sonnet. rewrite Hq.
  assert (∀ lines idx, search_lines lower idx lines [] σ = ([], σ)) as Hlines.
  { induction lines as [|line lines IH]; intros idx; [done|].
    simpl. destruct (lower line); apply IH. }
  unfold mbind, M_bind. rewrite Hlines.
  by destruct (lower (sonnet_title sonnet)).
Qed.

Lemma search_sonnet_empty_query_witness :
  search_sonnet str_lower sonnet_test (py "") [] =
    (new_SearchResult (py "Test") [] [] 0, []).
Proof. by apply (search_sonnet_empty_query str_lower sonnet_test (py "") []). Defined.

(** * Further properties of [combine_results] *)

Lemma dict_set_keys k v d k' : k' ∈ (dict_set k v d).*1 ↔ k' = k ∨ k' ∈ d.*1.
Proof.
  induction d as [|[k0 v0] d IH]; simpl.
  - rewrite list_elem_of_singleton. split; [by left|]. intros [?|?%elem_of_nil]; done.
  - destruct (decide (k0 = k)) as [->|Hne]; simpl; rewrite !elem_of_cons.
    + tauto.
    + rewrite IH. tauto.
Qed.

Lemma dict_set_ok k v d : dict_ok d → line_no v = k → dict_ok (dict_set k v d).
Proof.
  intros [Hnd Hkv] Hv. induction d as [|[k0 v0] d IH]; simpl.
  - split; [apply NoDup_singleton|by repeat constructor].
  - simpl in Hnd. apply NoDup_cons in Hnd as [Hk0 Hnd].
    apply Forall_cons in Hkv as [Hkv0 Hkv].
    destruct (decide (k0 = k)) as [->|Hne].
    + split; [by constructor|by constructor].
    + destruct (IH Hnd Hkv) as [IH1 IH2]. split; [|by constructor].
      simpl. constructor; [|done]. rewrite dict_set_keys. intros [?|?]; done.
Qed.

Lemma dict_by_line_no_from_ok lms : ∀ d,
  dict_ok d →
  dict_ok (foldl (λ d lm, dict_set (line_no lm) lm d) d lms) ∧
  ∀ k, k ∈ (foldl (λ d lm, dict_set (line_no lm) lm d) d lms).*1 ↔
       k ∈ d.*1 ∨ k ∈ lm_line_nos lms.
Proof.
  induction lms as [|lm lms IH]; intros d Hok; cbn [foldl].
  - split; [done|]. intros k. change (lm_line_nos []) with (@nil nat).
    rewrite elem_of_nil. tauto.
  - destruct (IH (dict_set (line_no lm) lm d)) as [IH1 IH2]; [by apply dict_set_ok|].
    split; [done|]. intros k. rewrite IH2, dict_set_keys.
    change (lm_line_nos (lm :: lms)) with (line_no lm :: lm_line_nos lms).
    rewrite elem_of_cons. tauto.
Qed.

Lemma merge_line_matches_keys lms2 : ∀ d σ,
  dict_ok d →
  dict_ok (merge_line_matches lms2 d σ).1 ∧
  ∀ k, k ∈ (merge_line_matches lms2 d σ).1.*1 ↔ k ∈ d.*1 ∨ k ∈ lm_line_nos lms2.
Proof.
  induction lms2 as [|lm lms2 IH]; intros d σ Hok.
  - simpl. split; [done|]. intros k. rewrite elem_of_nil. tauto.
  - rewrite merge_line_matches_cons.
    change (lm_line_nos (lm :: lms2)) with (line_no lm :: lm_line_nos lms2).
    destruct (dict_get (line_no lm) d) as [held|] eqn:Hget.
    + destruct (IH d (<[spans held := deref σ (spans held) ++ deref σ (spans lm)]> σ) Hok)
        as [IH1 IH2].
      split; [done|]. intros k. rewrite IH2, elem_of_cons.
      apply dict_get_Some in Hget.
      assert (line_no lm ∈ d.*1) by (apply list_elem_of_fmap; by eexists (_, _)).
      split; [tauto|]. intros [?|[->|?]]; tauto.
    + destruct (IH (dict_set (line_no lm) (LineMatch_copy lm) d) σ) as [IH1 IH2].
      { by apply dict_set_ok. }
      split; [done|]. intros k. rewrite IH2, dict_set_keys, elem_of_cons. tauto.
Qed.

(** X10: the line matches of a combination are in strictly increasing
    order of line number, and its line numbers are those of the first
    result together with those of the second, whatever the two results
    are. *)
Theorem combine_results_line_nos (a b : SearchResult) (σ : store) :
  let c := (combine_results a b σ).1 in
  StronglySorted lt (line_nos c) ∧
  ∀ n, n ∈ line_nos c ↔ n ∈ line_nos a ∨ n ∈ line_nos b.
Proof.
  rewrite combine_results_eq.
  destruct (dict_by_line_no_from_ok (line_matches a) []) as [Hok0 Hkeys0].
  { split; constructor. }
  destruct (merge_line_matches_keys (line_matches b) (dict_by_line_no (line_matches a)) σ Hok0)
    as [Hok Hkeys].
  destruct (merge_line_matches _ _ σ) as [d σ']. simpl in *.
  unfold line_nos. simpl. split.
  - apply strictly_sorted_line_nos. rewrite dict_ok_line_nos by done. apply Hok.
  - intros n. unfold lm_line_nos at 1. rewrite sorted_Permutation.
    fold (lm_line_nos (dict_values d)). rewrite dict_ok_line_nos by done.
    rewrite Hkeys. unfold dict_by_line_no. rewrite Hkeys0, elem_of_nil. tauto.
Qed.

(** X11: a combination keeps the title of the first result, and its
    title spans are the title spans of both results, duplicates kept, in
    ascending order. *)
Theorem combine_results_title_spans (a b : SearchResult) (σ : store) :
  let c := (combine_results a b σ).1 in
  title c = title a ∧
  title_spans c ≡ₚ title_spans a ++ title_spans b ∧
  StronglySorted span_le (title_spans c).
Proof.
  rewrite combine_results_eq. destruct (merge_line_matches _ _ σ) as [d σ']. simpl.
  split; [done|]. split; [apply sorted_Permutation|apply sorted_span_le].
Qed.

Lemma NoDup_fmap_elem_inj {A B} (f : A → B) (l : list A) x y :
  NoDup (f <$> l) → x ∈ l → y ∈ l → f x = f y → x = y.
Proof.
  induction l as [|z l IH]; [by intros _ ?%elem_of_nil|].
  rewrite fmap_cons, NoDup_cons, !elem_of_cons. intros [Hz Hnd] [->|Hx] [->|Hy] Heq;
    [done| | |by apply IH].
  - exfalso. apply Hz. rewrite Heq. by apply list_elem_of_fmap_2.
  - exfalso. apply Hz. rewrite <-Heq. by apply list_elem_of_fmap_2.
Qed.

Lemma merge_line_matches_length lms2 : ∀ d σ,
  length (merge_line_matches lms2 d σ).2 = length σ.
Proof.
  induction lms2 as [|lm lms2 IH]; intros d σ; [done|].
  rewrite merge_line_matches_cons. destruct (dict_get (line_no lm) d); [|apply IH].
  by rewrite IH, length_insert.
Qed.

Lemma elem_of_dict_set k v d kv : kv ∈ dict_set k v d → kv = (k, v) ∨ kv ∈ d.
Proof.
  induction d as [|[k0 v0] d IH]; simpl.
  - intros ?%list_elem_of_singleton. by left.
  - destruct (decide (k0 = k)); rewrite !elem_of_cons; [tauto|].
    intros [?|?%IH]; tauto.
Qed.

Lemma elem_of_dict_by_line_no kv lms :
  kv ∈ dict_by_line_no lms → kv.2 ∈ lms.
Proof.
  unfold dict_by_line_no.
  assert (∀ d, kv ∈ foldl (λ d lm, dict_set (line_no lm) lm d) d lms →
               kv ∈ d ∨ kv.2 ∈ lms) as H.
  { induction lms as [|lm lms IH]; intros d; cbn [foldl]; [by left|].
    intros [[->|?]%elem_of_dict_set|?]%IH; rewrite elem_of_cons; simpl; tauto. }
  intros [?%elem_of_nil|?]%H; done.
Qed.

(** Only the lists of the dictionary entries whose line a later line
    match has are extended. *)
Lemma merge_line_matches_frame lms2 l : ∀ d σ,
  NoDup (lm_line_nos lms2) →
  (∀ kv, kv ∈ d → kv.1 ∈ lm_line_nos lms2 → spans kv.2 ≠ l) →
  deref (merge_line_matches lms2 d σ).2 l = deref σ l.
Proof.
  induction lms2 as [|lm lms2 IH]; intros d σ Hnd Hd; [done|].
  change (lm_line_nos (lm :: lms2)) with (line_no lm :: lm_line_nos lms2) in *.
  apply NoDup_cons in Hnd as [Hlm Hnd]. rewrite merge_line_matches_cons.
  destruct (dict_get (line_no lm) d) as [held|] eqn:Hget.
  - rewrite IH; [|done|].
    + apply deref_insert_ne. apply dict_get_Some in Hget.
      apply (Hd (line_no lm, held) Hget). left.
    + intros kv Hkv Hk. apply Hd; [done|]. by right.
  - apply IH; [done|]. intros kv [->|Hkv]%elem_of_dict_set Hk; [done|].
    apply Hd; [done|]. by right.
Qed.

(** X12: [combine_results] creates no list, and it changes no span list
    other than those of the line matches of its first argument, when the
    second argument has no line number twice. *)
Theorem combine_results_frame (a b : SearchResult) (σ : store) :
  NoDup (line_nos b) →
  let σ' := (combine_results a b σ).2 in
  length σ' = length σ ∧ ∀ l, l ∉ locs_of a → deref σ' l = deref σ l.
Proof.
  intros Hnd. rewrite combine_results_eq.
  pose proof (merge_line_matches_length (line_matches b) (dict_by_line_no (line_matches a)) σ)
    as Hlen.
  pose proof (λ l, merge_line_matches_frame (line_matches b) l
                     (dict_by_line_no (line_matches a)) σ Hnd) as Hfr.
  destruct (merge_line_matches _ _ σ) as [d σ']. simpl in *.
  split; [done|]. intros l Hl. apply Hfr. intros kv Hkv _ <-. apply Hl.
  apply elem_of_dict_by_line_no in Hkv. by apply list_elem_of_fmap_2.
Qed.

Lemma combine_results_frame_witness :
  let '(a, σ1) := search_sonnet str_lower sonnet_test (py "at") [] in
  let '(b, σ) := search_sonnet str_lower sonnet_test (py "cat") σ1 in
  deref (combine_results a b σ).2 2 = deref σ 2.
Proof.
  destruct (search_sonnet str_lower sonnet_test (py "at") []) as [a σ1] eqn:Ea.
  destruct (search_sonnet str_lower sonnet_test (py "cat") σ1) as [b σ] eqn:Eb.
  vm_compute in Ea. injection Ea as <- <-. vm_compute in Eb. injection Eb as <- <-.
  apply combine_results_frame; apply (bool_decide_unpack _); vm_compute; exact I.
Defined.

Lemma merge_line_matches_extends lms2 : ∀ d σ,
  dict_ok d →
  NoDup (lm_locs (dict_values d) ++ lm_locs lms2) →
  Forall (λ l, l < length σ) (lm_locs (dict_values d) ++ lm_locs lms2) →
  ∀ kv, kv ∈ d →
    kv ∈ (merge_line_matches lms2 d σ).1 ∧
    deref (merge_line_matches lms2 d σ).2 (spans kv.2) =
      deref σ (spans kv.2) ++ line_spans σ lms2 kv.1.
Proof.
  induction lms2 as [|lm lms2 IH]; intros d σ Hok Hnd Hlt kv Hkv.
  { simpl. change (line_spans σ [] kv.1) with (@nil span). by rewrite app_nil_r. }
  change (lm_locs (lm :: lms2)) with (spans lm :: lm_locs lms2) in Hnd, Hlt.
  pose proof Hnd as Hnd0.
  apply NoDup_app in Hnd as (Hndd & Hdl & Hndl).
  apply NoDup_cons in Hndl as [Hlm Hndl].
  apply Forall_app in Hlt as [Hltd Hltl]. apply Forall_cons in Hltl as [Hltlm Hltl].
  assert (NoDup (lm_locs (dict_values d) ++ lm_locs lms2)) as Hnd1.
  { apply NoDup_app. split; [done|]. split; [|done].
    intros l Hl Hl2. apply (Hdl _ Hl). by right. }
  assert (∀ e, e ∈ d → spans e.2 ∈ lm_locs (dict_values d)) as Hloc.
  { intros e He. unfold lm_locs, dict_values. rewrite <-list_fmap_compose.
    by apply (list_elem_of_fmap_2 (spans ∘ snd)). }
  rewrite merge_line_matches_cons, line_spans_cons.
  destruct (dict_get (line_no lm) d) as [held|] eqn:Hget.
  - apply dict_get_Some in Hget.
    set (σ1 := <[spans held := deref σ (spans held) ++ deref σ (spans lm)]> σ).
    destruct (IH d σ1 Hok Hnd1) with kv as [IH1 IH2]; [|done|].
    { unfold σ1. rewrite length_insert. by apply Forall_app. }
    split; [done|]. rewrite IH2.
    rewrite (line_spans_agree σ σ1 lms2).
    2:{ intros l Hl. apply deref_insert_ne. intros <-.
        apply (Hdl (spans held)); [exact (Hloc (line_no lm, held) Hget)|by right]. }
    destruct (decide (spans kv.2 = spans held)) as [Heq|Hne].
    + assert (kv = (line_no lm, held)) as ->.
      { apply (NoDup_fmap_elem_inj (spans ∘ snd) d); [|done..].
        unfold lm_locs, dict_values in Hndd. by rewrite <-list_fmap_compose in Hndd. }
      simpl. rewrite decide_True by done. unfold σ1.
      rewrite deref_insert_eq; [by rewrite <-app_assoc|].
      rewrite Forall_forall in Hltd. exact (Hltd _ (Hloc (line_no lm, held) Hget)).
    + assert (line_no lm ≠ kv.1) as Hk.
      { intros Heq. apply Hne. f_equal.
        assert (kv = (line_no lm, held)) as ->; [|done].
        apply (NoDup_fmap_elem_inj fst d); [apply Hok|done..]. }
      rewrite decide_False by done. simpl. unfold σ1.
      by rewrite deref_insert_ne.
  - apply dict_get_None in Hget. rewrite dict_set_new by done.
    set (d1 := d ++ [(line_no lm, LineMatch_copy lm)]).
    assert (lm_locs (dict_values d1) = lm_locs (dict_values d) ++ [spans lm]) as Hlocs.
    { unfold d1, dict_values, lm_locs. by rewrite !fmap_app. }
    assert (line_no lm ≠ kv.1) as Hk.
    { intros Heq. apply Hget. rewrite Heq. by apply list_elem_of_fmap_2. }
    rewrite decide_False by done. simpl.
    apply IH.
    + by apply (dict_ok_snoc d (LineMatch_copy lm)).
    + by rewrite Hlocs, <-app_assoc.
    + rewrite Hlocs, <-app_assoc. apply Forall_app. split; [done|]. by constructor.
    + apply elem_of_app. by left.
Qed.

(** X13: for two results that own their span lists, [combine_results]
    keeps every line match of the first result in the combination and
    extends its span list in place by the spans that the second result
    holds for that line: the first argument is changed by the call. *)
Theorem combine_results_extends_first (a b : SearchResult) (σ : store) :
  owned σ [a; b] →
  let c := (combine_results a b σ).1 in
  let σ' := (combine_results a b σ).2 in
  ∀ lm, lm ∈ line_matches a →
    lm ∈ line_matches c ∧
    deref σ' (spans lm) = deref σ (spans lm) ++ spans_at σ b (line_no lm).
Proof.
  intros (Hnd & Hlt & Hla & Hlb)%owned_pair. unfold locs_of, line_nos in *.
  rewrite combine_results_eq.
  pose proof (merge_line_matches_extends (line_matches b)
                (dict_by_line_no (line_matches a)) σ) as Hext.
  rewrite dict_by_line_no_values in Hext by done.
  specialize (Hext (dict_by_line_no_ok _ Hla) Hnd Hlt).
  destruct (merge_line_matches _ _ σ) as [d σ']. simpl in *.
  intros lm Hlm. destruct (Hext (line_no lm, lm)) as [Hin Hd].
  { rewrite dict_by_line_no_NoDup by done.
    by apply (list_elem_of_fmap_2 (λ lm, (line_no lm, lm))). }
  split; [|done]. rewrite sorted_Permutation. unfold dict_values.
  by apply (list_elem_of_fmap_2 snd _ (line_no lm, lm)).
Qed.

Lemma combine_results_extends_first_witness :
  let '(a, σ1) := search_sonnet str_lower sonnet_test (py "at") [] in
  let '(b, σ) := search_sonnet str_lower sonnet_test (py "cat") σ1 in
  deref (combine_results a b σ).2 0 = [(3, 5); (7, 9)] ++ [(2, 5)].
Proof.
  destruct (search_sonnet str_lower sonnet_test (py "at") []) as [a σ1] eqn:Ea.
  destruct (search_sonnet str_lower sonnet_test (py "cat") σ1) as [b σ] eqn:Eb.
  vm_compute in Ea. injection Ea as <- <-. vm_compute in Eb. injection Eb as <- <-.
  match goal with |- deref (combine_results ?a ?b ?σ).2 _ = _ =>
    destruct (combine_results_extends_first a b σ) with (new_LineMatch 1 (py "a cat sat") 0)
      as [_ H] end.
  - apply owned_pair. repeat split; apply (bool_decide_unpack _); vm_compute; exact I.
  - vm_compute. left.
  - exact H.
Defined.

Lemma sorted_id {A} (ltb : A → A → bool) (R : relation A) (l : list A) :
  (∀ x y, R x y → ltb y x = false) → StronglySorted R l → sorted ltb l = l.
Proof.
  intros HR. induction 1 as [|x l Hl IH Hx]; [done|].
  unfold sorted in *. simpl. rewrite IH. destruct l as [|y l]; [done|].
  apply Forall_cons in Hx as [Hxy _]. simpl. by rewrite (HR x y).
Qed.

(** X14: combining with a result that holds nothing adds its count and
    changes nothing else, when the title spans and the line matches of the
    first result are in order, as they are after [search_sonnet] and after
    [combine_results]: the combination has the same title spans and line
    matches, and the store is as before. *)
Theorem combine_results_nothing (a b : SearchResult) (σ : store) :
  title_spans b = [] → line_matches b = [] →
  StronglySorted span_le (title_spans a) → StronglySorted lt (line_nos a) →
  combine_results a b σ = (set_matches (matches a + matches b) a, σ).
Proof.
  intros Htb Hlb Hts Hln. rewrite combine_results_eq, Htb, Hlb, app_nil_r. simpl.
  rewrite dict_by_line_no_values by by apply StronglySorted_lt_NoDup.
  rewrite sorted_span_sorted by done.
  rewrite (sorted_id line_no_ltb (λ x y, line_no x < line_no y)); [done| |].
  - intros x y Hxy. unfold line_no_ltb. apply Nat.ltb_ge. lia.
  - unfold line_nos, lm_line_nos in Hln.
    induction (line_matches a) as [|x l IH]; [constructor|].
    rewrite fmap_cons in Hln. apply StronglySorted_inv in Hln as [Hl Hx].
    constructor; [by apply IH|]. by rewrite Forall_fmap in Hx.
Qed.

Lemma combine_results_nothing_witness :
  let '(a, σ1) := search_sonnet str_lower sonnet_test (py "at") [] in
  let '(b, σ) := search_sonnet str_lower sonnet_test (py "dog") σ1 in
  combine_results a b σ = (set_matches (matches a + matches b) a, σ).
Proof.
  destruct (search_sonnet str_lower sonnet_test (py "at") []) as [a σ1] eqn:Ea.
  destruct (search_sonnet str_lower sonnet_test (py "dog") σ1) as [b σ] eqn:Eb.
  vm_compute in Ea. injection Ea as <- <-. vm_compute in Eb. injection Eb as <- <-.
  apply combine_results_nothing; try reflexivity.
  - constructor.
  - apply (bool_decide_unpack _). vm_compute. exact I.
Defined.

(** ** The query loop, read off the documents *)

Section and_query.
Variable lower : pystr → pystr.

Lemma doc_matches_zero s w σ r :
  found_in lower s w σ r → doc_matches lower s w = 0 →
  holds_words lower s [] σ (set_matches 0 r).
Proof.
  intros (Ht & Hts & Hm & Hls) Hz. unfold doc_matches in Hz.
  split; [done|]. split; [done|]. split.
  - simpl. rewrite Hts.
    destruct (find_spans (lower (sonnet_title s)) (lower w)); [done|simpl in Hz; lia].
  - intros n. change (spans_at σ (set_matches 0 r) n) with (spans_at σ r n).
    rewrite Hls. simpl. destruct n as [|j]; [done|]. simpl.
    destruct (sonnet_lines s !! j) as [line|] eqn:Hj; [|done].
    assert (length (find_spans (lower line) (lower w)) = 0) as Hlen.
    { assert (sum_list_with (λ line, length (find_spans (lower line) (lower w)))
                (sonnet_lines s) = 0) as Hsum by lia.
      clear -Hsum Hj. revert j Hj. induction (sonnet_lines s) as [|x l IH]; intros j Hj; [done|].
      simpl in Hsum. destruct j as [|j]; simpl in Hj.
      - injection Hj as ->. lia.
      - apply (IH ltac:(lia) j Hj). }
    by destruct (find_spans (lower line) (lower w)).
Qed.

Lemma sum_doc_matches_pos s ws :
  ws ≠ [] → Forall (λ w, 0 < doc_matches lower s w) ws →
  0 < sum_list_with (doc_matches lower s) ws.
Proof.
  intros Hne Hall. destruct Hall as [|w ws Hw _]; [done|]. simpl. lia.
Qed.

Lemma and_state_first s w σ r : found_in lower s w σ r → and_state lower s [w] σ r.
Proof.
  intros Hf. split; [apply Hf|].
  destruct (decide (doc_matches lower s w = 0)) as [Hz|Hnz].
  - right. exists [], w, []. split; [done|]. split; [constructor|]. split; [done|].
    split; [destruct Hf as (_ & _ & -> & _); done|].
    by apply (doc_matches_zero s w).
  - left. split; [constructor; [lia|constructor]|]. by apply holds_words_first.
Qed.

Lemma and_state_step s ws w σ σm σ' c r c' :
  ws ≠ [] →
  and_state lower s ws σ c →
  (∀ l, l ∈ locs_of c → deref σm l = deref σ l) →
  found_in lower s w σm r →
  merged AND σm c r σ' c' →
  and_state lower s (ws ++ [w]) σ' c'.
Proof.
  intros Hne [Ht Hst] Hag Hf Hm. unfold merged, combines in Hm.
  assert (matches r = doc_matches lower s w) as Hr by apply Hf.
  destruct Hst as [[Hall Hh]|(ws1 & w1 & ws2 & -> & Hall & Hz & Hmz & Hh)].
  - assert (0 < matches c) as Hpos.
    { destruct Hh as (_ & -> & _). by apply sum_doc_matches_pos. }
    destruct (decide (doc_matches lower s w = 0)) as [Hz|Hnz].
    + rewrite Hr, Hz in Hm. rewrite andb_false_r in Hm. destruct Hm as [-> Hsame].
      split; [done|]. right. exists ws, w, []. split; [done|]. split; [done|].
      split; [done|]. split; [done|].
      destruct Hh as (Ht' & Hm' & Hts & Hls). split; [done|]. split; [done|].
      split; [done|]. intros n.
      change (spans_at σ' (set_matches _ (set_matches 0 c)) n) with (spans_at σ' c n).
      rewrite (spans_at_agree σm σ' c) by done.
      by rewrite (spans_at_agree σ σm c).
    + assert ((0 <? matches c) && (0 <? matches r) = true) as Hb.
      { apply andb_true_iff. split; apply Nat.ltb_lt; lia. }
      rewrite Hb in Hm. split; [destruct Hm as (-> & _); done|]. left. split.
      * apply Forall_app. split; [done|]. constructor; [lia|constructor].
      * by apply (holds_words_step lower s ws w σ σm σ' c r c').
  - rewrite Hmz in Hm. simpl in Hm. destruct Hm as [-> Hsame].
    rewrite <-Hmz, set_matches_same.
    split; [done|]. right. exists ws1, w1, (ws2 ++ [w]).
    split; [by rewrite <-app_assoc|]. split; [done|]. split; [done|]. split; [done|].
    destruct Hh as (Ht' & Hm' & Hts & Hls). split; [done|]. split; [done|].
    split; [done|]. intros n.
    change (spans_at σ' (set_matches _ c) n) with (spans_at σ' c n).
    rewrite (spans_at_agree σm σ' c) by done.
    rewrite (spans_at_agree σ σm c) by done. apply Hls.
Qed.

Lemma query_words_AND sonnets ws : ∀ ws0 accs σ,
  ws0 ≠ [] →
  engine_inv AND sonnets σ accs →
  (∀ i s, sonnets !! i = Some s →
          ∃ acc, accs !! i = Some acc ∧ and_state lower s ws0 σ acc) →
  ∃ accs' σ', for_each (query_word lower AND sonnets) ws (accs, σ) = Some (accs', σ') ∧
    length accs' = length sonnets ∧
    ∀ i s, sonnets !! i = Some s →
           ∃ acc, accs' !! i = Some acc ∧ and_state lower s (ws0 ++ ws) σ' acc.
Proof.
  induction ws as [|w ws IH]; intros ws0 accs σ Hne Hinv Hholds.
  { exists accs, σ. rewrite app_nil_r. split; [done|]. split; [apply Hinv|done]. }
  destruct (query_word_spec lower AND sonnets w accs σ (or_intror Hinv))
    as (accs1 & σ1 & Heq & Hinv1 & _ & Hpt).
  destruct (IH (ws0 ++ [w]) accs1 σ1) as (accs' & σ' & Heq' & Hlen & Hholds').
  { by destruct ws0. }
  { done. }
  { intros i s Hs. destruct (Hholds i s Hs) as (acc & Hacc & Hh).
    destruct (Hpt i acc Hacc) as (r & σm & c' & Hag & Hf & Hc' & Hm).
    exists c'. split; [done|]. eapply and_state_step; eauto. }
  exists accs', σ'. cbn [for_each]. rewrite Heq. split; [done|]. split; [done|].
  intros i s Hs. rewrite (cons_middle w ws0 ws), app_assoc. by apply Hholds'.
Qed.

Lemma query_evaluation_AND_state sonnets w ws σ0 :
  ∃ accs σ, query_evaluation lower AND sonnets (w :: ws) σ0 = Some (accs, σ) ∧
    length accs = length sonnets ∧
    ∀ i s, sonnets !! i = Some s →
           ∃ acc, accs !! i = Some acc ∧ and_state lower s (w :: ws) σ acc.
Proof.
  unfold query_evaluation. cbn [for_each].
  destruct (query_word_spec lower AND sonnets w [] σ0 (or_introl eq_refl))
    as (accs1 & σ1 & -> & Hinv1 & Hfirst & _).
  destruct (query_words_AND sonnets ws [w] accs1 σ1) as (accs & σ & Heq & Hlen & Hholds);
    [done|done| |by exists accs, σ].
  intros i s Hs. destruct (Hfirst eq_refl i s Hs) as (r & Hr & Hf).
  exists r. split; [done|]. by apply and_state_first.
Qed.

Lemma gated_after_not_all s ws σ acc :
  gated_after lower s ws σ acc →
  matches acc = 0 ∧ ¬ Forall (λ w, 0 < doc_matches lower s w) ws.
Proof.
  intros (ws1 & w & ws2 & -> & _ & Hz & Hm & _). split; [done|].
  intros Hall. apply Forall_app in Hall as [_ Hall].
  apply Forall_cons in Hall as [Hw _]. lia.
Qed.
End and_query.

(** X15: an OR query of at least one word does not fail, and it gives one
    accumulator per document, in the order of the documents. The
    accumulator has the title of its document; its count is the sum of the
    counts of the words in the document; its title spans and its spans on
    every line are those of all the words, as multisets. *)
Theorem query_evaluation_OR_holds (lower : pystr → pystr) (sonnets : list Sonnet)
    (w : pystr) (ws : list pystr) (σ0 : store) :
  ∃ accs σ, query_evaluation lower OR sonnets (w :: ws) σ0 = Some (accs, σ) ∧
    length accs = length sonnets ∧
    ∀ i s, sonnets !! i = Some s →
      ∃ acc, accs !! i = Some acc ∧ holds_words lower s (w :: ws) σ acc.
Proof. apply query_evaluation_OR. Qed.

(** X16: an AND query of at least one word does not fail, and it gives
    one accumulator per document, in the order of the documents, with the
    title of its document. The count of an accumulator is not zero exactly
    when every word of the query occurs in the document, and then the
    accumulator holds what it holds under OR: the sum of the counts and the
    spans of all the words. *)
Theorem query_evaluation_AND_holds (lower : pystr → pystr) (sonnets : list Sonnet)
    (w : pystr) (ws : list pystr) (σ0 : store) :
  ∃ accs σ, query_evaluation lower AND sonnets (w :: ws) σ0 = Some (accs, σ) ∧
    length accs = length sonnets ∧
    ∀ i s, sonnets !! i = Some s →
      ∃ acc, accs !! i = Some acc ∧
        title acc = sonnet_title s ∧
        (0 < matches acc ↔ Forall (λ w, 0 < doc_matches lower s w) (w :: ws)) ∧
        (0 < matches acc → holds_words lower s (w :: ws) σ acc).
Proof.
  destruct (query_evaluation_AND_state lower sonnets w ws σ0) as (accs & σ & Heq & Hlen & Hst).
  exists accs, σ. split; [done|]. split; [done|]. intros i s Hs.
  destruct (Hst i s Hs) as (acc & Hacc & Ht & [[Hall Hh]|Hg]).
  - exists acc. split; [done|]. split; [done|].
    assert (0 < matches acc) as Hpos.
    { destruct Hh as (_ & -> & _). by apply sum_doc_matches_pos. }
    split; [tauto|done].
  - exists acc. split; [done|]. split; [done|].
    apply gated_after_not_all in Hg as [Hz Hn]. split; [|lia]. split; [lia|tauto].
Qed.

(** X17: under AND, the accumulator of a document in which some word of
    the query does not occur has the count zero, and it still holds the
    title spans and the line spans of the words before the first such
    word: the spans collected so far are not removed. *)
Theorem query_evaluation_AND_gated (lower : pystr → pystr) (sonnets : list Sonnet)
    (w : pystr) (ws : list pystr) (σ0 : store) (i : nat) (s : Sonnet) :
  sonnets !! i = Some s →
  ¬ Forall (λ w, 0 < doc_matches lower s w) (w :: ws) →
  ∃ accs σ acc, query_evaluation lower AND sonnets (w :: ws) σ0 = Some (accs, σ) ∧
    accs !! i = Some acc ∧ gated_after lower s (w :: ws) σ acc.
Proof.
  intros Hs Hn.
  destruct (query_evaluation_AND_state lower sonnets w ws σ0) as (accs & σ & Heq & Hlen & Hst).
  destruct (Hst i s Hs) as (acc & Hacc & Ht & [[Hall Hh]|Hg]); [done|].
  by exists accs, σ, acc.
Qed.

Lemma query_evaluation_AND_gated_witness :
  ∃ accs σ acc,
    query_evaluation str_lower AND [sonnet_test] [py "cat"; py "dog"; py "sat"] [] =
      Some (accs, σ) ∧
    accs !! 0 = Some acc ∧
    gated_after str_lower sonnet_test [py "cat"; py "dog"; py "sat"] σ acc.
Proof.
  apply (query_evaluation_AND_gated str_lower [sonnet_test] (py "cat")
           [py "dog"; py "sat"] [] 0 sonnet_test); [reflexivity|].
  intros Hall. apply Forall_cons in Hall as [_ Hall].
  apply Forall_cons in Hall as [Hdog _]. vm_compute in Hdog. lia.
Defined.

(** ** Matches and occurrences *)

Lemma find_spans_occurs text pattern :
  find_spans text pattern ≠ [] ↔ pattern ≠ [] ∧ occurs_in pattern text.
Proof.
  split.
  - intros Hne. destruct (decide (pattern = [])) as [->|Hp]; [done|].
    split; [done|]. destruct (find_spans text pattern) as [|[s e] l] eqn:Hfs; [done|].
    assert ((s, e) ∈ find_spans text pattern) as Hin by (rewrite Hfs; left).
    apply elem_of_find_spans in Hin as (_ & _ & Hsl); [|done].
    exists (take s text), (drop (s + length pattern) text).
    unfold slice in Hsl.
    replace (s + length pattern - s) with (length pattern) in Hsl by lia.
    rewrite <-Hsl at 1. rewrite <-drop_drop.
    by rewrite (take_drop (length pattern) (drop s text)), take_drop.
  - intros (Hp & pre & post & ->) Hnil.
    assert ((length pre, length pre + length pattern) ∈ find_spans (pre ++ pattern ++ post) pattern)
      as Hin; [|by rewrite Hnil in Hin; apply elem_of_nil in Hin].
    apply elem_of_find_spans; [done|]. split; [done|]. split.
    + rewrite !length_app. lia.
    + unfold slice. rewrite drop_app_length.
      replace (length pre + length pattern - length pre) with (length pattern) by lia.
      by rewrite take_app_length.
Qed.

Lemma sum_list_with_pos {A} (f : A → nat) (l : list A) :
  0 < sum_list_with f l ↔ ∃ x, x ∈ l ∧ 0 < f x.
Proof.
  induction l as [|y l IH]; simpl.
  - split; [lia|]. by intros (x & Hx%elem_of_nil & _).
  - split.
    + intros Hpos. destruct (decide (0 < f y)) as [Hy|Hy].
      * exists y. split; [left|done].
      * destruct (proj1 IH ltac:(lia)) as (x & Hx & Hfx). exists x. split; [by right|done].
    + intros (x & Hx & Hfx). apply elem_of_cons in Hx as [->|Hx]; [lia|].
      assert (0 < sum_list_with f l) by (apply IH; eauto). lia.
Qed.

Lemma length_pos_ne {A} (l : list A) : 0 < length l ↔ l ≠ [].
Proof. destruct l; simpl; split; (done || lia). Qed.

Lemma doc_matches_pos lower sonnet word :
  0 < doc_matches lower sonnet word ↔
    lower word ≠ [] ∧
    ∃ t, t ∈ sonnet_title sonnet :: sonnet_lines sonnet ∧
         occurs_in (lower word) (lower t).
Proof.
  unfold doc_matches. split.
  - intros Hpos.
    destruct (decide (find_spans (lower (sonnet_title sonnet)) (lower word) = [])) as [Ht|Ht].
    + rewrite Ht in Hpos. simpl in Hpos.
      apply sum_list_with_pos in Hpos as (line & Hin & Hl).
      apply length_pos_ne, find_spans_occurs in Hl as [Hq Hocc].
      split; [done|]. exists line. split; [by right|done].
    + apply find_spans_occurs in Ht as [Hq Hocc]. split; [done|].
      exists (sonnet_title sonnet). split; [left|done].
  - intros (Hq & t & Hin & Hocc).
    assert (0 < length (find_spans (lower t) (lower word))) as Hpos.
    { apply length_pos_ne, find_spans_occurs. by split. }
    apply elem_of_cons in Hin as [->|Hin]; [lia|].
    assert (0 < sum_list_with (λ line, length (find_spans (lower line) (lower word)))
                  (sonnet_lines sonnet)); [|lia].
    apply sum_list_with_pos. by exists t.
Qed.

(** X18: [find_spans] finds a span exactly when the pattern is not empty
    and occurs in the text as a substring. *)
Theorem find_spans_finds (text pattern : pystr) :
  find_spans text pattern ≠ [] ↔
    pattern ≠ [] ∧ ∃ pre post, text = pre ++ pattern ++ post.
Proof. apply find_spans_occurs. Qed.

(** X19: the count of a [search_sonnet] result is not zero exactly when
    the lowered query is not empty and occurs in the lowered title or in
    a lowered line of the sonnet. *)
Theorem search_sonnet_finds (lower : pystr → pystr) (sonnet : Sonnet)
    (query : pystr) (σ : store) :
  0 < matches (search_sonnet lower sonnet query σ).1 ↔
    lower query ≠ [] ∧
    ∃ t, t ∈ sonnet_title sonnet :: sonnet_lines sonnet ∧
         occurs_in (lower query) (lower t).
Proof.
  destruct (search_sonnet_view lower sonnet query σ) as (_ & _ & -> & _).
  apply doc_matches_pos.
Qed.

(** ** What [print_results] prints *)

Lemma strip_markers_plain t : ESC ∉ t → strip_markers t = t.
Proof.
  intros Hesc. rewrite <-(app_nil_r t) at 1.
  rewrite strip_markers_text by done. by rewrite app_nil_r.
Qed.

Lemma strip_markers_ansi_highlight text spans :
  Forall (λ sp : span, sp.1 < sp.2) spans → ESC ∉ text →
  strip_markers (ansi_highlight text spans) = text.
Proof.
  intros Hv Hesc. unfold ansi_highlight, ansi_highlight_out.
  destruct spans as [|sp spans].
  { simpl. rewrite app_nil_r. by apply strip_markers_plain. }
  rewrite strip_markers_highlight_out by done.
  rewrite highlight_out_erase; [done|..].
  - by apply merge_spans_apart.
  - apply Forall_forall. intros; lia.
Qed.

Lemma uint_codes_digits u : Forall (λ c, (48 ≤ c ≤ 57)%N) (uint_codes u).
Proof. induction u; simpl; constructor; (lia || done). Qed.

Lemma str_of_nat_no_ESC n : ESC ∉ str_of_nat n.
Proof.
  intros Hin. pose proof (uint_codes_digits (Nat.to_uint n)) as Hd.
  rewrite Forall_forall in Hd. specialize (Hd _ Hin). unfold ESC in Hd. lia.
Qed.

Lemma rjust_no_ESC w s : ESC ∉ s → ESC ∉ rjust w s.
Proof.
  intros Hs. unfold rjust. rewrite elem_of_app. intros [Hin|Hin]; [|done].
  by apply elem_of_replicate in Hin as [? _].
Qed.

Lemma py_no_ESC_app (a b : pystr) : ESC ∉ a → ESC ∉ b → ESC ∉ a ++ b.
Proof. intros Ha Hb. rewrite elem_of_app. tauto. Qed.

Ltac no_ESC :=
  repeat first
    [ apply str_of_nat_no_ESC
    | apply rjust_no_ESC
    | assumption
    | apply (bool_decide_unpack _); vm_compute; exact I
    | apply py_no_ESC_app ].

Lemma matched_titles (P : Sonnet → Prop) `{!∀ s, Decision (P s)} sonnets : ∀ accs,
  length accs = length sonnets →
  (∀ i s, sonnets !! i = Some s →
     ∃ acc, accs !! i = Some acc ∧ title acc = sonnet_title s ∧ (0 < matches acc ↔ P s)) →
  title <$> matched accs = sonnet_title <$> filter P sonnets.
Proof.
  induction sonnets as [|s sonnets IH]; intros accs Hlen Hpt.
  { by destruct accs. }
  destruct accs as [|acc accs]; [done|].
  destruct (Hpt 0 s eq_refl) as (acc0 & [= <-] & Ht & Hiff).
  unfold matched in *. rewrite !filter_cons.
  assert (title <$> filter (λ r, 0 < matches r) accs = sonnet_title <$> filter P sonnets) as Hrec.
  { apply IH; [by injection Hlen|]. intros i s' Hs'. apply (Hpt (S i) s' Hs'). }
  destruct (decide (0 < matches acc)) as [Hm|Hm], (decide (P s)) as [Hp|Hp]; try tauto.
  by rewrite !fmap_cons, Ht, Hrec.
Qed.

Section print_facts.
Variable Float : Type.
Variable format_2f : Float → pystr.

Lemma print_result_strip σ total idx r :
  ESC ∉ title r → Forall (λ sp : span, sp.1 < sp.2) (title_spans r) →
  Forall (λ lm, (ESC ∉ text lm) ∧ Forall (λ sp : span, sp.1 < sp.2) (deref σ (spans lm)))
         (line_matches r) →
  strip_markers <$> print_result true σ total idx r = print_result false σ total idx r.
Proof.
  intros Ht Hts Hlms. unfold print_result. rewrite fmap_cons. f_equal.
  - rewrite (app_assoc [10%N]). rewrite !(app_assoc _ _ (title_line _ _)).
    rewrite strip_markers_text.
    + unfold title_line. by rewrite strip_markers_ansi_highlight.
    + no_ESC.
  - rewrite <-list_fmap_compose. apply Forall_fmap_ext.
    eapply Forall_impl; [exact Hlms|]. intros lm [Htx Hsp]. cbv beta delta [compose].
    rewrite !(app_assoc _ _ (line_out _ _ _)).
    rewrite strip_markers_text.
    + unfold line_out. by rewrite strip_markers_ansi_highlight.
    + no_ESC.
Qed.

Lemma header_line_no_ESC query n total t :
  ESC ∉ query → from_option (λ x, ESC ∉ format_2f x) True t →
  ESC ∉ header_line Float format_2f query n total t.
Proof.
  intros Hq Ht. unfold header_line.
  assert (ESC ∉ str_of_nat n ++ py " out of " ++ str_of_nat total ++
            py " sonnets contain " ++ [34%N] ++ query ++ [34%N] ++ py ".") as Hline.
  { no_ESC. }
  destruct t as [x|]; [|done]. simpl in Ht.
  no_ESC.
Qed.
End print_facts.

Section print_props.
Variable Float : Type.
Variable format_2f : Float → pystr.

Lemma print_each_strip σ total l : ∀ g : nat → nat,
  Forall (printable σ) l →
  strip_markers <$> concat (imap (λ i r, print_result true σ total (g i) r) l) =
  concat (imap (λ i r, print_result false σ total (g i) r) l).
Proof.
  induction l as [|r l IH]; intros g Hl; [done|].
  apply Forall_cons in Hl as [(Ht & Hts & Hlms) Hl].
  rewrite !imap_cons. cbn [concat]. rewrite fmap_app.
  rewrite print_result_strip by done. f_equal.
  apply (IH (g ∘ S) Hl).
Qed.
End print_props.

(** X20: with highlighting on, [print_results] prints what it prints with
    highlighting off, with escape codes put in: when the query, the time
    and the texts of the results that are printed hold no escape character
    and no span is empty, deleting the two escape codes from every printed
    string gives the strings printed with highlighting off. *)
Theorem print_results_strip (Float : Type) (format_2f : Float → pystr)
    (query : pystr) (results : list SearchResult) (t : option Float) (σ : store) :
  ESC ∉ query →
  from_option (λ x, ESC ∉ format_2f x) True t →
  Forall (printable σ) (matched results) →
  strip_markers <$> print_results Float format_2f query results true t σ =
  print_results Float format_2f query results false t σ.
Proof.
  intros Hq Ht Hrs. unfold print_results. rewrite fmap_cons. f_equal.
  - apply strip_markers_plain. by apply header_line_no_ESC.
  - by apply (print_each_strip σ (length results) (matched results) S).
Qed.

Lemma print_results_strip_witness :
  let '(r, σ) := search_sonnet str_lower sonnet_test (py "at") [] in
  strip_markers <$> print_results unit (λ _, py "0.25") (py "at") [r] true (Some ()) σ =
  print_results unit (λ _, py "0.25") (py "at") [r] false (Some ()) σ.
Proof.
  destruct (search_sonnet str_lower sonnet_test (py "at") []) as [r σ] eqn:E.
  vm_compute in E. injection E as <- <-.
  apply print_results_strip.
  - apply (bool_decide_unpack _). vm_compute. exact I.
  - apply (bool_decide_unpack _). vm_compute. exact I.
  - repeat constructor; apply (bool_decide_unpack _); vm_compute; exact I.
Defined.

(** X21: after an AND query of at least one word, [print_results] counts
    and prints exactly the sonnets in which every word of the query
    occurs, in the order of the corpus, and the total it prints is the
    number of sonnets. *)
Theorem print_results_AND (lower : pystr → pystr) (sonnets : list Sonnet)
    (w : pystr) (ws : list pystr) (σ0 : store) :
  ∃ accs σ, query_evaluation lower AND sonnets (w :: ws) σ0 = Some (accs, σ) ∧
    length accs = length sonnets ∧
    title <$> matched accs =
      sonnet_title <$>
        filter (λ s, Forall (λ w, 0 < doc_matches lower s w) (w :: ws)) sonnets.
Proof.
  destruct (query_evaluation_AND_state lower sonnets w ws σ0) as (accs & σ & Heq & Hlen & Hst).
  exists accs, σ. split; [done|]. split; [done|].
  apply matched_titles; [done|]. intros i s Hs.
  destruct (Hst i s Hs) as (acc & Hacc & Ht & [[Hall Hh]|Hg]).
  - exists acc. split; [done|]. split; [done|].
    assert (0 < matches acc) as Hpos.
    { destruct Hh as (_ & -> & _). by apply sum_doc_matches_pos. }
    tauto.
  - exists acc. split; [done|]. split; [done|].
    apply gated_after_not_all in Hg as [Hz Hn]. split; [lia|tauto].
Qed.

(** X22: after an OR query of at least one word, [print_results] counts
    and prints exactly the sonnets in which some word of the query occurs,
    in the order of the corpus, and the total it prints is the number of
    sonnets. *)
Theorem print_results_OR (lower : pystr → pystr) (sonnets : list Sonnet)
    (w : pystr) (ws : list pystr) (σ0 : store) :
  ∃ accs σ, query_evaluation lower OR sonnets (w :: ws) σ0 = Some (accs, σ) ∧
    length accs = length sonnets ∧
    title <$> matched accs =
      sonnet_title <$>
        filter (λ s, Exists (λ w, 0 < doc_matches lower s w) (w :: ws)) sonnets.
Proof.
  destruct (query_evaluation_OR lower sonnets w ws σ0) as (accs & σ & Heq & Hlen & Hst).
  exists accs, σ. split; [done|]. split; [done|].
  apply matched_titles; [done|]. intros i s Hs.
  destruct (Hst i s Hs) as (acc & Hacc & Ht & Hm & _).
  exists acc. split; [done|]. split; [done|].
  rewrite Hm, sum_list_with_pos, Exists_exists. done.
Qed.

(** ** The configuration *)

Lemma str_in_occurs pattern text : str_in pattern text = true ↔ occurs_in pattern text.
Proof.
  induction text as [|c text IH].
  - simpl. rewrite orb_false_r, bool_decide_eq_true. split.
    + rewrite take_nil. intros <-. by exists [], [].
    + intros (pre & post & Heq). symmetry in Heq.
      apply app_eq_nil in Heq as [_ Heq]. by apply app_eq_nil in Heq as [-> _].
  - cbn [str_in]. rewrite orb_true_iff, bool_decide_eq_true, IH. split.
    + intros [Heq|(pre & post & ->)].
      * exists [], (drop (length pattern) (c :: text)). simpl.
        rewrite <-Heq at 1. by rewrite take_drop.
      * by exists (c :: pre), post.
    + intros (pre & post & Heq). destruct pre as [|c' pre].
      * left. simpl in Heq. rewrite Heq. by rewrite take_app_length.
      * right. injection Heq as <- ->. by exists pre, post.
Qed.

Section config_facts.
Variable number : Type.

Lemma existsb_is_str key (l : list (json number)) :
  existsb (is_str number key) l = true ↔ JStr number key ∈ l.
Proof.
  rewrite existsb_exists. split.
  - intros (x & Hin & Hx). destruct x; try done. simpl in Hx.
    apply bool_decide_eq_true in Hx as ->. by apply list_elem_of_In.
  - intros Hin. exists (JStr number key). split; [by apply list_elem_of_In|].
    simpl. by apply bool_decide_eq_true.
Qed.

Lemma key_in_None key (other : json number) :
  key_in number key other = None ↔
    match other with
    | JStr _ s => occurs_in key s
    | JList _ l => JStr number key ∈ l
    | _ => True
    end.
Proof.
  destruct other as [| | |s|l|]; simpl; try done.
  - rewrite <-str_in_occurs. by destruct (str_in key s).
  - rewrite <-existsb_is_str. by destruct (existsb _ l).
Qed.

Lemma mode_of_is_Some (c : Configuration) :
  is_Some (mode_of c) ↔ cfg_search_mode c ∈ [py "AND"; py "OR"].
Proof.
  unfold mode_of. rewrite !elem_of_cons, elem_of_nil.
  repeat case_bool_decide; split; intros Hx; try (by eexists); try tauto.
  by destruct Hx.
Qed.

Lemma update_mode_valid (c : Configuration) (other : gmap pystr (json number)) :
  is_Some (mode_of c) → is_Some (mode_of (update number c other)).
Proof.
  rewrite !mode_of_is_Some. intros Hc. unfold update.
  destruct (other !! py "search_mode") as [[| | |s| |]|];
    try (by destruct (other !! py "highlight") as [[]|]).
  case_bool_decide; [done|]. by destruct (other !! py "highlight") as [[]|].
Qed.

Lemma load_config_mode_valid file c :
  load_config number file = Some c → is_Some (mode_of c).
Proof.
  assert (is_Some (mode_of (Configuration_copy DEFAULT_CONFIG))) as Hd by by eexists.
  destruct file as [| | | |content]; simpl; try done; try by intros [= <-].
  destruct content as [| | |s|l|members]; simpl; try done.
  - destruct (str_in (py "highlight") s), (str_in (py "search_mode") s); simpl; try done.
    by intros [= <-].
  - destruct (existsb (is_str number (py "highlight")) l),
      (existsb (is_str number (py "search_mode")) l); simpl; try done.
    by intros [= <-].
  - intros [= <-]. by apply update_mode_valid.
Qed.
End config_facts.

Section main_facts.
Variable lower upper : pystr → pystr.
Variable is_space : N → bool.
Variable HELP : pystr.

Lemma main_step_mode_valid config write_ok line config' saved out :
  is_Some (mode_of config) →
  main_step lower upper is_space HELP config write_ok line = Continue config' saved out →
  is_Some (mode_of config').
Proof.
  intros Hc. unfold main_step. destruct line as [line|]; [|done].
  repeat case_bool_decide; try done; repeat case_match; try done;
    try (by intros [= <- _ _]);
    repeat case_bool_decide; try done; try (by intros [= <- _ _]).
  all: intros [= <- _ _]; by apply mode_of_is_Some.
Qed.

Lemma config_after_mode_valid lines : ∀ config,
  is_Some (mode_of config) →
  is_Some (mode_of (config_after lower upper is_space HELP config lines)).
Proof.
  induction lines as [|[write_ok line] lines IH]; intros config Hc; [done|].
  cbn [config_after].
  destruct (main_step lower upper is_space HELP config write_ok line) as [|config' ? ?|] eqn:E;
    [done| |by apply IH].
  apply IH. by eapply main_step_mode_valid.
Qed.

Lemma lstrip_head s :
  lstrip is_space s = [] ∨ ∃ c rest, lstrip is_space s = c :: rest ∧ is_space c = false.
Proof.
  induction s as [|c s IH]; [by left|]. simpl.
  destruct (is_space c) eqn:Hc; [done|]. right. by exists c, s.
Qed.

Lemma strip_not_space line :
  strip is_space line ≠ [] → Exists (λ c, is_space c = false) (strip is_space line).
Proof.
  unfold strip. intros Hne.
  destruct (lstrip_head (reverse (lstrip is_space line))) as [Heq|(c & rest & Heq & Hc)].
  - by rewrite Heq in Hne.
  - rewrite Heq. apply Exists_exists. exists c. split; [|done].
    rewrite elem_of_reverse. left.
Qed.

Lemma split_from_words s : ∀ word,
  Forall (λ c, is_space c = false) word →
  Forall (λ w, w ≠ [] ∧ Forall (λ c, is_space c = false) w) (split_from is_space word s).
Proof.
  induction s as [|c s IH]; intros word Hw; simpl.
  - destruct word; [constructor|]. constructor; [by split|constructor].
  - destruct (is_space c) eqn:Hc.
    + destruct word as [|c' word']; [by apply IH|].
      constructor; [done|]. by apply IH.
    + apply IH. apply Forall_app. split; [done|]. by constructor.
Qed.

Lemma split_from_ne s : ∀ word,
  word ≠ [] ∨ Exists (λ c, is_space c = false) s → split_from is_space word s ≠ [].
Proof.
  induction s as [|c s IH]; intros word Hw; simpl.
  - destruct Hw as [Hw|Hw]; [by destruct word|by apply Exists_nil in Hw].
  - destruct (is_space c) eqn:Hc.
    + destruct word as [|c' word']; [|done]. apply IH.
      destruct Hw as [Hw|Hw]; [done|]. right.
      apply Exists_cons in Hw as [Hw|Hw]; [congruence|done].
    + apply IH. left. by destruct word.
Qed.
End main_facts.

(** X23: the search mode of the configuration is [AND] or [OR] at all
    times, so that one of the two branches of the query loop is taken:
    it is so in the configuration that [load_config] returns, whatever
    the file holds, and it stays so through every line that [main]
    reads. *)
Theorem main_search_mode_valid (number : Type) (lower upper : pystr → pystr)
    (is_space : N → bool) (HELP : pystr) (file : config_file number)
    (config : Configuration) (lines : list (bool * option pystr)) :
  load_config number file = Some config →
  is_Some (mode_of (config_after lower upper is_space HELP config lines)).
Proof.
  intros Hload. apply config_after_mode_valid. by eapply load_config_mode_valid.
Qed.

Lemma main_search_mode_valid_witness :
  is_Some (mode_of
    (config_after str_lower id (N.eqb 32) (py "help")
       (new_Configuration true (py "OR"))
       [(true, Some (py " :search-mode AND ")); (false, Some (py ":highlight off"))])).
Proof.
  apply (main_search_mode_valid Z str_lower id (N.eqb 32) (py "help")
           (Decoded Z (JObject Z [(py "search_mode", JStr Z (py "OR"));
                                  (py "highlight", JNum Z 3%Z)]))).
  vm_compute. reflexivity.
Defined.

(** X24: what [save_config] writes is read back by [load_config], and by
    an [update] of any configuration, as the configuration that was
    saved, when its search mode is [AND] or [OR]. *)
Theorem save_config_round_trip (number : Type) (cfg cfg0 : Configuration) :
  is_Some (mode_of cfg) →
  load_config number (Decoded number (save_config number cfg)) = Some cfg ∧
  ∀ members, save_config number cfg = JObject number members →
    update number cfg0 (dict_of number members) = cfg.
Proof.
  intros Hm%mode_of_is_Some.
  assert (∀ c0, update number c0
            (dict_of number [(py "highlight", JBool number (cfg_highlight cfg));
                             (py "search_mode", JStr number (cfg_search_mode cfg))]) = cfg)
    as Hupd.
  { intros c0. unfold update, dict_of.
    change (reverse [?a; ?b]) with [b; a]. cbn [list_to_map foldr fst snd].
    rewrite (lookup_insert_ne _ (py "search_mode") (py "highlight"))
      by (apply (bool_decide_unpack _); vm_compute; exact I). rewrite lookup_insert_eq.
    rewrite lookup_insert_eq. rewrite bool_decide_true by done. by destruct cfg. }
  split.
  - unfold load_config, save_config, update_decoded. by rewrite Hupd.
  - intros members [= <-]. apply Hupd.
Qed.

Lemma save_config_round_trip_witness :
  load_config Z (Decoded Z (save_config Z (new_Configuration false (py "OR")))) =
    Some (new_Configuration false (py "OR")).
Proof.
  apply (save_config_round_trip Z (new_Configuration false (py "OR")) DEFAULT_CONFIG).
  by eexists.
Defined.

(** X25: [Configuration.update] with the same dictionary a second time
    changes nothing. *)
Theorem update_twice (number : Type) (self : Configuration)
    (other : gmap pystr (json number)) :
  update number (update number self other) other = update number self other.
Proof.
  unfold update.
  destruct (other !! py "highlight") as [[| | | | |]|],
    (other !! py "search_mode") as [[| | |mode| |]|]; try done;
    by case_bool_decide.
Qed.

(** X26: [load_config] raises a [TypeError] for a configuration file that
    holds JSON other than an object, unless it is a string or a list in
    which neither of the two keys is found: for [null], a truth value and
    a number; for a string in which [highlight] or [search_mode] occurs;
    and for a list of which one of the two is an element. For an object
    it never does. *)
Theorem load_config_raises (number : Type) (content : json number) :
  load_config number (Decoded number content) = None ↔
    match content with
    | JObject _ _ => False
    | JStr _ s => occurs_in (py "highlight") s ∨ occurs_in (py "search_mode") s
    | JList _ l => JStr number (py "highlight") ∈ l ∨ JStr number (py "search_mode") ∈ l
    | _ => True
    end.
Proof.
  unfold load_config, update_decoded.
  destruct content as [| | |s|l|members]; try done.
  - rewrite <-!str_in_occurs. simpl.
    destruct (str_in (py "highlight") s), (str_in (py "search_mode") s); simpl;
      split; (done || tauto || intros [|]; done).
  - rewrite <-!existsb_is_str. simpl.
    destruct (existsb (is_str number (py "highlight")) l),
      (existsb (is_str number (py "search_mode")) l); simpl;
      split; (done || tauto || intros [|]; done).
Qed.

(** X27: a line is evaluated as a query exactly when, with the white
    space at its ends removed, it is not empty and does not start with a
    colon; the words of the query are then those of [split]. The test
    [if not words] of the query evaluation never holds. *)
Theorem main_step_evaluate (lower upper : pystr → pystr) (is_space : N → bool)
    (HELP : pystr) (config : Configuration) (write_ok : bool)
    (line : pystr) (words : list pystr) :
  main_step lower upper is_space HELP config write_ok (Some line) = Evaluate words ↔
    strip is_space line ≠ [] ∧
    startswith (strip is_space line) (py ":") = false ∧
    words = split is_space (strip is_space line).
Proof.
  unfold main_step. split.
  - case_bool_decide as Hraw; [done|].
    destruct (startswith (strip is_space line) (py ":")) eqn:Hcolon.
    + repeat case_bool_decide; try done; repeat case_match; try done;
        repeat case_bool_decide; done.
    + destruct (split is_space (strip is_space line)) as [|w ws] eqn:Hsplit; [done|].
      by intros [= <-].
  - intros (Hraw & Hcolon & ->). rewrite bool_decide_false by done. rewrite Hcolon.
    pose proof (split_from_ne is_space (strip is_space line) []
                  (or_intror (strip_not_space is_space line Hraw))) as Hne.
    fold (split is_space (strip is_space line)) in Hne.
    by destruct (split is_space (strip is_space line)).
Qed.

(** X28: a query that is evaluated has at least one word, and every word
    is not empty and holds no white space. *)
Theorem main_step_words (lower upper : pystr → pystr) (is_space : N → bool)
    (HELP : pystr) (config : Configuration) (write_ok : bool)
    (line : option pystr) (words : list pystr) :
  main_step lower upper is_space HELP config write_ok line = Evaluate words →
  words ≠ [] ∧ Forall (λ w, w ≠ [] ∧ Forall (λ c, is_space c = false) w) words.
Proof.
  destruct line as [line|]; [|done]. unfold main_step.
  case_bool_decide as Hraw; [done|].
  destruct (startswith (strip is_space line) (py ":")) eqn:Hcolon.
  { repeat case_bool_decide; try done; repeat case_match; try done;
      repeat case_bool_decide; done. }
  pose proof (split_from_words is_space (strip is_space line) [] (Forall_nil_2 _)) as Hws.
  fold (split is_space (strip is_space line)) in Hws.
  destruct (split is_space (strip is_space line)) as [|w ws]; [done|].
  by intros [= <-].
Qed.

Lemma main_step_words_witness :
  [py "love"; py "time"] ≠ [] ∧
  Forall (λ w, w ≠ [] ∧ Forall (λ c, N.eqb 32 c = false) w) [py "love"; py "time"].
Proof.
  apply (main_step_words str_lower id (N.eqb 32) (py "help") DEFAULT_CONFIG true
           (Some (py "  love   time "))).
  vm_compute. reflexivity.
Defined.

(** ** The accumulators and their sonnets *)

Lemma LineMatch_copy_eq lm : LineMatch_copy lm = lm.
Proof. by destruct lm. Qed.

Lemma merge_line_matches_all (P : LineMatch → Prop) lms2 : ∀ d σ,
  Forall P lms2 → Forall (λ kv, P kv.2) d →
  Forall (λ kv, P kv.2) (merge_line_matches lms2 d σ).1.
Proof.
  induction lms2 as [|lm lms2 IH]; intros d σ Hl Hd; [done|].
  apply Forall_cons in Hl as [Hlm Hl]. rewrite merge_line_matches_cons.
  destruct (dict_get (line_no lm) d); [by apply IH|].
  apply IH; [done|]. apply Forall_forall. intros kv [->|Hkv]%elem_of_dict_set.
  - simpl. by rewrite LineMatch_copy_eq.
  - rewrite Forall_forall in Hd. by apply Hd.
Qed.

Lemma combine_results_all (P : LineMatch → Prop) a b σ :
  Forall P (line_matches a) → Forall P (line_matches b) →
  Forall P (line_matches (combine_results a b σ).1).
Proof.
  intros Ha Hb. rewrite combine_results_eq.
  pose proof (merge_line_matches_all P (line_matches b)
                (dict_by_line_no (line_matches a)) σ Hb) as Hall.
  destruct (merge_line_matches _ _ σ) as [d σ']. simpl in *.
  rewrite sorted_Permutation. unfold dict_values. apply Forall_fmap.
  apply Hall. apply Forall_forall. intros kv Hkv%elem_of_dict_by_line_no.
  rewrite Forall_forall in Ha. by apply Ha.
Qed.

Lemma combine_results_title a b σ : title (combine_results a b σ).1 = title a.
Proof. rewrite combine_results_eq. by destruct (merge_line_matches _ _ σ). Qed.

Lemma merge_one_result_of mode s c r σ :
  result_of s c → result_of s r → result_of s (merge_one mode c r σ).1.
Proof.
  intros [Htc Hc] [Htr Hr].
  assert (result_of s (combine_results c r σ).1) as Hcomb.
  { split; [by rewrite combine_results_title|by apply combine_results_all]. }
  destruct mode; simpl; [|done].
  by destruct ((0 <? matches c) && (0 <? matches r)).
Qed.

Lemma merge_zip_result_of mode sonnets : ∀ cs rs σ,
  Forall2 result_of sonnets cs → Forall2 result_of sonnets rs →
  Forall2 result_of sonnets (merge_zip mode cs rs σ).1.
Proof.
  induction sonnets as [|s sonnets IH]; intros cs rs σ Hcs Hrs.
  { apply Forall2_nil_inv_l in Hcs as ->. constructor. }
  apply Forall2_cons_inv_l in Hcs as (c & cs' & Hc & Hcs & ->).
  apply Forall2_cons_inv_l in Hrs as (r & rs' & Hr & Hrs & ->).
  rewrite merge_zip_cons.
  pose proof (merge_one_result_of mode s c r σ Hc Hr) as H1.
  destruct (merge_one mode c r σ) as [c' σ1].
  specialize (IH cs' rs' σ1 Hcs Hrs).
  destruct (merge_zip mode cs' rs' σ1) as [cs'' σ2]. by constructor.
Qed.

Section lines_facts.
Variable lower : pystr → pystr.

Lemma search_sonnet_result_of s w σ : result_of s (search_sonnet lower s w σ).1.
Proof.
  destruct (search_sonnet_spec lower s w σ) as (r & news & -> & Ht & _ & _ & _ & Hall & _).
  split; [done|]. simpl. eapply Forall_impl; [exact Hall|].
  by intros lm (? & ? & _).
Qed.

Lemma search_all_result_of sonnets w : ∀ σ,
  Forall2 result_of sonnets (search_all lower sonnets w σ).1.
Proof.
  induction sonnets as [|s sonnets IH]; intros σ; [constructor|].
  simpl. unfold mbind, M_bind, mret, M_ret.
  pose proof (search_sonnet_result_of s w σ) as H1.
  destruct (search_sonnet lower s w σ) as [r σ1].
  specialize (IH σ1). destruct (search_all lower sonnets w σ1) as [rs σ2].
  by constructor.
Qed.

Lemma query_word_result_of mode sonnets w accs σ accs' σ' :
  query_word lower mode sonnets w (accs, σ) = Some (accs', σ') →
  accs = [] ∨ Forall2 result_of sonnets accs →
  Forall2 result_of sonnets accs'.
Proof.
  unfold query_word. intros Heq Hacc.
  pose proof (search_all_result_of sonnets w σ) as Hrs.
  destruct (search_all lower sonnets w σ) as [rs σ1]. simpl in Hrs.
  destruct accs as [|a accs0]; [by injection Heq as <- <-|].
  destruct Hacc as [|Hacc]; [done|].
  rewrite merge_loop_zip in Heq.
  - pose proof (merge_zip_result_of mode sonnets (a :: accs0) rs σ1 Hacc Hrs) as Hz.
    destruct (merge_zip mode (a :: accs0) rs σ1) as [z1 z2].
    by injection Heq as <- <-.
  - apply Forall2_length in Hacc, Hrs. congruence.
Qed.

Lemma query_words_result_of mode sonnets ws : ∀ accs σ accs' σ',
  for_each (query_word lower mode sonnets) ws (accs, σ) = Some (accs', σ') →
  accs = [] ∨ Forall2 result_of sonnets accs →
  ws = [] ∧ accs' = accs ∨ Forall2 result_of sonnets accs'.
Proof.
  induction ws as [|w ws IH]; intros accs σ accs' σ' Heq Hacc.
  { injection Heq as <- <-. by left. }
  cbn [for_each] in Heq.
  destruct (query_word lower mode sonnets w (accs, σ)) as [[accs1 σ1]|] eqn:E1; [|done].
  simpl in Heq. right.
  pose proof (query_word_result_of mode sonnets w accs σ accs1 σ1 E1 Hacc) as H1.
  destruct (IH accs1 σ1 accs' σ' Heq (or_intror H1)) as [[_ ->]|?]; done.
Qed.

Lemma found_in_spans_nonempty s w σ r : found_in lower s w σ r → spans_nonempty σ r.
Proof.
  intros (_ & Hts & _ & Hls). split.
  - rewrite Hts. apply Forall_forall. intros sp Hsp. by apply find_spans_valid in Hsp as [? _].
  - intros n. rewrite Hls. unfold doc_line_spans. destruct n as [|j]; [constructor|].
    destruct (sonnet_lines s !! j); [|constructor].
    apply Forall_forall. intros sp Hsp. by apply find_spans_valid in Hsp as [? _].
Qed.

Lemma spans_nonempty_agree σ σ' r :
  (∀ l, l ∈ locs_of r → deref σ' l = deref σ l) →
  spans_nonempty σ r → spans_nonempty σ' r.
Proof.
  intros Hag [Ht Hl]. split; [done|]. intros n. by rewrite (spans_at_agree σ σ').
Qed.

Lemma merged_spans_nonempty mode σ c r σ' c' :
  merged mode σ c r σ' c' → spans_nonempty σ c → spans_nonempty σ r →
  spans_nonempty σ' c'.
Proof.
  unfold merged. intros Hm [Htc Hlc] [Htr Hlr]. destruct (combines mode c r).
  - destruct Hm as (_ & _ & Hts & Hls). split.
    + rewrite Hts, sorted_Permutation. by apply Forall_app.
    + intros n. rewrite Hls. by apply Forall_app.
  - destruct Hm as [-> Hsame]. split; [done|]. intros n.
    change (spans_at σ' (set_matches 0 c) n) with (spans_at σ' c n).
    by rewrite (spans_at_agree σ σ').
Qed.

Lemma query_word_spans_nonempty mode sonnets w accs σ :
  accs = [] ∨ engine_inv mode sonnets σ accs ∧ Forall (spans_nonempty σ) accs →
  ∃ accs' σ', query_word lower mode sonnets w (accs, σ) = Some (accs', σ') ∧
    engine_inv mode sonnets σ' accs' ∧ Forall (spans_nonempty σ') accs'.
Proof.
  intros Hinv.
  destruct (query_word_spec lower mode sonnets w accs σ) as (accs' & σ' & Heq & Hinv' & Hfirst & Hpt).
  { destruct Hinv as [?|[? _]]; [by left|by right]. }
  exists accs', σ'. split; [done|]. split; [done|].
  apply Forall_lookup. intros i c' Hc'.
  assert (i < length sonnets) as Hi.
  { destruct Hinv' as [<- _]. by eapply lookup_lt_Some. }
  destruct (lookup_lt_is_Some_2 sonnets i Hi) as [s Hs].
  destruct Hinv as [->|[(Hlen & _) Hne]].
  - destruct (Hfirst eq_refl i s Hs) as (r & Hr & Hf).
    assert (r = c') as -> by congruence. by eapply found_in_spans_nonempty.
  - destruct (lookup_lt_is_Some_2 accs i) as [c Hc]; [by rewrite Hlen|].
    destruct (Hpt i c Hc) as (r & σm & c'' & Hag & Hf & Hc'' & Hm).
    assert (c'' = c') as -> by congruence.
    eapply merged_spans_nonempty; [exact Hm| |].
    + apply (spans_nonempty_agree σ); [done|].
      rewrite Forall_lookup in Hne. by apply (Hne i).
    + eapply found_in_spans_nonempty. by apply Hf.
Qed.

Lemma query_words_spans_nonempty mode sonnets ws : ∀ accs σ,
  accs = [] ∨ engine_inv mode sonnets σ accs ∧ Forall (spans_nonempty σ) accs →
  ∃ accs' σ', for_each (query_word lower mode sonnets) ws (accs, σ) = Some (accs', σ') ∧
    Forall (spans_nonempty σ') accs'.
Proof.
  induction ws as [|w ws IH]; intros accs σ Hinv.
  { exists accs, σ. split; [done|]. destruct Hinv as [->|[_ ?]]; [constructor|done]. }
  destruct (query_word_spans_nonempty mode sonnets w accs σ Hinv)
    as (accs1 & σ1 & Heq & Hinv1 & Hne1).
  destruct (IH accs1 σ1 (or_intror (conj Hinv1 Hne1))) as (accs' & σ' & Heq' & Hne').
  exists accs', σ'. cbn [for_each]. rewrite Heq. by split.
Qed.

Lemma query_evaluation_printable mode sonnets w ws σ0 :
  ∃ accs σ, query_evaluation lower mode sonnets (w :: ws) σ0 = Some (accs, σ) ∧
    Forall2 result_of sonnets accs ∧ Forall (spans_nonempty σ) accs.
Proof.
  unfold query_evaluation.
  destruct (query_words_spans_nonempty mode sonnets (w :: ws) [] σ0 (or_introl eq_refl))
    as (accs & σ & Heq & Hne).
  exists accs, σ. split; [done|]. split; [|done].
  by destruct (query_words_result_of mode sonnets (w :: ws) [] σ0 accs σ Heq
                 (or_introl eq_refl)) as [[? _]|?].
Qed.
End lines_facts.

Lemma elem_of_line_spans σ lms lm sp :
  lm ∈ lms → sp ∈ deref σ (spans lm) → sp ∈ line_spans σ lms (line_no lm).
Proof.
  intros Hlm Hsp. unfold line_spans. apply list_elem_of_bind.
  exists lm. split; [|done]. by rewrite decide_True.
Qed.

Lemma result_of_printable s σ r :
  plain_sonnet s → result_of s r → spans_nonempty σ r → printable σ r.
Proof.
  intros [Hpt Hpl] [Ht Hlms] [Hts Hls]. split; [by rewrite Ht|]. split; [done|].
  apply Forall_forall. intros lm Hlm. split.
  - rewrite Forall_forall in Hlms. destruct (Hlms lm Hlm) as [_ Hline].
    rewrite Forall_forall in Hpl. apply Hpl. by eapply list_elem_of_lookup_2.
  - apply Forall_forall. intros sp Hsp.
    specialize (Hls (line_no lm)). rewrite Forall_forall in Hls. apply Hls.
    by apply elem_of_line_spans.
Qed.

(** X29: after a query of at least one word, under AND and under OR,
    every accumulator has the title of its sonnet, and every line match
    it holds has the number and the raw text of a line of that sonnet;
    no span that it holds is empty. *)
Theorem query_evaluation_lines (lower : pystr → pystr) (mode : search_mode)
    (sonnets : list Sonnet) (w : pystr) (ws : list pystr) (σ0 : store) :
  ∃ accs σ, query_evaluation lower mode sonnets (w :: ws) σ0 = Some (accs, σ) ∧
    Forall2 (λ s acc,
      title acc = sonnet_title s ∧
      Forall (λ sp : span, sp.1 < sp.2) (title_spans acc) ∧
      ∀ lm, lm ∈ line_matches acc →
        1 ≤ line_no lm ∧
        sonnet_lines s !! (line_no lm - 1) = Some (text lm) ∧
        Forall (λ sp : span, sp.1 < sp.2) (deref σ (spans lm))) sonnets accs.
Proof.
  destruct (query_evaluation_printable lower mode sonnets w ws σ0)
    as (accs & σ & Heq & Hres & Hne).
  exists accs, σ. split; [done|].
  apply Forall2_same_length_lookup. split; [by eapply Forall2_length|].
  intros i s acc Hs Hacc.
  destruct (Forall2_lookup_lr _ _ _ _ _ _ Hres Hs Hacc) as [Ht Hlms].
  rewrite Forall_lookup in Hne. destruct (Hne i acc Hacc) as [Hts Hls].
  split; [done|]. split; [done|]. intros lm Hlm.
  rewrite Forall_forall in Hlms. destruct (Hlms lm Hlm) as [Hle Hline].
  split; [done|]. split; [done|].
  apply Forall_forall. intros sp Hsp.
  specialize (Hls (line_no lm)). rewrite Forall_forall in Hls. apply Hls.
  by apply elem_of_line_spans.
Qed.

(** X30: for sonnets and a query line that hold no escape character,
    what [main] prints for a query with highlighting on is what it prints
    with highlighting off, with escape codes put in: deleting the two
    escape codes from every printed string gives the strings printed
    without highlighting. This holds under AND and under OR and for any
    lowering function, also one that changes the length of a string. *)
Theorem query_print_strip (Float : Type) (format_2f : Float → pystr)
    (lower : pystr → pystr) (mode : search_mode) (sonnets : list Sonnet)
    (w : pystr) (ws : list pystr) (σ0 : store) (raw : pystr) (t : option Float) :
  Forall plain_sonnet sonnets →
  ESC ∉ raw →
  from_option (λ x, ESC ∉ format_2f x) True t →
  ∃ accs σ, query_evaluation lower mode sonnets (w :: ws) σ0 = Some (accs, σ) ∧
    strip_markers <$> print_results Float format_2f raw accs true t σ =
    print_results Float format_2f raw accs false t σ.
Proof.
  intros Hplain Hraw Ht.
  destruct (query_evaluation_printable lower mode sonnets w ws σ0)
    as (accs & σ & Heq & Hres & Hne).
  exists accs, σ. split; [done|].
  assert (Forall (printable σ) (matched accs)) as Hp.
  { apply Forall_forall. intros acc [_ Hacc]%list_elem_of_filter.
    apply list_elem_of_lookup in Hacc as [i Hacc].
    destruct (Forall2_lookup_r _ _ _ _ _ Hres Hacc) as (s & Hs & Hof).
    apply (result_of_printable s); [|done|].
    - rewrite Forall_forall in Hplain. apply Hplain. by eapply list_elem_of_lookup_2.
    - rewrite Forall_lookup in Hne. by apply (Hne i). }
  unfold print_results. rewrite fmap_cons. f_equal.
  - apply strip_markers_plain. by apply header_line_no_ESC.
  - by apply (print_each_strip σ (length accs) (matched accs) S).
Qed.

Lemma query_print_strip_witness :
  ∃ accs σ,
    query_evaluation str_lower AND [sonnet_test; sonnet_dotted] [py "a"; py "s"] [] =
      Some (accs, σ) ∧
    strip_markers <$> print_results unit (λ _, py "0.25") (py "a s") accs true (Some ()) σ =
    print_results unit (λ _, py "0.25") (py "a s") accs false (Some ()) σ.
Proof.
  apply (query_print_strip unit (λ _, py "0.25") str_lower AND
           [sonnet_test; sonnet_dotted] (py "a") [py "s"] [] (py "a s") (Some ())).
  - repeat constructor; apply (bool_decide_unpack _); vm_compute; exact I.
  - apply (bool_decide_unpack _). vm_compute. exact I.
  - apply (bool_decide_unpack _). vm_compute. exact I.
Defined.
